(** * kdtools: implicit k-d trees in a sorted array

    A shallow embedding of [inst/include/kdtools.h] and the properties of
    its builder, its verifier and its queries.

    Conventions of the embedding.
    - A point of arity [D] ([ndim<T>::value]) is the list of its [D]
      coordinates; [get I p] is [std::get<I>(p)].  Coordinates are
      integers.  A [key_value] forwards every comparator to its key and is
      not modelled apart from points.
    - An iterator into the array is the index it designates; [last] of the
      whole array is its length.
    - Dereferencing an iterator is an effect: it yields the element inside
      the array, and what the parameter [stray] says outside of it.
    - Recursion on subranges takes a budget [fuel]; the entry points pass
      the length of the range, which suffices.
    - The distances the queries compare are [|x|] and [sqrt n] for
      integers; such a number is kept exactly, as its radicand, and
      floating-point rounding is left out.
    - The standard algorithms that only read ([partition_point],
      [is_partitioned], [copy_if]) are embedded as the library writes
      them; those that permute ([nth_element], [partition]) are
      parameters of the builder, with what the standard says of them. *)

From Stdlib Require Import List ZArith Lia Bool Arith PeanoNat Permutation Sorted.
Import ListNotations.

(** ** Results of code that dereferences iterators *)

Inductive outcome (T : Type) : Type :=
| Done (x : T)          (* normal return *)
| BadRead (i : nat)     (* an iterator outside the array was dereferenced *)
| NoFuel.               (* recursion budget of the embedding exhausted *)

Arguments Done {T} x.
Arguments BadRead {T} i.
Arguments NoFuel {T}.

Definition bind {T U : Type} (c : outcome T) (k : T -> outcome U) : outcome U :=
  match c with
  | Done x => k x
  | BadRead i => BadRead i
  | NoFuel => NoFuel
  end.

Notation "x <- c1 ;; c2" := (bind c1 (fun x => c2))
  (at level 61, c1 at next level, right associativity).

(** ** Points and scalars *)

Definition point := list Z.

Definition get (I : nat) (p : point) : Z := nth I p 0%Z.

(** [double]s that hold a distance: [Sqrt n] is the square root of [n];
    [DblMax] is [numeric_limits<double>::max()]. *)
Inductive dbl : Type :=
| Sqrt (n : Z)
| DblMax.

Definition dbl_ltb (a b : dbl) : bool :=
  match a, b with
  | Sqrt x, Sqrt y => (x <? y)%Z
  | Sqrt _, DblMax => true
  | DblMax, _ => false
  end.

Definition dbl_leb (a b : dbl) : bool := negb (dbl_ltb b a).

Definition scalar_diff (lhs rhs : Z) : Z := (lhs - rhs)%Z.

(** [std::abs (scalar_diff lhs rhs)], as a distance: [|x| = sqrt (x * x)]. *)
Definition scalar_dist (lhs rhs : Z) : dbl :=
  Sqrt (scalar_diff lhs rhs * scalar_diff lhs rhs).

Definition middle_of (first last : nat) : nat := first + (last - first) / 2.

(** ** namespace detail: comparators and geometry, for a fixed arity *)

Module detail.

Section Arity.

Variable D : nat.

Definition less_nth (I : nat) (lhs rhs : point) : bool :=
  (get I lhs <? get I rhs)%Z.

Definition dist_nth (I : nat) (lhs rhs : point) : dbl :=
  scalar_dist (get I lhs) (get I rhs).

Definition diff_nth (I : nat) (lhs rhs : point) : Z :=
  scalar_diff (get I lhs) (get I rhs).

Definition incr_wrap (I N : nat) : nat := (I + 1) mod N.

Definition next_dim (I : nat) : nat := incr_wrap I D.

(** [kd_less<I, K>]: [rest] is [ndim - 1 - K], the number of axes still to
    be examined after axis [I]; [is_last<K>] is [rest = 0]. *)
Fixpoint kd_less_ (rest I : nat) (lhs rhs : point) : bool :=
  match rest with
  | 0 => (get I lhs <? get I rhs)%Z
  | S rest' =>
      if (get I lhs =? get I rhs)%Z
      then kd_less_ rest' (next_dim I) lhs rhs
      else (get I lhs <? get I rhs)%Z
  end.

Definition kd_less (I : nat) : point -> point -> bool := kd_less_ (D - 1) I.

(** [all_less_<I>] and [none_less_<I>]: [rest] is [ndim - 1 - I]. *)
Fixpoint all_less_ (rest I : nat) (lhs rhs : point) : bool :=
  match rest with
  | 0 => (get I lhs <? get I rhs)%Z
  | S rest' => (get I lhs <? get I rhs)%Z && all_less_ rest' (I + 1) lhs rhs
  end.

Definition all_less : point -> point -> bool := all_less_ (D - 1) 0.

Fixpoint none_less_ (rest I : nat) (lhs rhs : point) : bool :=
  match rest with
  | 0 => (get I lhs >=? get I rhs)%Z
  | S rest' => (get I lhs >=? get I rhs)%Z && none_less_ rest' (I + 1) lhs rhs
  end.

Definition none_less : point -> point -> bool := none_less_ (D - 1) 0.

Definition within (value lower upper : point) : bool :=
  none_less value lower && all_less value upper.

Fixpoint sum_of_squares_ (rest I : nat) (lhs rhs : point) : Z :=
  match rest with
  | 0 => (diff_nth I rhs lhs ^ 2)%Z
  | S rest' => (diff_nth I rhs lhs ^ 2 + sum_of_squares_ rest' (I + 1) lhs rhs)%Z
  end.

Definition sum_of_squares : point -> point -> Z := sum_of_squares_ (D - 1) 0.

Definition l2dist (lhs rhs : point) : dbl := Sqrt (sum_of_squares lhs rhs).

(** [kd_compare<Pred, I, K>], with the user's order [m_pred] on scalars:
    [rest] is [ndim - 1 - K].  Two scalars are taken as equal when neither
    precedes the other. *)
Fixpoint kd_compare_ (m_pred : Z -> Z -> bool) (rest I : nat)
    (lhs rhs : point) : bool :=
  match rest with
  | 0 => m_pred (get I lhs) (get I rhs)
  | S rest' =>
      if negb (m_pred (get I lhs) (get I rhs)) &&
         negb (m_pred (get I rhs) (get I lhs))
      then kd_compare_ m_pred rest' (next_dim I) lhs rhs
      else m_pred (get I lhs) (get I rhs)
  end.

Definition kd_compare (m_pred : Z -> Z -> bool) (I : nat)
    : point -> point -> bool :=
  kd_compare_ m_pred (D - 1) I.

(** [make_kd_compare<I>(pred)] returns [kd_compare<Pred, I>(pred)]. *)
Definition make_kd_compare (I : nat) (pred : Z -> Z -> bool)
    : point -> point -> bool :=
  kd_compare pred I.

End Arity.

(** ** The array and the standard algorithms that only read it *)

Section Queries.

Variable D : nat.

(** What dereferencing an iterator outside the array yields. *)
Variable stray : nat -> outcome point.

Variable A : list point.

Definition deref (it : nat) : outcome point :=
  match nth_error A it with
  | Some x => Done x
  | None => stray it
  end.

(** [std::partition_point]: the bisection loop of the standard library
    ([len] elements left from [first]; [half = len >> 1]). *)
Fixpoint partition_point_ (fuel : nat) (pred : point -> bool)
    (first len : nat) : outcome nat :=
  match len with
  | 0 => Done first
  | S _ =>
      match fuel with
      | 0 => NoFuel
      | S fuel' =>
          let half := len / 2 in
          let middle := first + half in
          x <- deref middle ;;
          if pred x
          then partition_point_ fuel' pred (middle + 1) (len - half - 1)
          else partition_point_ fuel' pred first half
      end
  end.

Definition partition_point (first last : nat) (pred : point -> bool)
    : outcome nat :=
  partition_point_ (last - first) pred first (last - first).

(** [std::find_if_not] and [std::none_of] over [n] elements from [first]. *)
Fixpoint find_if_not (n first : nat) (pred : point -> bool) : outcome nat :=
  match n with
  | 0 => Done first
  | S n' =>
      x <- deref first ;;
      if pred x then find_if_not n' (S first) pred else Done first
  end.

Fixpoint none_of (n first : nat) (pred : point -> bool) : outcome bool :=
  match n with
  | 0 => Done true
  | S n' =>
      x <- deref first ;;
      if pred x then Done false else none_of n' (S first) pred
  end.

(** [std::is_partitioned]: skip the elements that satisfy [pred], then
    none of the others may. *)
Definition is_partitioned (first last : nat) (pred : point -> bool)
    : outcome bool :=
  mid <- find_if_not (last - first) first pred ;;
  if mid =? last then Done true
  else none_of (last - S mid) (S mid) pred.

(** [std::copy_if] into a sink that appends. *)
Fixpoint copy_if (n first : nat) (outp : list point) (pred : point -> bool)
    : outcome (list point) :=
  match n with
  | 0 => Done outp
  | S n' =>
      x <- deref first ;;
      copy_if n' (S first) (if pred x then outp ++ [x] else outp) pred
  end.

(** [find_pivot<I>].  The lambda reads [*pivot] at every call; the array
    does not change meanwhile, so it is read once here.  Every caller
    passes a range of two elements or more, where the lambda is called. *)
Definition find_pivot (I first last : nat) : outcome nat :=
  let pivot := middle_of first last in
  pv <- deref pivot ;;
  partition_point first pivot (fun x => less_nth I x pv).

Definition check_partition (first pivot last : nat)
    (pred : point -> point -> bool) : outcome bool :=
  pv <- deref pivot ;;
  is_partitioned first last (fun x => pred x pv).

(** [kd_is_sorted<I>]; [&&] evaluates its right operand only when the left
    one holds. *)
Fixpoint kd_is_sorted (fuel I first last : nat) : outcome bool :=
  if last - first <? 2 then Done true
  else
    match fuel with
    | 0 => NoFuel
    | S fuel' =>
        let J := next_dim D I in
        let pred := kd_less D I in
        pivot <- find_pivot I first last ;;
        ok <- check_partition first pivot last pred ;;
        if ok then
          ok_left <- kd_is_sorted fuel' J first pivot ;;
          if ok_left then kd_is_sorted fuel' J (S pivot) last
          else Done false
        else Done false
    end.

(** [it != last && pred( *it )]: the element is read only when [it != last]. *)
Definition is_hit (it last : nat) (pred : point -> bool) : outcome bool :=
  if it =? last then Done false
  else x <- deref it ;; Done (pred x).

Fixpoint kd_lower_bound (fuel I first last : nat) (value : point)
    : outcome nat :=
  if 1 <? last - first then
    match fuel with
    | 0 => NoFuel
    | S fuel' =>
        let J := next_dim D I in
        pivot <- find_pivot I first last ;;
        pv <- deref pivot ;;
        if none_less D pv value
        then kd_lower_bound fuel' J first pivot value
        else if all_less D pv value
        then kd_lower_bound fuel' J (S pivot) last value
        else
          it <- kd_lower_bound fuel' J first pivot value ;;
          hit <- is_hit it last (fun x => none_less D x value) ;;
          if hit then Done it
          else
            it <- kd_lower_bound fuel' J (S pivot) last value ;;
            hit <- is_hit it last (fun x => none_less D x value) ;;
            if hit then Done it else Done last
    end
  else
    x <- deref first ;;
    Done (if none_less D x value then first else last).

Fixpoint kd_upper_bound (fuel I first last : nat) (value : point)
    : outcome nat :=
  if 1 <? last - first then
    match fuel with
    | 0 => NoFuel
    | S fuel' =>
        let J := next_dim D I in
        pivot <- find_pivot I first last ;;
        pv <- deref pivot ;;
        if all_less D value pv
        then kd_upper_bound fuel' J first pivot value
        else if none_less D value pv
        then kd_upper_bound fuel' J (S pivot) last value
        else
          it <- kd_upper_bound fuel' J first pivot value ;;
          hit <- is_hit it last (fun x => all_less D value x) ;;
          if hit then Done it
          else
            it <- kd_upper_bound fuel' J (S pivot) last value ;;
            hit <- is_hit it last (fun x => all_less D value x) ;;
            if hit then Done it else Done last
    end
  else
    x <- deref first ;;
    Done (if all_less D value x then first else last).

(** Lines 462-469 of [kd_nearest_neighbor]: the candidate and the distance
    kept after the near side has been searched. *)
Definition near_or_pivot (pivot last : nat) (pv value : point) (search : nat)
    : outcome (nat * dbl) :=
  let min_dist := l2dist D pv value in
  if search =? last then Done (pivot, min_dist)
  else
    sv <- deref search ;;
    let sdist := l2dist D sv value in
    if dbl_ltb sdist min_dist then Done (search, sdist)
    else Done (pivot, min_dist).

Fixpoint kd_nearest_neighbor (fuel I first last : nat) (value : point)
    : outcome nat :=
  if 1 <? last - first then
    match fuel with
    | 0 => NoFuel
    | S fuel' =>
        let J := next_dim D I in
        pivot <- find_pivot I first last ;;
        pv <- deref pivot ;;
        let search_left := less_nth I value pv in
        search <- (if search_left
                   then kd_nearest_neighbor fuel' J first pivot value
                   else kd_nearest_neighbor fuel' J (S pivot) last value) ;;
        best <- near_or_pivot pivot last pv value search ;;
        let (search, min_dist) := best in
        if dbl_ltb (dist_nth I value pv) min_dist then
          s2 <- (if search_left
                 then kd_nearest_neighbor fuel' J (S pivot) last value
                 else kd_nearest_neighbor fuel' J first pivot value) ;;
          closer <- is_hit s2 last
                      (fun x => dbl_ltb (l2dist D x value) min_dist) ;;
          if closer then Done s2 else Done search
        else Done search
    end
  else Done first.

(** [kd_range_query<I>].  The sink appends; [outp] is the list of the
    elements written so far. *)
Fixpoint kd_range_query (fuel I first last : nat) (lower upper : point)
    (outp : list point) : outcome (list point) :=
  if 32 <? last - first then
    match fuel with
    | 0 => NoFuel
    | S fuel' =>
        let J := next_dim D I in
        let pred := less_nth I in
        pivot <- find_pivot I first last ;;
        pv <- deref pivot ;;
        let outp := if within D pv lower upper then outp ++ [pv] else outp in
        outp <- (if negb (pred pv lower)
                 then kd_range_query fuel' J first pivot lower upper outp
                 else Done outp) ;;
        if pred pv upper
        then kd_range_query fuel' J (S pivot) last lower upper outp
        else Done outp
    end
  else copy_if (last - first) first outp (fun x => within D x lower upper).

(** ** [n_best]: the bounded queue of the k-nearest-neighbour search *)

Definition qmem_t : Type := (dbl * nat)%type.

(** [std::priority_queue<qmem_t, qcont_t, less_nth<0>>] is kept as the
    list of its entries in the order [pop] removes them: keys never
    increase along it.  Which of several entries of equal key is on top is
    left to the heap; here the one pushed first. *)
Fixpoint pq_push (e : qmem_t) (q : list qmem_t) : list qmem_t :=
  match q with
  | [] => [e]
  | h :: t => if dbl_ltb (fst h) (fst e) then e :: q else h :: pq_push e t
  end.

Definition pq_pop (q : list qmem_t) : list qmem_t := tl q.

Record n_best : Type := Build_n_best { m_n : nat; m_q : list qmem_t }.

Definition n_best_new (n : nat) : n_best := Build_n_best n [].

Definition max_key (q : n_best) : dbl :=
  match m_q q with
  | [] => DblMax
  | top :: _ => fst top
  end.

Definition add (q : n_best) (dist : dbl) (it : nat) : n_best :=
  let m_q' := pq_push (dist, it) (m_q q) in
  if m_n q <? length m_q'
  then Build_n_best (m_n q) (pq_pop m_q')
  else Build_n_best (m_n q) m_q'.

Fixpoint copy_to_ (m_q : list qmem_t) (outp : list point)
    : outcome (list point) :=
  match m_q with
  | [] => Done outp
  | top :: m_q' => x <- deref (snd top) ;; copy_to_ m_q' (outp ++ [x])
  end.

Definition copy_to (q : n_best) (outp : list point) : outcome (list point) :=
  copy_to_ (m_q q) outp.

(** [knn<I>]: [case 1] falls through to [case 0]. *)
Fixpoint knn (fuel I first last : nat) (value : point) (q : n_best)
    : outcome n_best :=
  match last - first with
  | 0 => Done q
  | 1 => x <- deref first ;; Done (add q (l2dist D x value) first)
  | _ =>
      match fuel with
      | 0 => NoFuel
      | S fuel' =>
          let J := next_dim D I in
          pivot <- find_pivot I first last ;;
          pv <- deref pivot ;;
          let q := add q (l2dist D pv value) pivot in
          let search_left := less_nth I value pv in
          q <- (if search_left
                then knn fuel' J first pivot value q
                else knn fuel' J (S pivot) last value q) ;;
          if dbl_leb (dist_nth I value pv) (max_key q) then
            if search_left
            then knn fuel' J (S pivot) last value q
            else knn fuel' J first pivot value q
          else Done q
      end
  end.

End Queries.

(** ** The builder *)

Section Build.

Variable D : nat.

(** The two standard algorithms that permute a range are parameters: the
    standard fixes what they establish, not the order they leave.  Each
    takes the elements of the range and returns them rearranged.
    [nth_element pred l nth] is [std::nth_element(first, first + nth, last,
    pred)] on the range that holds [l]; [partition pred l] is
    [std::partition(first, last, pred)], with the offset from [first] of
    the iterator it returns. *)
Variable nth_element :
  (point -> point -> bool) -> list point -> nat -> list point.

Variable partition : (point -> bool) -> list point -> list point * nat.

(** [adjust_pivot(first, pivot, pred)] on the range that holds [l], where
    [pivot] is an offset inside it: [first .. pivot) is partitioned, the
    rest stays. *)
Definition adjust_pivot (l : list point) (pivot : nat)
    (pred : point -> point -> bool) : list point * nat :=
  match skipn pivot l with
  | [] => (l, pivot)
  | pv :: _ =>
      let (l1, p) := partition (fun x => pred x pv) (firstn pivot l) in
      (l1 ++ skipn pivot l, p)
  end.

(** [kd_sort<I>] on the range that holds [l].  The two recursive calls
    work on disjoint parts of the range, right part first. *)
Fixpoint kd_sort (fuel I : nat) (l : list point) : outcome (list point) :=
  if 1 <? length l then
    match fuel with
    | 0 => NoFuel
    | S fuel' =>
        let J := next_dim D I in
        let pred := kd_less D I in
        let pivot := middle_of 0 (length l) in
        let l := nth_element pred l pivot in
        let (l, pivot) := adjust_pivot l pivot pred in
        match skipn pivot l with
        | [] => Done l
        | x :: l2 =>
            l2 <- kd_sort fuel' J l2 ;;
            l1 <- kd_sort fuel' J (firstn pivot l) ;;
            Done (l1 ++ x :: l2)
        end
    end
  else Done l.

End Build.

End detail.

(** ** namespace kdtools: the public entry points, on the array [A] and
    the range [first .. last) of it *)

Section Api.

Variable D : nat.
Variable stray : nat -> outcome point.
Variable A : list point.

Definition kd_is_sorted (first last : nat) : outcome bool :=
  detail.kd_is_sorted D stray A (last - first) 0 first last.

Definition kd_lower_bound (first last : nat) (value : point) : outcome nat :=
  detail.kd_lower_bound D stray A (last - first) 0 first last value.

Definition kd_upper_bound (first last : nat) (value : point) : outcome nat :=
  detail.kd_upper_bound D stray A (last - first) 0 first last value.

Definition kd_binary_search (first last : nat) (value : point)
    : outcome bool :=
  first <- detail.kd_lower_bound D stray A (last - first) 0 first last value ;;
  detail.is_hit stray A first last (fun x => detail.none_less D value x).

Definition kd_equal_range (first last : nat) (value : point)
    : outcome (nat * nat) :=
  lb <- detail.kd_lower_bound D stray A (last - first) 0 first last value ;;
  ub <- detail.kd_upper_bound D stray A (last - first) 0 first last value ;;
  Done (lb, ub).

Definition kd_nearest_neighbor (first last : nat) (value : point)
    : outcome nat :=
  detail.kd_nearest_neighbor D stray A (last - first) 0 first last value.

Definition kd_range_query (first last : nat) (lower upper : point)
    (outp : list point) : outcome (list point) :=
  detail.kd_range_query D stray A (last - first) 0 first last lower upper outp.

Definition kd_nearest_neighbors (first last : nat) (value : point)
    (n : nat) (outp : list point) : outcome (list point) :=
  let q := detail.n_best_new n in
  q <- detail.knn D stray A (last - first) 0 first last value q ;;
  detail.copy_to stray A q outp.

End Api.

(** [kdtools::kd_sort] on the array [A], whole. *)
Definition kd_sort (D : nat)
    (nth_element : (point -> point -> bool) -> list point -> nat -> list point)
    (partition : (point -> bool) -> list point -> list point * nat)
    (A : list point) : outcome (list point) :=
  detail.kd_sort D nth_element partition (length A) 0 A.

(** ** The two ways a stray read can end *)

(** The read is an error: the strict reading of the language. *)
Definition trap : nat -> outcome point := fun it => BadRead it.

(** The read yields whatever lies there, [g]. *)
Definition yields (g : point) : nat -> outcome point := fun _ => Done g.

(** ** Reference implementations of the permuting algorithms *)

Fixpoint insert_by (pred : point -> point -> bool) (x : point)
    (l : list point) : list point :=
  match l with
  | [] => [x]
  | h :: t => if pred x h then x :: l else h :: insert_by pred x t
  end.

Definition sort_by (pred : point -> point -> bool) (l : list point)
    : list point :=
  fold_right (insert_by pred) [] l.

(** Sorting the whole range is one valid [nth_element]. *)
Definition nth_element_ref (pred : point -> point -> bool) (l : list point)
    (nth : nat) : list point :=
  sort_by pred l.

(** A stable partition is one valid [partition]. *)
Definition partition_ref (pred : point -> bool) (l : list point)
    : list point * nat :=
  (filter pred l ++ filter (fun x => negb (pred x)) l,
   length (filter pred l)).

Definition kd_sort_ref (D : nat) : list point -> outcome (list point) :=
  kd_sort D nth_element_ref partition_ref.

(** * Vocabulary of the properties *)

(** The element an in-range iterator designates. *)
Definition elt (A : list point) (it : nat) : point := nth it A [].

(** The elements of the range [first .. last), in order. *)
Definition span (A : list point) (first last : nat) : list point :=
  firstn (last - first) (skipn first A).

Definition point_eq_dec : forall x y : point, {x = y} + {x <> y} :=
  list_eq_dec Z.eq_dec.

(** The axes [kd_less<I>] examines: [I], then [next_dim] of it, and so on. *)
Fixpoint axes (D rest I : nat) : list nat :=
  match rest with
  | 0 => [I]
  | S rest' => I :: axes D rest' (detail.next_dim D I)
  end.

(** What the standard promises of [nth_element] under the comparators of
    the builder: the range is rearranged, and no element from [nth] on is
    less than an element up to [nth]. *)
Definition nth_element_ok (D : nat)
    (nth_element : (point -> point -> bool) -> list point -> nat -> list point)
    : Prop :=
  forall I l n, n < length l ->
    Permutation (nth_element (detail.kd_less D I) l n) l /\
    forall i j, i <= n -> n <= j -> j < length l ->
      detail.kd_less D I
        (nth j (nth_element (detail.kd_less D I) l n) [])
        (nth i (nth_element (detail.kd_less D I) l n) []) = false.

(** What the standard promises of [partition]: the range is rearranged,
    the elements before the returned iterator satisfy [pred] and the
    others do not. *)
Definition partition_ok
    (partition : (point -> bool) -> list point -> list point * nat) : Prop :=
  forall pred l,
    Permutation (fst (partition pred l)) l /\
    snd (partition pred l) <= length l /\
    (forall i, i < snd (partition pred l) ->
       pred (nth i (fst (partition pred l)) []) = true) /\
    (forall i, snd (partition pred l) <= i < length l ->
       pred (nth i (fst (partition pred l)) []) = false).

Section Vocabulary.

Variable D : nat.
Variable stray : nat -> outcome point.
Variable A : list point.

(** ** The tree that [kd_is_sorted] accepts *)

(** [kd_tree I first last]: at every level the range splits at the
    iterator [find_pivot] returns, strictly smaller elements before it and
    no smaller element from it on, under [kd_less] of the level's axis. *)
Inductive kd_tree : nat -> nat -> nat -> Prop :=
| kd_tree_leaf (I first last : nat) :
    last - first < 2 -> kd_tree I first last
| kd_tree_node (I first last pivot : nat) :
    1 < last - first ->
    detail.find_pivot stray A I first last = Done pivot ->
    first <= pivot < last ->
    (forall i, first <= i < pivot ->
       detail.kd_less D I (elt A i) (elt A pivot) = true) ->
    (forall i, pivot <= i < last ->
       detail.kd_less D I (elt A i) (elt A pivot) = false) ->
    kd_tree (detail.next_dim D I) first pivot ->
    kd_tree (detail.next_dim D I) (S pivot) last ->
    kd_tree I first last.

(** ** The queue of a search for the neighbours of [value] *)

Variable value : point.

(** The queue entry of the element at [it]. *)
Definition entry (it : nat) : detail.qmem_t :=
  (detail.l2dist D (elt A it) value, it).

(** Iterators in the order the queue pops them: farthest first. *)
Definition farthest_first : list nat -> Prop :=
  StronglySorted
    (fun i j => (detail.sum_of_squares D (elt A j) value
                 <= detail.sum_of_squares D (elt A i) value)%Z).

(** [pq_push] on the iterators alone. *)
Fixpoint ins (it : nat) (its : list nat) : list nat :=
  match its with
  | [] => [it]
  | h :: t =>
      if (detail.sum_of_squares D (elt A h) value
          <? detail.sum_of_squares D (elt A it) value)%Z
      then it :: its else h :: ins it t
  end.

(** [best_of q offered]: the queue [q] holds, farthest first, as many of
    the iterators offered so far as its bound allows, and none of those
    it does not hold is closer to the probe than any it holds. *)
Definition best_of (q : detail.n_best) (offered : list nat) : Prop :=
  exists its rest,
    detail.m_q q = map entry its /\
    farthest_first its /\
    Permutation offered (its ++ rest) /\
    (forall i j, In i its -> In j rest ->
       (detail.sum_of_squares D (elt A i) value
        <= detail.sum_of_squares D (elt A j) value)%Z) /\
    length its = Nat.min (detail.m_n q) (length offered).

End Vocabulary.

(** ** The tree that [kd_sort] builds *)

(** [kd_built D I l]: at every level the range splits at a pivot no later
    than the middle, the elements before it strictly smaller and those
    after it no smaller under [kd_less] of the level's axis; the pivot
    comes before the middle only when an element after it is neither
    smaller nor greater. *)
Inductive kd_built (D : nat) : nat -> list point -> Prop :=
| kd_built_leaf (I : nat) (l : list point) :
    length l <= 1 -> kd_built D I l
| kd_built_node (I : nat) (lo : list point) (x : point) (hi : list point) :
    length lo <= (length lo + S (length hi)) / 2 ->
    (length lo < (length lo + S (length hi)) / 2 ->
     exists y, In y hi /\
       detail.kd_less D I y x = false /\ detail.kd_less D I x y = false) ->
    (forall y, In y lo -> detail.kd_less D I y x = true) ->
    (forall y, In y hi -> detail.kd_less D I y x = false) ->
    kd_built D (detail.next_dim D I) lo ->
    kd_built D (detail.next_dim D I) hi ->
    kd_built D I (lo ++ x :: hi).

(** No two elements of [l] share a coordinate on an axis. *)
Definition tie_free (D : nat) (l : list point) : Prop :=
  forall a, a < D -> NoDup (map (get a) l).

(** ** Arrays partitioned level by level *)

(** [kd_partitioned D I l]: the range is partitioned around one of its
    elements under [kd_less<I>], smaller elements before it and no smaller
    element after it, and so are both sides on the next axis.  Where the
    pivot lies is left open: at the middle, where [kd_sort] puts it, or
    where [find_pivot] looks for it. *)
Inductive kd_partitioned (D : nat) : nat -> list point -> Prop :=
| kd_partitioned_leaf (I : nat) (l : list point) :
    length l <= 1 -> kd_partitioned D I l
| kd_partitioned_node (I : nat) (lo : list point) (x : point)
    (hi : list point) :
    (forall y, In y lo -> detail.kd_less D I y x = true) ->
    (forall y, In y hi -> detail.kd_less D I y x = false) ->
    kd_partitioned D (detail.next_dim D I) lo ->
    kd_partitioned D (detail.next_dim D I) hi ->
    kd_partitioned D I (lo ++ x :: hi).

(** [y] may follow [x]: on some axis [y] is not [kd_less] than [x]. *)
Definition may_precede (D : nat) (x y : point) : Prop :=
  exists K, K < D /\ detail.kd_less D K y x = false.

(** No two elements of [l] agree on every axis. *)
Definition distinct_points (D : nat) (l : list point) : Prop :=
  NoDup (map (fun x => map (fun a => get a x) (seq 0 D)) l).

(** Forty-one distinct points, three values on the first axis. *)
Definition ties41 : list point :=
  map (fun i => [Z.of_nat (i mod 3); Z.of_nat ((7 * i) mod 41)]) (seq 0 41).

(** Forty-one points in general position, kd-sorted: enough for
    [kd_range_query] to descend before it scans. *)
Definition sample41 : list point :=
  Eval vm_compute in
    match kd_sort_ref 2
            (map (fun i => [Z.of_nat i; Z.of_nat ((7 * i) mod 41)])
                 (seq 0 41)) with
    | Done l => l
    | _ => []
    end.

(** * Properties *)

(** ** The comparators *)

Section ComparatorFacts.

Variable D : nat.

Local Abbreviation next_dim := (detail.next_dim D).
Local Abbreviation kd_less := (detail.kd_less D).
Local Abbreviation all_less := (detail.all_less D).
Local Abbreviation none_less := (detail.none_less D).
Local Abbreviation axes := (axes D).

Lemma next_dim_lt (I : nat) : 0 < D -> next_dim I < D.
Proof.
  intros HD. unfold detail.next_dim, detail.incr_wrap.
  apply Nat.mod_upper_bound. lia.
Qed.

(** [kd_less<I>] never contradicts the order on axis [I]. *)
Lemma kd_less_true_axis (rest I : nat) (x y : point) :
  detail.kd_less_ D rest I x y = true -> (get I x <= get I y)%Z.
Proof.
  destruct rest as [|rest]; simpl.
  - intros H. apply Z.ltb_lt in H. lia.
  - destruct (Z.eqb_spec (get I x) (get I y)) as [E|E]; [lia|].
    intros H. apply Z.ltb_lt in H. lia.
Qed.

Lemma kd_less_false_axis (rest I : nat) (x y : point) :
  detail.kd_less_ D rest I x y = false -> (get I y <= get I x)%Z.
Proof.
  destruct rest as [|rest]; simpl.
  - intros H. apply Z.ltb_ge in H. lia.
  - destruct (Z.eqb_spec (get I x) (get I y)) as [E|E]; [lia|].
    intros H. apply Z.ltb_ge in H. lia.
Qed.

Lemma kd_less_lt_axis (rest I : nat) (x y : point) :
  (get I x < get I y)%Z -> detail.kd_less_ D rest I x y = true.
Proof.
  intros H. destruct rest as [|rest]; simpl.
  - now apply Z.ltb_lt.
  - destruct (Z.eqb_spec (get I x) (get I y)) as [E|E]; [lia|].
    now apply Z.ltb_lt.
Qed.

(** The componentwise predicates, axis by axis. *)
Lemma all_less__spec (rest I : nat) (x y : point) :
  detail.all_less_ rest I x y = true <->
  (forall a, I <= a <= I + rest -> (get a x < get a y)%Z).
Proof.
  revert I. induction rest as [|rest IH]; intros I; simpl.
  - rewrite Z.ltb_lt. split.
    + intros H a Ha. replace a with I by lia. exact H.
    + intros H. apply H. lia.
  - rewrite andb_true_iff, Z.ltb_lt, IH. split.
    + intros [H0 H1] a Ha.
      destruct (Nat.eq_dec a I) as [->|Hne]; [exact H0|].
      apply H1. lia.
    + intros H. split; [apply H; lia|].
      intros a Ha. apply H. lia.
Qed.

Lemma none_less__spec (rest I : nat) (x y : point) :
  detail.none_less_ rest I x y = true <->
  (forall a, I <= a <= I + rest -> (get a y <= get a x)%Z).
Proof.
  revert I. induction rest as [|rest IH]; intros I; simpl.
  - rewrite Z.geb_le. split.
    + intros H a Ha. replace a with I by lia. exact H.
    + intros H. apply H. lia.
  - rewrite andb_true_iff, Z.geb_le, IH. split.
    + intros [H0 H1] a Ha.
      destruct (Nat.eq_dec a I) as [->|Hne]; [exact H0|].
      apply H1. lia.
    + intros H. split; [apply H; lia|].
      intros a Ha. apply H. lia.
Qed.

Lemma all_less_spec (x y : point) :
  0 < D ->
  all_less x y = true <-> (forall a, a < D -> (get a x < get a y)%Z).
Proof.
  intros HD. unfold detail.all_less. rewrite all_less__spec.
  split; intros H a Ha; apply H; lia.
Qed.

Lemma none_less_spec (x y : point) :
  0 < D ->
  none_less x y = true <-> (forall a, a < D -> (get a y <= get a x)%Z).
Proof.
  intros HD. unfold detail.none_less. rewrite none_less__spec.
  split; intros H a Ha; apply H; lia.
Qed.

Lemma axes_cover (rest I a : nat) :
  0 < D -> I < D -> a < D -> (a + D - I) mod D <= rest -> In a (axes rest I).
Proof.
  intros HD. revert I. induction rest as [|rest IH]; intros I HI Ha Hk.
  - simpl. left.
    destruct (Nat.eq_dec I a) as [E|E]; [exact E|exfalso].
    destruct (Nat.lt_ge_cases a I) as [Hlt|Hge].
    + rewrite Nat.mod_small in Hk by lia. lia.
    + replace (a + D - I) with ((a - I) + 1 * D) in Hk by lia.
      rewrite Nat.Div0.mod_add, Nat.mod_small in Hk by lia. lia.
  - simpl. destruct (Nat.eq_dec I a) as [E|E]; [left; exact E|right].
    apply IH; [apply next_dim_lt; exact HD|exact Ha|].
    unfold detail.next_dim, detail.incr_wrap.
    destruct (Nat.eq_dec (I + 1) D) as [Hw|Hw].
    + rewrite Hw, Nat.Div0.mod_same.
      destruct (Nat.lt_ge_cases a I) as [Hlt|Hge]; [|lia].
      rewrite Nat.mod_small in Hk by lia.
      replace (a + D - 0) with (a + 1 * D) by lia.
      rewrite Nat.Div0.mod_add, Nat.mod_small by lia. lia.
    + rewrite (Nat.mod_small (I + 1)) by lia.
      destruct (Nat.lt_ge_cases a I) as [Hlt|Hge].
      * rewrite Nat.mod_small in Hk by lia.
        rewrite Nat.mod_small by lia. lia.
      * replace (a + D - I) with ((a - I) + 1 * D) in Hk by lia.
        rewrite Nat.Div0.mod_add, Nat.mod_small in Hk by lia.
        replace (a + D - (I + 1)) with ((a - (I + 1)) + 1 * D) by lia.
        rewrite Nat.Div0.mod_add, Nat.mod_small by lia. lia.
Qed.

Lemma axes_all (I a : nat) : 0 < D -> I < D -> a < D -> In a (axes (D - 1) I).
Proof.
  intros HD HI Ha. apply axes_cover; try assumption.
  pose proof (Nat.mod_upper_bound (a + D - I) D). lia.
Qed.

Lemma axes_lt (rest I a : nat) : 0 < D -> I < D -> In a (axes rest I) -> a < D.
Proof.
  intros HD. revert I. induction rest as [|rest IH]; intros I HI; simpl.
  - intros [<-|[]]. exact HI.
  - intros [<-|H]; [exact HI|].
    eapply IH; [|exact H]. apply next_dim_lt; exact HD.
Qed.

(** [kd_less<I>] holds exactly when the first examined axis on which the
    points differ says so. *)
Lemma kd_less_true_witness (rest I : nat) (x y : point) :
  detail.kd_less_ D rest I x y = true ->
  exists a, In a (axes rest I) /\ (get a x < get a y)%Z.
Proof.
  revert I. induction rest as [|rest IH]; intros I; simpl.
  - intros H. apply Z.ltb_lt in H. exists I. auto.
  - destruct (Z.eqb_spec (get I x) (get I y)) as [E|E].
    + intros H. destruct (IH _ H) as (a & Ha & Hlt). exists a. auto.
    + intros H. apply Z.ltb_lt in H. exists I. auto.
Qed.

Lemma kd_less_false_equal (rest I : nat) (x y : point) :
  detail.kd_less_ D rest I x y = false ->
  (forall a, In a (axes rest I) -> (get a x <= get a y)%Z) ->
  forall a, In a (axes rest I) -> get a x = get a y.
Proof.
  revert I. induction rest as [|rest IH]; intros I; simpl.
  - intros H Hle a [<-|[]]. apply Z.ltb_ge in H.
    specialize (Hle I (or_introl eq_refl)). lia.
  - destruct (Z.eqb_spec (get I x) (get I y)) as [E|E].
    + intros H Hle a [<-|Ha]; [exact E|]. apply (IH _ H); auto.
    + intros H Hle. apply Z.ltb_ge in H.
      specialize (Hle I (or_introl eq_refl)). lia.
Qed.

(** A point that is componentwise at least [v] is never [kd_less] than
    [v]; if [v] is not [kd_less] than it either, the two agree on every
    axis. *)
Lemma none_less_not_kd_less (I : nat) (x v : point) :
  0 < D -> I < D ->
  none_less x v = true -> kd_less I x v = false.
Proof.
  intros HD HI Hn. rewrite none_less_spec in Hn by exact HD.
  destruct (kd_less I x v) eqn:E; [exfalso|reflexivity].
  apply kd_less_true_witness in E. destruct E as (a & Ha & Hlt).
  specialize (Hn a (@axes_lt _ _ _ HD HI Ha)). lia.
Qed.

Lemma none_less_kd_less_equal (I : nat) (x v : point) :
  0 < D -> I < D ->
  none_less x v = true -> kd_less I v x = false -> none_less v x = true.
Proof.
  intros HD HI Hn Hk. rewrite none_less_spec in * by exact HD.
  intros a Ha.
  assert (E : get a v = get a x).
  { eapply kd_less_false_equal; [exact Hk| |].
    - intros b Hb. apply Hn. exact (@axes_lt _ _ _ HD HI Hb).
    - apply axes_all; assumption. }
  lia.
Qed.

(** [kd_less<I>] is asymmetric, and an element below the pivot is below
    everything the pivot is not above. *)
Lemma kd_less_asym (rest I : nat) (x y : point) :
  detail.kd_less_ D rest I x y = true -> detail.kd_less_ D rest I y x = false.
Proof.
  revert I. induction rest as [|rest IH]; intros I; simpl.
  - rewrite Z.ltb_lt, Z.ltb_ge. lia.
  - destruct (Z.eqb_spec (get I x) (get I y)) as [E|E];
      destruct (Z.eqb_spec (get I y) (get I x)) as [E'|E']; try lia.
    apply IH.
Qed.

Lemma kd_less_lt_le_trans (rest I : nat) (x p v : point) :
  detail.kd_less_ D rest I x p = true ->
  detail.kd_less_ D rest I v p = false ->
  detail.kd_less_ D rest I x v = true.
Proof.
  revert I. induction rest as [|rest IH]; intros I; simpl.
  - rewrite !Z.ltb_lt, Z.ltb_ge. lia.
  - destruct (Z.eqb_spec (get I x) (get I p)) as [E1|E1];
      destruct (Z.eqb_spec (get I v) (get I p)) as [E2|E2];
      destruct (Z.eqb_spec (get I x) (get I v)) as [E3|E3];
      rewrite ?Z.ltb_lt, ?Z.ltb_ge; try lia.
    apply IH.
Qed.

(** The squared distance dominates the squared difference on any axis. *)
Lemma sum_of_squares__axis (rest I : nat) (x v : point) :
  (0 <= detail.sum_of_squares_ rest I x v)%Z /\
  (forall a, I <= a <= I + rest ->
     ((get a v - get a x) ^ 2 <= detail.sum_of_squares_ rest I x v)%Z).
Proof.
  revert I. induction rest as [|rest IH]; intros I; simpl;
    unfold detail.diff_nth, scalar_diff.
  - split; [nia|]. intros a Ha. replace a with I by lia. lia.
  - destruct (IH (I + 1)) as [H0 H1]. split; [nia|].
    intros a Ha. destruct (Nat.eq_dec a I) as [->|Hne]; [nia|].
    specialize (H1 a ltac:(lia)). nia.
Qed.

Lemma sum_of_squares_axis (a : nat) (x v : point) :
  a < D ->
  ((get a v - get a x) ^ 2 <= detail.sum_of_squares D x v)%Z.
Proof.
  intros Ha. unfold detail.sum_of_squares.
  apply sum_of_squares__axis. lia.
Qed.

(** Across the splitting plane nothing is closer than the plane: when the
    probe [v] and the element [x] lie on opposite sides of the pivot's
    [I]-th coordinate, [x] is at least as far as [dist_nth<I>]. *)
Lemma across_plane (I : nat) (pv x v : point) (m : Z) :
  I < D ->
  ((get I v < get I pv /\ get I pv <= get I x) \/
   (get I pv <= get I v /\ get I x <= get I pv))%Z ->
  dbl_ltb (detail.dist_nth I v pv) (Sqrt m) = false ->
  (m <= detail.sum_of_squares D x v)%Z.
Proof.
  intros HI Hside Hd.
  unfold detail.dist_nth, scalar_dist, scalar_diff, dbl_ltb in Hd.
  apply Z.ltb_ge in Hd.
  pose proof (sum_of_squares_axis I x v HI). nia.
Qed.

End ComparatorFacts.

(** ** Reading the array *)

Section ArrayFacts.

Variable D : nat.
Variable stray : nat -> outcome point.
Variable A : list point.

Local Abbreviation deref := (detail.deref stray A).
Local Abbreviation find_pivot := (detail.find_pivot stray A).
Local Abbreviation next_dim := (detail.next_dim D).
Local Abbreviation kd_less := (detail.kd_less D).
Local Abbreviation elt := (elt A).
Local Abbreviation kd_tree := (kd_tree D stray A).

Lemma deref_in (it : nat) : it < length A -> deref it = Done (elt it).
Proof.
  intros H. unfold detail.deref, elt.
  rewrite (nth_error_nth' A [] H). reflexivity.
Qed.

Lemma is_hit_in (it last : nat) (pred : point -> bool) :
  it <= last -> last <= length A ->
  detail.is_hit stray A it last pred =
  Done (negb (it =? last) && pred (elt it)).
Proof.
  intros Hil Hl. unfold detail.is_hit.
  destruct (Nat.eqb_spec it last) as [E|E]; [reflexivity|].
  rewrite deref_in by lia. reflexivity.
Qed.

(** The bisection ends between a probed element that satisfies [pred] and
    a probed element that does not, whatever the order of the range. *)
Lemma partition_point__spec (fuel : nat) (pred : point -> bool) :
  forall first len, len <= fuel -> first + len <= length A ->
  exists r,
    detail.partition_point_ stray A fuel pred first len = Done r /\
    first <= r <= first + len /\
    (r = first \/ pred (elt (r - 1)) = true) /\
    (r = first + len \/ pred (elt r) = false).
Proof.
  induction fuel as [|fuel IH]; intros first len Hf Hl.
  - assert (len = 0) by lia. subst len. exists first. simpl.
    repeat split; auto; lia.
  - destruct len as [|n]; [exists first; simpl; repeat split; auto; lia|].
    cbn [detail.partition_point_].
    set (half := S n / 2).
    assert (Hh : half <= n).
    { unfold half. pose proof (Nat.Div0.div_lt_upper_bound (S n) 2 (S n)). lia. }
    rewrite deref_in by lia. cbn [bind].
    destruct (pred (elt (first + half))) eqn:Ep.
    + destruct (IH (first + half + 1) (S n - half - 1)) as (r & Hr & Hb & Hlo & Hhi);
        [lia|lia|].
      exists r. split; [exact Hr|]. split; [lia|]. split.
      * right. destruct Hlo as [->|Hlo]; [|exact Hlo].
        replace (first + half + 1 - 1) with (first + half) by lia. exact Ep.
      * destruct Hhi as [->|Hhi]; [left; lia|right; exact Hhi].
    + destruct (IH first half) as (r & Hr & Hb & Hlo & Hhi); [lia|lia|].
      exists r. split; [exact Hr|]. split; [lia|]. split; [exact Hlo|].
      right. destruct Hhi as [->|Hhi]; [exact Ep|exact Hhi].
Qed.

Lemma middle_of_bounds (first last : nat) :
  first < last -> first <= middle_of first last < last.
Proof.
  intros H. unfold middle_of.
  pose proof (Nat.Div0.div_lt_upper_bound (last - first) 2 (last - first)).
  lia.
Qed.

Lemma middle_of_gt (first last : nat) :
  1 < last - first -> first < middle_of first last.
Proof.
  intros H. unfold middle_of.
  pose proof (Nat.div_le_lower_bound (last - first) 2 1). lia.
Qed.

(** [find_pivot<I>] on a range inside the array: the result is at or
    before the middle, holds the same [I]-th coordinate as the middle, and
    follows an element of smaller [I]-th coordinate unless it is [first]. *)
Lemma find_pivot_spec (I first last : nat) :
  first < last -> last <= length A ->
  exists p,
    find_pivot I first last = Done p /\
    first <= p <= middle_of first last /\
    (p = first \/ (get I (elt (p - 1)) < get I (elt (middle_of first last)))%Z) /\
    (get I (elt (middle_of first last)) <= get I (elt p))%Z.
Proof.
  intros Hlt Hlen. pose proof (middle_of_bounds first last Hlt) as Hm.
  unfold detail.find_pivot. rewrite deref_in by lia. cbn [bind].
  unfold detail.partition_point.
  destruct (partition_point__spec (middle_of first last - first)
              (fun x => detail.less_nth I x (elt (middle_of first last)))
              first (middle_of first last - first))
    as (r & Hr & Hb & Hlo & Hhi); [lia|lia|].
  exists r. split; [exact Hr|]. split; [lia|]. split.
  - destruct Hlo as [Hlo|Hlo]; [left; exact Hlo|right].
    unfold detail.less_nth in Hlo. now apply Z.ltb_lt in Hlo.
  - destruct Hhi as [Hhi|Hhi].
    + replace r with (middle_of first last) by lia. lia.
    + unfold detail.less_nth in Hhi. now apply Z.ltb_ge in Hhi.
Qed.

Lemma find_if_not_spec (pred : point -> bool) (n : nat) :
  forall first, first + n <= length A ->
  exists q,
    detail.find_if_not stray A n first pred = Done q /\
    first <= q <= first + n /\
    (forall i, first <= i < q -> pred (elt i) = true) /\
    (q = first + n \/ pred (elt q) = false).
Proof.
  induction n as [|n IH]; intros first Hl; simpl.
  - exists first. repeat split; auto; intros; lia.
  - rewrite deref_in by lia. cbn [bind].
    destruct (pred (elt first)) eqn:Ep.
    + destruct (IH (S first)) as (q & Hq & Hb & Hall & Hend); [lia|].
      exists q. split; [exact Hq|]. split; [lia|]. split.
      * intros i Hi. destruct (Nat.eq_dec i first) as [->|Hne]; [exact Ep|].
        apply Hall. lia.
      * destruct Hend as [->|Hend]; [left; lia|right; exact Hend].
    + exists first. repeat split; auto; intros; lia.
Qed.

Lemma none_of_spec (pred : point -> bool) (n : nat) :
  forall first, first + n <= length A ->
  exists b,
    detail.none_of stray A n first pred = Done b /\
    (b = true -> forall i, first <= i < first + n -> pred (elt i) = false).
Proof.
  induction n as [|n IH]; intros first Hl; simpl.
  - exists true. split; [reflexivity|]. intros; lia.
  - rewrite deref_in by lia. cbn [bind].
    destruct (pred (elt first)) eqn:Ep.
    + exists false. split; [reflexivity|]. discriminate.
    + destruct (IH (S first)) as (b & Hb & Hall); [lia|].
      exists b. split; [exact Hb|]. intros Ht i Hi.
      destruct (Nat.eq_dec i first) as [->|Hne]; [exact Ep|].
      apply Hall; [exact Ht|lia].
Qed.

(** [is_partitioned] accepts a range only if it splits at some [q] into
    elements that satisfy [pred] and elements that do not. *)
Lemma is_partitioned_true (pred : point -> bool) (first last : nat) :
  first <= last -> last <= length A ->
  detail.is_partitioned stray A first last pred = Done true ->
  exists q, first <= q <= last /\
    (forall i, first <= i < q -> pred (elt i) = true) /\
    (forall i, q <= i < last -> pred (elt i) = false).
Proof.
  intros Hfl Hl. unfold detail.is_partitioned.
  destruct (find_if_not_spec pred (last - first) first)
    as (q & Hq & Hb & Hall & Hend); [lia|].
  rewrite Hq. cbn [bind].
  destruct (Nat.eqb_spec q last) as [->|Hne].
  - intros _. exists last. split; [lia|]. split; [exact Hall|]. intros; lia.
  - destruct (none_of_spec pred (last - S q) (S q)) as (b & Hb' & Hnone); [lia|].
    rewrite Hb'. intros Heq. injection Heq as ->.
    exists q. split; [lia|]. split; [exact Hall|].
    intros i Hi. destruct (Nat.eq_dec i q) as [->|Hiq].
    + destruct Hend as [Hend|Hend]; [lia|exact Hend].
    + apply Hnone; [reflexivity|lia].
Qed.

Lemma kd_is_sorted_tree (fuel : nat) :
  forall I first last, last <= length A ->
  detail.kd_is_sorted D stray A fuel I first last = Done true ->
  kd_tree I first last.
Proof.
  induction fuel as [|fuel IH]; intros I first last Hl; cbn [detail.kd_is_sorted].
  - destruct (Nat.ltb_spec (last - first) 2) as [Hs|Hs].
    + intros _. now apply kd_tree_leaf.
    + discriminate.
  - destruct (Nat.ltb_spec (last - first) 2) as [Hs|Hs].
    + intros _. now apply kd_tree_leaf.
    + destruct (find_pivot_spec I first last) as (p & Hp & Hb & Hlo & Hhi);
        [lia|exact Hl|].
      pose proof (middle_of_bounds first last ltac:(lia)) as Hm.
      rewrite Hp. cbn [bind]. unfold detail.check_partition.
      rewrite deref_in by lia. cbn [bind].
      destruct (detail.is_partitioned stray A first last
                  (fun x => kd_less I x (elt p))) as [ok| |] eqn:Eok;
        cbn [bind]; try discriminate.
      destruct ok; [|discriminate].
      apply is_partitioned_true in Eok; [|lia|exact Hl].
      destruct Eok as (q & Hq & Htrue & Hfalse).
      destruct (detail.kd_is_sorted D stray A fuel (next_dim I) first p)
        as [okl| |] eqn:El; cbn [bind]; try discriminate.
      destruct okl; [|discriminate].
      intros Er.
      assert (Hirr : kd_less I (elt p) (elt p) = false).
      { unfold detail.kd_less.
        generalize (D - 1) I. intros rest. induction rest as [|rest IHr]; intros J; simpl.
        - apply Z.ltb_irrefl.
        - rewrite Z.eqb_refl. apply IHr. }
      assert (Hqp : q = p).
      { assert (q <= p).
        { destruct (Nat.le_gt_cases q p) as [Hle|Hgt]; [exact Hle|].
          rewrite (Htrue p) in Hirr by lia. discriminate. }
        destruct Hlo as [->|Hlo]; [lia|].
        assert (Hk : kd_less I (elt (p - 1)) (elt p) = true).
        { apply kd_less_lt_axis. lia. }
        destruct (Nat.le_gt_cases q (p - 1)) as [Hle|Hgt]; [|lia].
        rewrite (Hfalse (p - 1)) in Hk by lia. discriminate. }
      subst q.
      apply kd_tree_node with (pivot := p).
      * lia.
      * exact Hp.
      * lia.
      * exact Htrue.
      * exact Hfalse.
      * apply IH; [lia|exact El].
      * apply IH; [exact Hl|exact Er].
Qed.

End ArrayFacts.

(** ** [kd_lower_bound] and [kd_upper_bound] *)

Section BoundFacts.

Variable D : nat.
Hypothesis HD : 0 < D.

(** A stray read yields [g]. *)
Variable g : point.
Variable A : list point.

Local Abbreviation stray := (yields g).
Local Abbreviation deref := (detail.deref stray A).
Local Abbreviation next_dim := (detail.next_dim D).
Local Abbreviation kd_less := (detail.kd_less D).
Local Abbreviation all_less := (detail.all_less D).
Local Abbreviation none_less := (detail.none_less D).
Local Abbreviation el := (elt A).
Local Abbreviation kd_tree := (kd_tree D stray A).

Lemma deref_yields (it : nat) : deref it = Done (nth it A g).
Proof.
  unfold detail.deref, yields.
  destruct (nth_error A it) eqn:E.
  - now rewrite (nth_error_nth A it g E).
  - apply nth_error_None in E. now rewrite nth_overflow.
Qed.

(** [kd_lower_bound] returns the first iterator of the range whose element
    is componentwise at least [value], and [last] when there is none. *)
Lemma kd_lower_bound_spec (value : point) (I first last : nat) :
  kd_tree I first last -> I < D -> first <= last -> last <= length A ->
  forall fuel, last - first <= fuel ->
  exists r,
    detail.kd_lower_bound D stray A fuel I first last value = Done r /\
    first <= r <= last /\
    (r < last -> none_less (el r) value = true) /\
    (forall j, first <= j < r -> none_less (el j) value = false).
Proof.
  intros T. induction T as
    [I first last Hs
    |I first last p Hs Hp Hb Hlo Hhi Tl IHl Tr IHr];
    intros HI Hfl Hl fuel Hfuel.
  - (* at most one element *)
    assert (E : (1 <? last - first) = false) by (apply Nat.ltb_ge; lia).
    destruct fuel; cbn [detail.kd_lower_bound]; rewrite E.
    all: rewrite deref_yields; cbn [bind].
    all: destruct (Nat.eq_dec first last) as [->|Hne];
      [ exists last; split;
        [ now destruct (none_less (nth last A g) value) | ];
        split; [lia|]; split; intros; lia
      | ].
    all: replace (nth first A g) with (el first)
      by (unfold elt; apply nth_indep; lia).
    all: destruct (none_less (el first) value) eqn:En.
    all: try (exists first; split; [reflexivity|]; split; [lia|];
              split; [intros _; exact En|intros; lia]).
    all: exists last; split; [reflexivity|]; split; [lia|];
      split; [intros; lia|];
      intros j Hj; replace j with first by lia; exact En.
  - (* a pivot and two subranges *)
    destruct fuel as [|fuel]; [lia|].
    cbn [detail.kd_lower_bound].
    assert (E : (1 <? last - first) = true) by (apply Nat.ltb_lt; lia).
    rewrite E, Hp. cbn [bind]. rewrite deref_in by lia. cbn [bind].
    pose proof (next_dim_lt D I HD) as HJ.
    destruct (IHl HJ) with (fuel := fuel) as (rl & Erl & Hrl & Hsl & Hml);
      [lia|lia|lia|].
    destruct (IHr HJ) with (fuel := fuel) as (rr & Err & Hrr & Hsr & Hmr);
      [lia|lia|lia|].
    assert (Hleft : all_less (el p) value = true ->
                    forall j, first <= j < p -> none_less (el j) value = false).
    { intros Ha j Hj. rewrite all_less_spec in Ha by exact HD.
      specialize (Ha I HI). specialize (Hlo j Hj).
      apply kd_less_true_axis in Hlo.
      destruct (none_less (el j) value) eqn:En; [|reflexivity].
      rewrite none_less_spec in En by exact HD. specialize (En I HI). lia. }
    destruct (none_less (el p) value) eqn:Enp.
    + exists rl. split; [exact Erl|]. split; [lia|]. split; [|exact Hml].
      intros _. destruct (Nat.eq_dec rl p) as [->|Hne]; [exact Enp|].
      apply Hsl. lia.
    + destruct (all_less (el p) value) eqn:Eap.
      * exists rr. split; [exact Err|]. split; [lia|]. split; [exact Hsr|].
        intros j Hj. destruct (Nat.lt_trichotomy j p) as [Hjp|[->|Hjp]].
        -- apply Hleft; [reflexivity|lia].
        -- exact Enp.
        -- apply Hmr. lia.
      * rewrite Erl. cbn [bind]. rewrite is_hit_in by lia. cbn [bind].
        assert (Enl : (rl =? last) = false) by (apply Nat.eqb_neq; lia).
        rewrite Enl. cbn [negb andb].
        destruct (none_less (el rl) value) eqn:Ehl.
        -- exists rl. split; [reflexivity|]. split; [lia|].
           split; [intros _; exact Ehl|exact Hml].
        -- assert (rl = p).
           { destruct (Nat.eq_dec rl p) as [e|Hne]; [exact e|].
             specialize (Hsl ltac:(lia)). discriminate. }
           subst rl. rewrite Err. cbn [bind]. rewrite is_hit_in by lia.
           cbn [bind].
           assert (Hrest : forall j, first <= j < rr ->
                                     none_less (el j) value = false).
           { intros j Hj. destruct (Nat.lt_trichotomy j p) as [Hjp|[->|Hjp]].
             - apply Hml. lia.
             - exact Enp.
             - apply Hmr. lia. }
           destruct (Nat.eqb_spec rr last) as [->|Hne]; cbn [negb andb].
           ++ exists last. split; [reflexivity|]. split; [lia|].
              split; [intros; lia|exact Hrest].
           ++ rewrite Hsr by lia.
              exists rr. split; [reflexivity|]. split; [lia|].
              split; [intros _; apply Hsr; lia|exact Hrest].
Qed.

(** [kd_upper_bound] returns the first iterator of the range whose element
    is greater than [value] on every axis, and [last] when there is none. *)
Lemma kd_upper_bound_spec (value : point) (I first last : nat) :
  kd_tree I first last -> I < D -> first <= last -> last <= length A ->
  forall fuel, last - first <= fuel ->
  exists r,
    detail.kd_upper_bound D stray A fuel I first last value = Done r /\
    first <= r <= last /\
    (r < last -> all_less value (el r) = true) /\
    (forall j, first <= j < r -> all_less value (el j) = false).
Proof.
  intros T. induction T as
    [I first last Hs
    |I first last p Hs Hp Hb Hlo Hhi Tl IHl Tr IHr];
    intros HI Hfl Hl fuel Hfuel.
  - (* at most one element *)
    assert (E : (1 <? last - first) = false) by (apply Nat.ltb_ge; lia).
    destruct fuel; cbn [detail.kd_upper_bound]; rewrite E.
    all: rewrite deref_yields; cbn [bind].
    all: destruct (Nat.eq_dec first last) as [->|Hne];
      [ exists last; split;
        [ now destruct (all_less value (nth last A g)) | ];
        split; [lia|]; split; intros; lia
      | ].
    all: replace (nth first A g) with (el first)
      by (unfold elt; apply nth_indep; lia).
    all: destruct (all_less value (el first)) eqn:En.
    all: try (exists first; split; [reflexivity|]; split; [lia|];
              split; [intros _; exact En|intros; lia]).
    all: exists last; split; [reflexivity|]; split; [lia|];
      split; [intros; lia|];
      intros j Hj; replace j with first by lia; exact En.
  - (* a pivot and two subranges *)
    destruct fuel as [|fuel]; [lia|].
    cbn [detail.kd_upper_bound].
    assert (E : (1 <? last - first) = true) by (apply Nat.ltb_lt; lia).
    rewrite E, Hp. cbn [bind]. rewrite deref_in by lia. cbn [bind].
    pose proof (next_dim_lt D I HD) as HJ.
    destruct (IHl HJ) with (fuel := fuel) as (rl & Erl & Hrl & Hsl & Hml);
      [lia|lia|lia|].
    destruct (IHr HJ) with (fuel := fuel) as (rr & Err & Hrr & Hsr & Hmr);
      [lia|lia|lia|].
    assert (Hleft : none_less value (el p) = true ->
                    forall j, first <= j < p -> all_less value (el j) = false).
    { intros Ha j Hj. rewrite none_less_spec in Ha by exact HD.
      specialize (Ha I HI). specialize (Hlo j Hj).
      apply kd_less_true_axis in Hlo.
      destruct (all_less value (el j)) eqn:En; [|reflexivity].
      rewrite all_less_spec in En by exact HD. specialize (En I HI). lia. }
    destruct (all_less value (el p)) eqn:Enp.
    + exists rl. split; [exact Erl|]. split; [lia|]. split; [|exact Hml].
      intros _. destruct (Nat.eq_dec rl p) as [->|Hne]; [exact Enp|].
      apply Hsl. lia.
    + destruct (none_less value (el p)) eqn:Eap.
      * exists rr. split; [exact Err|]. split; [lia|]. split; [exact Hsr|].
        intros j Hj. destruct (Nat.lt_trichotomy j p) as [Hjp|[->|Hjp]].
        -- apply Hleft; [reflexivity|lia].
        -- exact Enp.
        -- apply Hmr. lia.
      * rewrite Erl. cbn [bind]. rewrite is_hit_in by lia. cbn [bind].
        assert (Enl : (rl =? last) = false) by (apply Nat.eqb_neq; lia).
        rewrite Enl. cbn [negb andb].
        destruct (all_less value (el rl)) eqn:Ehl.
        -- exists rl. split; [reflexivity|]. split; [lia|].
           split; [intros _; exact Ehl|exact Hml].
        -- assert (rl = p).
           { destruct (Nat.eq_dec rl p) as [e|Hne]; [exact e|].
             specialize (Hsl ltac:(lia)). discriminate. }
           subst rl. rewrite Err. cbn [bind]. rewrite is_hit_in by lia.
           cbn [bind].
           assert (Hrest : forall j, first <= j < rr ->
                                     all_less value (el j) = false).
           { intros j Hj. destruct (Nat.lt_trichotomy j p) as [Hjp|[->|Hjp]].
             - apply Hml. lia.
             - exact Enp.
             - apply Hmr. lia. }
           destruct (Nat.eqb_spec rr last) as [->|Hne]; cbn [negb andb].
           ++ exists last. split; [reflexivity|]. split; [lia|].
              split; [intros; lia|exact Hrest].
           ++ rewrite Hsr by lia.
              exists rr. split; [reflexivity|]. split; [lia|].
              split; [intros _; apply Hsr; lia|exact Hrest].
Qed.

(** Array order follows the tree: of two elements of a kd-sorted range,
    the later one is not [kd_less] than the earlier one on the axis of the
    level that separates them. *)
Lemma kd_tree_order (I first last : nat) :
  kd_tree I first last -> I < D ->
  forall i j, first <= i -> i < j -> j < last ->
  exists K, K < D /\ kd_less K (el j) (el i) = false.
Proof.
  intros T. induction T as
    [I first last Hs
    |I first last p Hs Hp Hb Hlo Hhi Tl IHl Tr IHr];
    intros HI i j Hi Hij Hj.
  - lia.
  - pose proof (next_dim_lt D I HD) as HJ.
    destruct (Nat.lt_ge_cases j p) as [Hjp|Hjp].
    + apply (IHl HJ i j); lia.
    + destruct (Nat.lt_trichotomy i p) as [Hip|[->|Hip]].
      * exists I. split; [exact HI|].
        apply kd_less_asym.
        apply kd_less_lt_le_trans with (p := el p); [apply Hlo|apply Hhi]; lia.
      * exists I. split; [exact HI|]. apply Hhi. lia.
      * apply (IHr HJ i j); lia.
Qed.

(** On a kd-sorted array, every element equal to [value] on all axes lies
    in the span from [kd_lower_bound] to [kd_upper_bound], and
    [kd_lower_bound] stops at one of them if there is any. *)
Lemma bounds_enclose (value : point) :
  kd_tree 0 0 (length A) ->
  exists lb ub,
    detail.kd_lower_bound D stray A (length A - 0) 0 0 (length A) value
      = Done lb /\
    detail.kd_upper_bound D stray A (length A - 0) 0 0 (length A) value
      = Done ub /\
    lb <= length A /\ ub <= length A /\
    (lb < length A -> none_less (el lb) value = true) /\
    (forall j, j < length A ->
       none_less value (el j) = true -> none_less (el j) value = true ->
       lb <= j < ub /\ none_less value (el lb) = true).
Proof.
  intros T.
  destruct (kd_lower_bound_spec value 0 0 (length A) T HD (Nat.le_0_l _) (Nat.le_refl _)
              (length A - 0) (Nat.le_refl _))
    as (lb & Elb & Hlb & Hslb & Hmlb).
  destruct (kd_upper_bound_spec value 0 0 (length A) T HD (Nat.le_0_l _) (Nat.le_refl _)
              (length A - 0) (Nat.le_refl _))
    as (ub & Eub & Hub & Hsub & Hmub).
  exists lb, ub. split; [exact Elb|]. split; [exact Eub|].
  split; [lia|]. split; [lia|]. split; [exact Hslb|].
  intros j Hj Hvj Hjv.
  assert (Hlj : lb <= j).
  { destruct (Nat.le_gt_cases lb j) as [H|H]; [exact H|].
    rewrite Hmlb in Hjv by lia. discriminate. }
  rewrite none_less_spec in Hvj, Hjv by exact HD.
  split; [split; [exact Hlj|]|].
  - destruct (Nat.lt_ge_cases j ub) as [H|H]; [exact H|exfalso].
    assert (Hu : all_less value (el ub) = true) by (apply Hsub; lia).
    rewrite all_less_spec in Hu by exact HD.
    assert (ub <> j).
    { intros ->. specialize (Hu 0 HD). specialize (Hvj 0 HD). lia. }
    destruct (kd_tree_order 0 0 (length A) T HD ub j) as (K & HK & Hk);
      [lia|lia|lia|].
    unfold detail.kd_less in Hk.
    rewrite kd_less_lt_axis in Hk; [discriminate|].
    specialize (Hu K HK). specialize (Hvj K HK). lia.
  - destruct (Nat.eq_dec lb j) as [->|Hne].
    + rewrite none_less_spec by exact HD. exact Hvj.
    + assert (Hl : none_less (el lb) value = true) by (apply Hslb; lia).
      destruct (kd_tree_order 0 0 (length A) T HD lb j) as (K & HK & Hk);
        [lia|lia|lia|].
      assert (Hlj' : none_less (el lb) (el j) = true).
      { rewrite none_less_spec in * by exact HD. intros a Ha.
        specialize (Hl a Ha). specialize (Hvj a Ha). lia. }
      pose proof (none_less_kd_less_equal D K (el lb) (el j) HD HK Hlj' Hk) as He.
      rewrite none_less_spec in * by exact HD. intros a Ha.
      specialize (He a Ha). specialize (Hvj a Ha). lia.
Qed.

End BoundFacts.

(** ** The bound searches on a partitioned array *)

Lemma StronglySorted_mid (R : point -> point -> Prop)
    (lo : list point) (x : point) (hi : list point) :
  StronglySorted R lo -> StronglySorted R hi ->
  (forall y, In y lo -> R y x) ->
  (forall z, In z hi -> R x z) ->
  (forall y z, In y lo -> In z hi -> R y z) ->
  StronglySorted R (lo ++ x :: hi).
Proof.
  intros Hlo Hhi Hl Hh Hlh.
  induction Hlo as [|a lo Hlo IH Ha]; cbn [app].
  - constructor; [exact Hhi|]. apply Forall_forall. exact Hh.
  - constructor.
    + apply IH.
      * intros y Hy. apply Hl. now right.
      * intros y z Hy Hz. apply Hlh; [now right|exact Hz].
    + apply Forall_forall. intros z Hz.
      apply in_app_or in Hz. destruct Hz as [Hz|[<-|Hz]].
      * rewrite Forall_forall in Ha. now apply Ha.
      * apply Hl. now left.
      * apply Hlh; [now left|exact Hz].
Qed.

Lemma StronglySorted_elt (R : point -> point -> Prop) (A : list point) :
  StronglySorted R A ->
  forall i j, i < j -> j < length A -> R (elt A i) (elt A j).
Proof.
  unfold elt. intros Hs.
  induction Hs as [|h t Ht IH Hh]; intros i j Hij Hj.
  - cbn in Hj. lia.
  - destruct j as [|j]; [lia|]. cbn [length] in Hj.
    destruct i as [|i]; cbn [nth].
    + rewrite Forall_forall in Hh. apply Hh. apply nth_In. lia.
    + apply IH; lia.
Qed.

(** In a partitioned array every element may follow those before it: on
    the axis of the level that separates the two it is not [kd_less] than
    the earlier one. *)
Lemma kd_partitioned_sorted (D I : nat) (l : list point) :
  kd_partitioned D I l -> I < D -> StronglySorted (may_precede D) l.
Proof.
  induction 1 as [I l Hlen|I lo x hi Hlo Hhi Plo IHlo Phi IHhi]; intros HI.
  - destruct l as [|a [|b l]]; [constructor| |cbn in Hlen; lia].
    constructor; constructor.
  - assert (HJ : detail.next_dim D I < D) by (apply next_dim_lt; lia).
    apply StronglySorted_mid; auto.
    + intros y Hy. exists I. split; [exact HI|].
      unfold detail.kd_less. apply kd_less_asym. now apply Hlo.
    + intros z Hz. exists I. split; [exact HI|]. now apply Hhi.
    + intros y z Hy Hz. exists I. split; [exact HI|].
      unfold detail.kd_less. apply kd_less_asym.
      apply (kd_less_lt_le_trans D (D - 1) I y x z).
      * now apply Hlo.
      * now apply Hhi.
Qed.

Section OrderedBoundFacts.

Variable D : nat.
Hypothesis HD : 0 < D.
Variable g : point.
Variable A : list point.
Hypothesis Hord : forall i j, i < j -> j < length A ->
  may_precede D (elt A i) (elt A j).

Local Abbreviation stray := (yields g).
Local Abbreviation all_less := (detail.all_less D).
Local Abbreviation none_less := (detail.none_less D).
Local Abbreviation el := (elt A).

(** An element greater on every axis does not come first. *)
Lemma no_descent (i j : nat) :
  i < j -> j < length A -> all_less (el j) (el i) = false.
Proof.
  intros Hij Hj. destruct (Hord i j Hij Hj) as (K & HK & Hk).
  destruct (all_less (el j) (el i)) eqn:E; [exfalso|reflexivity].
  rewrite all_less_spec in E by exact HD.
  unfold detail.kd_less in Hk.
  rewrite kd_less_lt_axis in Hk; [discriminate|]. now apply E.
Qed.

(** Whatever pivot [find_pivot] returns, [kd_lower_bound] returns the
    first iterator of the range whose element is componentwise at least
    [value], and [last] when there is none. *)
Lemma kd_lower_bound_first (value : point) (fuel : nat) :
  forall I first last, last - first <= fuel ->
  first <= last -> last <= length A ->
  exists r,
    detail.kd_lower_bound D stray A fuel I first last value = Done r /\
    first <= r <= last /\
    (r < last -> none_less (el r) value = true) /\
    (forall j, first <= j < r -> none_less (el j) value = false).
Proof.
  assert (Hsmall : forall fuel I first last,
            last - first <= 1 -> first <= last -> last <= length A ->
            exists r,
              detail.kd_lower_bound D stray A fuel I first last value
                = Done r /\
              first <= r <= last /\
              (r < last -> none_less (el r) value = true) /\
              (forall j, first <= j < r -> none_less (el j) value = false)).
  { intros fl I first last Hs Hfl Hl.
    assert (E : (1 <? last - first) = false) by (apply Nat.ltb_ge; lia).
    destruct fl; cbn [detail.kd_lower_bound]; rewrite E.
    all: rewrite deref_yields; cbn [bind].
    all: destruct (Nat.eq_dec first last) as [->|Hne];
      [ exists last; split;
        [ now destruct (none_less (nth last A g) value) | ];
        split; [lia|]; split; intros; lia
      | ].
    all: replace (nth first A g) with (el first)
      by (unfold elt; apply nth_indep; lia).
    all: destruct (none_less (el first) value) eqn:En.
    all: try (exists first; split; [reflexivity|]; split; [lia|];
              split; [intros _; exact En|intros; lia]).
    all: exists last; split; [reflexivity|]; split; [lia|];
      split; [intros; lia|];
      intros j Hj; replace j with first by lia; exact En. }
  induction fuel as [|fuel IH]; intros I first last Hf Hfl Hl;
    [apply Hsmall; lia|].
  destruct (Nat.le_gt_cases (last - first) 1) as [Hs|Hs];
    [now apply Hsmall|].
  cbn [detail.kd_lower_bound].
  assert (E : (1 <? last - first) = true) by (apply Nat.ltb_lt; lia).
  destruct (find_pivot_spec stray A I first last) as (p & Hp & Hb & _ & _);
    [lia|exact Hl|].
  pose proof (middle_of_bounds first last ltac:(lia)) as Hm.
  rewrite E, Hp. cbn [bind]. rewrite deref_in by lia. cbn [bind].
  destruct (IH (detail.next_dim D I) first p)
    as (rl & Erl & Hrl & Hsl & Hml); [lia|lia|lia|].
  destruct (IH (detail.next_dim D I) (S p) last)
    as (rr & Err & Hrr & Hsr & Hmr); [lia|lia|lia|].
  assert (Hleft : all_less (el p) value = true ->
                  forall j, first <= j < p -> none_less (el j) value = false).
  { intros Ha j Hj.
    destruct (none_less (el j) value) eqn:En; [exfalso|reflexivity].
    pose proof (no_descent j p ltac:(lia) ltac:(lia)) as Hno.
    rewrite all_less_spec in Ha by exact HD.
    rewrite none_less_spec in En by exact HD.
    assert (Hc : all_less (el p) (el j) = true).
    { apply all_less_spec; [exact HD|]. intros a Ha'.
      specialize (Ha a Ha'). specialize (En a Ha'). lia. }
    congruence. }
  destruct (none_less (el p) value) eqn:Enp.
  + exists rl. split; [exact Erl|]. split; [lia|]. split; [|exact Hml].
    intros _. destruct (Nat.eq_dec rl p) as [->|Hne]; [exact Enp|].
    apply Hsl. lia.
  + destruct (all_less (el p) value) eqn:Eap.
    * exists rr. split; [exact Err|]. split; [lia|]. split; [exact Hsr|].
      intros j Hj. destruct (Nat.lt_trichotomy j p) as [Hjp|[->|Hjp]].
      -- apply Hleft; [reflexivity|lia].
      -- exact Enp.
      -- apply Hmr. lia.
    * rewrite Erl. cbn [bind]. rewrite is_hit_in by lia. cbn [bind].
      assert (Enl : (rl =? last) = false) by (apply Nat.eqb_neq; lia).
      rewrite Enl. cbn [negb andb].
      destruct (none_less (el rl) value) eqn:Ehl.
      -- exists rl. split; [reflexivity|]. split; [lia|].
         split; [intros _; exact Ehl|exact Hml].
      -- assert (rl = p).
         { destruct (Nat.eq_dec rl p) as [e|Hne]; [exact e|].
           specialize (Hsl ltac:(lia)). discriminate. }
         subst rl. rewrite Err. cbn [bind]. rewrite is_hit_in by lia.
         cbn [bind].
         assert (Hrest : forall j, first <= j < rr ->
                                   none_less (el j) value = false).
         { intros j Hj. destruct (Nat.lt_trichotomy j p) as [Hjp|[->|Hjp]].
           - apply Hml. lia.
           - exact Enp.
           - apply Hmr. lia. }
         destruct (Nat.eqb_spec rr last) as [->|Hne]; cbn [negb andb].
         ++ exists last. split; [reflexivity|]. split; [lia|].
            split; [intros; lia|exact Hrest].
         ++ rewrite Hsr by lia.
            exists rr. split; [reflexivity|]. split; [lia|].
            split; [intros _; apply Hsr; lia|exact Hrest].
Qed.

(** Likewise [kd_upper_bound] returns the first iterator of the range
    whose element is greater than [value] on every axis. *)
Lemma kd_upper_bound_first (value : point) (fuel : nat) :
  forall I first last, last - first <= fuel ->
  first <= last -> last <= length A ->
  exists r,
    detail.kd_upper_bound D stray A fuel I first last value = Done r /\
    first <= r <= last /\
    (r < last -> all_less value (el r) = true) /\
    (forall j, first <= j < r -> all_less value (el j) = false).
Proof.
  assert (Hsmall : forall fuel I first last,
            last - first <= 1 -> first <= last -> last <= length A ->
            exists r,
              detail.kd_upper_bound D stray A fuel I first last value
                = Done r /\
              first <= r <= last /\
              (r < last -> all_less value (el r) = true) /\
              (forall j, first <= j < r -> all_less value (el j) = false)).
  { intros fl I first last Hs Hfl Hl.
    assert (E : (1 <? last - first) = false) by (apply Nat.ltb_ge; lia).
    destruct fl; cbn [detail.kd_upper_bound]; rewrite E.
    all: rewrite deref_yields; cbn [bind].
    all: destruct (Nat.eq_dec first last) as [->|Hne];
      [ exists last; split;
        [ now destruct (all_less value (nth last A g)) | ];
        split; [lia|]; split; intros; lia
      | ].
    all: replace (nth first A g) with (el first)
      by (unfold elt; apply nth_indep; lia).
    all: destruct (all_less value (el first)) eqn:En.
    all: try (exists first; split; [reflexivity|]; split; [lia|];
              split; [intros _; exact En|intros; lia]).
    all: exists last; split; [reflexivity|]; split; [lia|];
      split; [intros; lia|];
      intros j Hj; replace j with first by lia; exact En. }
  induction fuel as [|fuel IH]; intros I first last Hf Hfl Hl;
    [apply Hsmall; lia|].
  destruct (Nat.le_gt_cases (last - first) 1) as [Hs|Hs];
    [now apply Hsmall|].
  cbn [detail.kd_upper_bound].
  assert (E : (1 <? last - first) = true) by (apply Nat.ltb_lt; lia).
  destruct (find_pivot_spec stray A I first last) as (p & Hp & Hb & _ & _);
    [lia|exact Hl|].
  pose proof (middle_of_bounds first last ltac:(lia)) as Hm.
  rewrite E, Hp. cbn [bind]. rewrite deref_in by lia. cbn [bind].
  destruct (IH (detail.next_dim D I) first p)
    as (rl & Erl & Hrl & Hsl & Hml); [lia|lia|lia|].
  destruct (IH (detail.next_dim D I) (S p) last)
    as (rr & Err & Hrr & Hsr & Hmr); [lia|lia|lia|].
  assert (Hleft : none_less value (el p) = true ->
                  forall j, first <= j < p -> all_less value (el j) = false).
  { intros Ha j Hj.
    destruct (all_less value (el j)) eqn:En; [exfalso|reflexivity].
    pose proof (no_descent j p ltac:(lia) ltac:(lia)) as Hno.
    rewrite none_less_spec in Ha by exact HD.
    rewrite all_less_spec in En by exact HD.
    assert (Hc : all_less (el p) (el j) = true).
    { apply all_less_spec; [exact HD|]. intros a Ha'.
      specialize (Ha a Ha'). specialize (En a Ha'). lia. }
    congruence. }
  destruct (all_less value (el p)) eqn:Enp.
  + exists rl. split; [exact Erl|]. split; [lia|]. split; [|exact Hml].
    intros _. destruct (Nat.eq_dec rl p) as [->|Hne]; [exact Enp|].
    apply Hsl. lia.
  + destruct (none_less value (el p)) eqn:Eap.
    * exists rr. split; [exact Err|]. split; [lia|]. split; [exact Hsr|].
      intros j Hj. destruct (Nat.lt_trichotomy j p) as [Hjp|[->|Hjp]].
      -- apply Hleft; [reflexivity|lia].
      -- exact Enp.
      -- apply Hmr. lia.
    * rewrite Erl. cbn [bind]. rewrite is_hit_in by lia. cbn [bind].
      assert (Enl : (rl =? last) = false) by (apply Nat.eqb_neq; lia).
      rewrite Enl. cbn [negb andb].
      destruct (all_less value (el rl)) eqn:Ehl.
      -- exists rl. split; [reflexivity|]. split; [lia|].
         split; [intros _; exact Ehl|exact Hml].
      -- assert (rl = p).
         { destruct (Nat.eq_dec rl p) as [e|Hne]; [exact e|].
           specialize (Hsl ltac:(lia)). discriminate. }
         subst rl. rewrite Err. cbn [bind]. rewrite is_hit_in by lia.
         cbn [bind].
         assert (Hrest : forall j, first <= j < rr ->
                                   all_less value (el j) = false).
         { intros j Hj. destruct (Nat.lt_trichotomy j p) as [Hjp|[->|Hjp]].
           - apply Hml. lia.
           - exact Enp.
           - apply Hmr. lia. }
         destruct (Nat.eqb_spec rr last) as [->|Hne]; cbn [negb andb].
         ++ exists last. split; [reflexivity|]. split; [lia|].
            split; [intros; lia|exact Hrest].
         ++ rewrite Hsr by lia.
            exists rr. split; [reflexivity|]. split; [lia|].
            split; [intros _; apply Hsr; lia|exact Hrest].
Qed.

(** Every element equal to [value] on all axes lies in the span from
    [kd_lower_bound] to [kd_upper_bound], and [kd_lower_bound] stops at
    one of them if there is any. *)
Lemma bounds_enclose_ordered (value : point) :
  exists lb ub,
    detail.kd_lower_bound D stray A (length A - 0) 0 0 (length A) value
      = Done lb /\
    detail.kd_upper_bound D stray A (length A - 0) 0 0 (length A) value
      = Done ub /\
    lb <= length A /\ ub <= length A /\
    (lb < length A -> none_less (el lb) value = true) /\
    (forall j, j < length A ->
       none_less value (el j) = true -> none_less (el j) value = true ->
       lb <= j < ub /\ none_less value (el lb) = true).
Proof.
  destruct (kd_lower_bound_first value (length A - 0) 0 0 (length A))
    as (lb & Elb & Hlb & Hslb & Hmlb); [lia|lia|lia|].
  destruct (kd_upper_bound_first value (length A - 0) 0 0 (length A))
    as (ub & Eub & Hub & Hsub & Hmub); [lia|lia|lia|].
  exists lb, ub. split; [exact Elb|]. split; [exact Eub|].
  split; [lia|]. split; [lia|]. split; [exact Hslb|].
  intros j Hj Hvj Hjv.
  assert (Hlj : lb <= j).
  { destruct (Nat.le_gt_cases lb j) as [H|H]; [exact H|].
    rewrite Hmlb in Hjv by lia. discriminate. }
  split; [split; [exact Hlj|]|].
  - destruct (Nat.lt_ge_cases j ub) as [H|H]; [exact H|exfalso].
    assert (Hu : all_less value (el ub) = true) by (apply Hsub; lia).
    rewrite all_less_spec in Hu by exact HD.
    rewrite none_less_spec in Hvj by exact HD.
    assert (ub <> j).
    { intros ->. specialize (Hu 0 HD). specialize (Hvj 0 HD). lia. }
    pose proof (no_descent ub j ltac:(lia) Hj) as Hno.
    assert (Hc : all_less (el j) (el ub) = true).
    { apply all_less_spec; [exact HD|]. intros a Ha.
      specialize (Hu a Ha). specialize (Hvj a Ha). lia. }
    congruence.
  - destruct (Nat.eq_dec lb j) as [->|Hne]; [exact Hvj|].
    assert (Hl : none_less (el lb) value = true) by (apply Hslb; lia).
    destruct (Hord lb j ltac:(lia) Hj) as (K & HK & Hk).
    assert (Hlj' : none_less (el lb) (el j) = true).
    { rewrite none_less_spec in * by exact HD. intros a Ha.
      specialize (Hl a Ha). specialize (Hvj a Ha). lia. }
    pose proof (none_less_kd_less_equal D K (el lb) (el j) HD HK Hlj' Hk)
      as He.
    rewrite none_less_spec in * by exact HD. intros a Ha.
    specialize (He a Ha). specialize (Hvj a Ha). lia.
Qed.

End OrderedBoundFacts.

(** C6. On a kd-sorted array, one partitioned level by level under
    [kd_less] of the rotating axis, [kd_binary_search] returns the test
    "[it = kd_lower_bound(A, value)]; [it != last] and
    [none_less(value, *it)]", and this test holds exactly when some
    element [x] of the array has [none_less(value, x)] and
    [none_less(x, value)].  Every array [kd_sort] returns is partitioned
    so, with or without ties on an axis, and so is every array
    [kd_is_sorted] accepts.  A read past the end of the array, which
    [kd_lower_bound] can make, yields an arbitrary point [g]. *)
Theorem kd_binary_search_iff (D : nat) (g : point) (A : list point)
    (value : point) :
  0 < D ->
  kd_partitioned D 0 A ->
  exists it,
    kd_lower_bound D (yields g) A 0 (length A) value = Done it /\
    kd_binary_search D (yields g) A 0 (length A) value =
      Done (negb (it =? length A) && detail.none_less D value (elt A it)) /\
    (negb (it =? length A) && detail.none_less D value (elt A it) = true <->
     exists x, In x A /\
       detail.none_less D value x = true /\
       detail.none_less D x value = true).
Proof.
  intros HD Hs.
  pose proof (StronglySorted_elt _ A (kd_partitioned_sorted D 0 A Hs HD))
    as Hord.
  destruct (bounds_enclose_ordered D HD g A Hord value)
    as (lb & ub & Elb & Eub & Hlb & Hub & Hslb & Henc).
  exists lb. unfold kd_lower_bound, kd_binary_search.
  split; [exact Elb|]. split.
  - rewrite Elb. cbn [bind]. apply is_hit_in; [exact Hlb|apply Nat.le_refl].
  - rewrite andb_true_iff, negb_true_iff, Nat.eqb_neq. split.
    + intros [Hne Hv]. exists (elt A lb). split; [|split].
      * apply nth_In. lia.
      * exact Hv.
      * apply Hslb. lia.
    + intros (x & Hin & Hvx & Hxv).
      destruct (In_nth A x [] Hin) as (j & Hj & Ej).
      fold (elt A j) in Ej. subst x.
      destruct (Henc j Hj Hvx Hxv) as [Hr Hv].
      split; [lia|exact Hv].
Qed.

Lemma kd_binary_search_iff_witness :
  exists it,
    kd_lower_bound 2 (yields []) [[0;0];[0;1];[1;0]]%Z 0 3 [1;0]%Z
      = Done it /\
    kd_binary_search 2 (yields []) [[0;0];[0;1];[1;0]]%Z 0 3 [1;0]%Z =
      Done (negb (it =? 3) &&
            detail.none_less 2 [1;0]%Z (elt [[0;0];[0;1];[1;0]]%Z it)) /\
    (negb (it =? 3) &&
     detail.none_less 2 [1;0]%Z (elt [[0;0];[0;1];[1;0]]%Z it) = true <->
     exists x, In x [[0;0];[0;1];[1;0]]%Z /\
       detail.none_less 2 [1;0]%Z x = true /\
       detail.none_less 2 x [1;0]%Z = true).
Proof.
  apply (kd_binary_search_iff 2 [] [[0;0];[0;1];[1;0]]%Z [1;0]%Z).
  - lia.
  - apply (kd_partitioned_node 2 0 [[0;0]%Z] [0;1]%Z [[1;0]%Z]).
    + intros y [<-|[]]. reflexivity.
    + intros y [<-|[]]. reflexivity.
    + apply kd_partitioned_leaf. simpl. lia.
    + apply kd_partitioned_leaf. simpl. lia.
Defined.

(** ** The builder *)

Section BuildFacts.

Variable D : nat.
Variable nth_element :
  (point -> point -> bool) -> list point -> nat -> list point.
Variable partition : (point -> bool) -> list point -> list point * nat.

(** What the proofs below use of the two standard algorithms: they
    rearrange the range they are given. *)
Hypothesis nth_element_permutes :
  forall pred l nth, nth < length l -> Permutation (nth_element pred l nth) l.
Hypothesis partition_permutes :
  forall pred l, Permutation (fst (partition pred l)) l.

Lemma adjust_pivot_perm (l : list point) (pivot : nat)
    (pred : point -> point -> bool) :
  Permutation (fst (detail.adjust_pivot partition l pivot pred)) l.
Proof.
  unfold detail.adjust_pivot.
  destruct (skipn pivot l) as [|pv rest] eqn:E; [reflexivity|].
  pose proof (partition_permutes (fun x => pred x pv) (firstn pivot l)) as H.
  destruct (partition (fun x => pred x pv) (firstn pivot l)) as [l1 p].
  cbn [fst] in *.
  transitivity (firstn pivot l ++ skipn pivot l).
  - rewrite E. now apply Permutation_app_tail.
  - now rewrite firstn_skipn.
Qed.

Lemma kd_sort_perm (fuel : nat) :
  forall I l, length l <= fuel ->
  exists l',
    detail.kd_sort D nth_element partition fuel I l = Done l' /\
    Permutation l l'.
Proof.
  induction fuel as [|fuel IH]; intros I l Hf; cbn [detail.kd_sort].
  - destruct (Nat.ltb_spec 1 (length l)); [lia|].
    exists l. split; reflexivity.
  - destruct (Nat.ltb_spec 1 (length l)) as [Hs|Hs];
      [|exists l; split; reflexivity].
    set (pivot := middle_of 0 (length l)).
    assert (Hp : pivot < length l)
      by (apply (middle_of_bounds 0 (length l)); lia).
    set (l1 := nth_element (detail.kd_less D I) l pivot).
    assert (P1 : Permutation l1 l) by (apply nth_element_permutes; exact Hp).
    pose proof (adjust_pivot_perm l1 pivot (detail.kd_less D I)) as P2.
    destruct (detail.adjust_pivot partition l1 pivot (detail.kd_less D I))
      as [l2 p].
    cbn [fst] in P2.
    assert (P : Permutation l l2)
      by (symmetry; etransitivity; eassumption).
    destruct (skipn p l2) as [|x rest] eqn:E.
    + exists l2. split; [reflexivity|exact P].
    + pose proof (Permutation_length P) as Hlen.
      pose proof (f_equal (@length point) (firstn_skipn p l2)) as Hsplit.
      rewrite length_app, E in Hsplit. cbn [length] in Hsplit.
      destruct (IH (detail.next_dim D I) rest) as (r' & Er & Pr); [lia|].
      destruct (IH (detail.next_dim D I) (firstn p l2)) as (f' & Ef & Pf); [lia|].
      rewrite Er. cbn [bind]. rewrite Ef. cbn [bind].
      exists (f' ++ x :: r'). split; [reflexivity|].
      etransitivity; [exact P|].
      transitivity (firstn p l2 ++ skipn p l2);
        [now rewrite firstn_skipn|].
      rewrite E. apply Permutation_app; [exact Pf|].
      now apply perm_skip.
Qed.

End BuildFacts.

(** C7. [kd_sort] keeps the multiset of the elements of the array, and so
    does every step of it: [nth_element] and [partition] do by the
    standard, hence [adjust_pivot], and every recursive call of
    [kd_sort<I>] on a range returns, with the elements of that range
    rearranged. *)
Theorem kd_sort_preserves_elements (D : nat)
    (nth_element : (point -> point -> bool) -> list point -> nat -> list point)
    (partition : (point -> bool) -> list point -> list point * nat) :
  (forall pred l nth, nth < length l ->
     Permutation (nth_element pred l nth) l) ->
  (forall pred l, Permutation (fst (partition pred l)) l) ->
  (forall A, exists A',
     kd_sort D nth_element partition A = Done A' /\ Permutation A A') /\
  (forall I l, exists l',
     detail.kd_sort D nth_element partition (length l) I l = Done l' /\
     Permutation l l') /\
  (forall l pivot pred,
     Permutation (fst (detail.adjust_pivot partition l pivot pred)) l).
Proof.
  intros Hn Hp. split; [|split].
  - intros A. apply kd_sort_perm; auto.
  - intros I l. apply kd_sort_perm; auto.
  - intros l pivot pred. apply adjust_pivot_perm; auto.
Qed.

(** ** [kd_nearest_neighbor] *)

Section NearestFacts.

Variable D : nat.
Hypothesis HD : 0 < D.
Variable stray : nat -> outcome point.
Variable A : list point.
Variable value : point.

Local Abbreviation el := (elt A).
Local Abbreviation kd_tree := (kd_tree D stray A).

(** The squared distance from the probe to the element at [it]. *)
Local Abbreviation d it := (detail.sum_of_squares D (elt A it) value).

Lemma near_or_pivot_spec (pivot last search : nat) :
  search <= last -> last <= length A -> pivot < last ->
  exists b,
    detail.near_or_pivot D stray A pivot last (el pivot) value search
      = Done (b, Sqrt (d b)) /\
    ((b = search /\ search < last /\ (d search < d pivot)%Z) \/
     (b = pivot /\ (search = last \/ (d pivot <= d search)%Z))).
Proof.
  intros Hs Hl Hp. unfold detail.near_or_pivot.
  destruct (Nat.eqb_spec search last) as [E|E].
  - exists pivot. split; [reflexivity|]. right. auto.
  - rewrite deref_in by lia. cbn [bind]. unfold detail.l2dist, dbl_ltb.
    destruct (Z.ltb_spec (d search) (d pivot)) as [H|H].
    + exists search. split; [reflexivity|]. left. repeat split; [lia|exact H].
    + exists pivot. split; [reflexivity|]. right. auto.
Qed.

(** [kd_nearest_neighbor] returns an iterator of the range, unless the
    range is empty, and no element of the range is closer to the probe
    than the one it designates. *)
Lemma kd_nearest_neighbor_spec (I first last : nat) :
  kd_tree I first last -> I < D -> first <= last -> last <= length A ->
  forall fuel, last - first <= fuel ->
  exists r,
    detail.kd_nearest_neighbor D stray A fuel I first last value = Done r /\
    first <= r <= last /\
    (first < last -> r < last) /\
    (forall j, first <= j < last -> (d r <= d j)%Z).
Proof.
  intros T. induction T as
    [I first last Hs
    |I first last p Hs Hp Hb Hlo Hhi Tl IHl Tr IHr];
    intros HI Hfl Hl fuel Hfuel.
  - assert (E : (1 <? last - first) = false) by (apply Nat.ltb_ge; lia).
    exists first.
    split; [destruct fuel; cbn [detail.kd_nearest_neighbor]; now rewrite E|].
    split; [lia|]. split; [lia|].
    intros j Hj. replace j with first by lia. lia.
  - destruct fuel as [|fuel]; [lia|].
    cbn [detail.kd_nearest_neighbor].
    assert (E : (1 <? last - first) = true) by (apply Nat.ltb_lt; lia).
    rewrite E, Hp. cbn [bind]. rewrite deref_in by lia. cbn [bind].
    pose proof (next_dim_lt D I HD) as HJ.
    destruct (IHl HJ) with (fuel := fuel) as (rl & Erl & Hrl & Hnl & Hbl);
      [lia|lia|lia|].
    destruct (IHr HJ) with (fuel := fuel) as (rr & Err & Hrr & Hnr & Hbr);
      [lia|lia|lia|].
    assert (Hgl : forall j, first <= j < p -> (get I (el j) <= get I (el p))%Z).
    { intros j Hj. apply (kd_less_true_axis D (D - 1)). now apply Hlo. }
    assert (Hgr : forall j, p <= j < last -> (get I (el p) <= get I (el j))%Z).
    { intros j Hj. apply (kd_less_false_axis D (D - 1)). now apply Hhi. }
    unfold detail.less_nth.
    destruct (Z.ltb_spec (get I value) (get I (el p))) as [Hside|Hside].
    + (* the probe is on the left of the plane *)
      rewrite Erl. cbn [bind].
      destruct (near_or_pivot_spec p last rl) as (b & Eb & Hb'); [lia|lia|lia|].
      rewrite Eb. cbn [bind].
      assert (Hbr' : first <= b < last) by lia.
      assert (Hbp : (d b <= d p)%Z)
        by (destruct Hb' as [(-> & _ & ?)|(-> & _)]; lia).
      assert (Hbn : forall j, first <= j < p -> (d b <= d j)%Z).
      { intros j Hj. specialize (Hbl j Hj).
        destruct Hb' as [(-> & _ & _)|(-> & [Hx|Hx])]; lia. }
      destruct (dbl_ltb (detail.dist_nth I value (el p)) (Sqrt (d b))) eqn:Ed.
      * rewrite Err. cbn [bind]. rewrite is_hit_in by lia. cbn [bind].
        unfold detail.l2dist, dbl_ltb.
        destruct (Nat.eqb_spec rr last) as [Hrl'|Hrl']; cbn [negb andb].
        -- exists b. split; [reflexivity|]. split; [lia|]. split; [lia|].
           intros j Hj. destruct (Nat.lt_trichotomy j p) as [Hjp|[->|Hjp]];
             [now apply Hbn|exact Hbp|lia].
        -- destruct (Z.ltb_spec (d rr) (d b)) as [Hc|Hc].
           ++ exists rr. split; [reflexivity|]. split; [lia|]. split; [lia|].
              intros j Hj. destruct (Nat.lt_trichotomy j p) as [Hjp|[->|Hjp]].
              ** specialize (Hbn j ltac:(lia)). lia.
              ** lia.
              ** apply Hbr. lia.
           ++ exists b. split; [reflexivity|]. split; [lia|]. split; [lia|].
              intros j Hj. destruct (Nat.lt_trichotomy j p) as [Hjp|[->|Hjp]].
              ** now apply Hbn.
              ** exact Hbp.
              ** specialize (Hbr j ltac:(lia)). lia.
      * exists b. split; [reflexivity|]. split; [lia|]. split; [lia|].
        intros j Hj. destruct (Nat.lt_trichotomy j p) as [Hjp|[->|Hjp]].
        -- now apply Hbn.
        -- exact Hbp.
        -- apply (across_plane D I (el p) (el j) value (d b) HI); [|exact Ed].
           left. split; [exact Hside|]. apply Hgr. lia.
    + (* the probe is on the plane or on the right of it *)
      rewrite Err. cbn [bind].
      destruct (near_or_pivot_spec p last rr) as (b & Eb & Hb'); [lia|lia|lia|].
      rewrite Eb. cbn [bind].
      assert (Hbr' : first <= b < last) by lia.
      assert (Hbp : (d b <= d p)%Z)
        by (destruct Hb' as [(-> & _ & ?)|(-> & _)]; lia).
      assert (Hbn : forall j, S p <= j < last -> (d b <= d j)%Z).
      { intros j Hj. specialize (Hbr j Hj).
        destruct Hb' as [(-> & _ & _)|(-> & [Hx|Hx])]; lia. }
      destruct (dbl_ltb (detail.dist_nth I value (el p)) (Sqrt (d b))) eqn:Ed.
      * rewrite Erl. cbn [bind]. rewrite is_hit_in by lia. cbn [bind].
        unfold detail.l2dist, dbl_ltb.
        assert (Hrl' : (rl =? last) = false) by (apply Nat.eqb_neq; lia).
        rewrite Hrl'. cbn [negb andb].
        destruct (Z.ltb_spec (d rl) (d b)) as [Hc|Hc].
        -- exists rl. split; [reflexivity|]. split; [lia|]. split; [lia|].
           intros j Hj. destruct (Nat.lt_trichotomy j p) as [Hjp|[->|Hjp]].
           ++ apply Hbl. lia.
           ++ lia.
           ++ specialize (Hbn j ltac:(lia)). lia.
        -- exists b. split; [reflexivity|]. split; [lia|]. split; [lia|].
           intros j Hj. destruct (Nat.lt_trichotomy j p) as [Hjp|[->|Hjp]].
           ++ specialize (Hbl j ltac:(lia)). lia.
           ++ exact Hbp.
           ++ apply Hbn. lia.
      * exists b. split; [reflexivity|]. split; [lia|]. split; [lia|].
        intros j Hj. destruct (Nat.lt_trichotomy j p) as [Hjp|[->|Hjp]].
        -- apply (across_plane D I (el p) (el j) value (d b) HI); [|exact Ed].
           right. split; [exact Hside|]. apply Hgl. lia.
        -- exact Hbp.
        -- apply Hbn. lia.
Qed.

End NearestFacts.

(** X27. On a non-empty array that [kd_is_sorted] accepts,
    [kd_nearest_neighbor] returns an iterator to an element of the array,
    and the [l2dist] from it to the probe is the least [l2dist] from any
    element of the array to the probe.  No read leaves the array, whatever
    [stray] is. *)
Theorem kd_nearest_neighbor_minimal (D : nat) (stray : nat -> outcome point)
    (A : list point) (value : point) :
  0 < D -> A <> [] ->
  kd_is_sorted D stray A 0 (length A) = Done true ->
  exists it,
    kd_nearest_neighbor D stray A 0 (length A) value = Done it /\
    it < length A /\
    In (elt A it) A /\
    (forall x, In x A ->
       dbl_leb (detail.l2dist D (elt A it) value) (detail.l2dist D x value)
         = true).
Proof.
  intros HD Hne Hs.
  apply kd_is_sorted_tree in Hs; [|apply Nat.le_refl].
  assert (Hlen : 0 < length A) by (destruct A; [congruence|simpl; lia]).
  destruct (kd_nearest_neighbor_spec D HD stray A value 0 0 (length A) Hs HD
              (Nat.le_0_l _) (Nat.le_refl _) (length A - 0) (Nat.le_refl _))
    as (r & Er & Hr & Hlt & Hmin).
  exists r. split; [exact Er|]. specialize (Hlt Hlen).
  split; [exact Hlt|]. split; [apply nth_In; exact Hlt|].
  intros x Hin. destruct (In_nth A x [] Hin) as (j & Hj & <-).
  unfold dbl_leb, detail.l2dist, dbl_ltb. apply negb_true_iff, Z.ltb_ge.
  apply Hmin. lia.
Qed.

Lemma kd_nearest_neighbor_minimal_witness :
  exists it,
    kd_nearest_neighbor 2 trap [[0;0];[1;5];[5;1];[10;10]]%Z 0 4 [2;2]%Z
      = Done it /\
    it < 4 /\
    In (elt [[0;0];[1;5];[5;1];[10;10]]%Z it) [[0;0];[1;5];[5;1];[10;10]]%Z /\
    (forall x, In x [[0;0];[1;5];[5;1];[10;10]]%Z ->
       dbl_leb
         (detail.l2dist 2 (elt [[0;0];[1;5];[5;1];[10;10]]%Z it) [2;2]%Z)
         (detail.l2dist 2 x [2;2]%Z) = true).
Proof.
  apply (kd_nearest_neighbor_minimal 2 trap
           [[0;0];[1;5];[5;1];[10;10]]%Z [2;2]%Z).
  - lia.
  - discriminate.
  - reflexivity.
Defined.

(** C9, as the code has it.  After the near side has been searched, the
    candidate it returned is kept only if it is strictly closer to the
    probe than the pivot; on a tie the pivot becomes the current best. *)
Theorem near_or_pivot_tie (D : nat) (stray : nat -> outcome point)
    (A : list point) (pivot last search : nat) (value : point) :
  search < last -> last <= length A -> pivot < last ->
  detail.near_or_pivot D stray A pivot last (elt A pivot) value search =
    Done (if dbl_ltb (detail.l2dist D (elt A search) value)
                     (detail.l2dist D (elt A pivot) value)
          then (search, detail.l2dist D (elt A search) value)
          else (pivot, detail.l2dist D (elt A pivot) value)) /\
  (detail.l2dist D (elt A search) value = detail.l2dist D (elt A pivot) value ->
   detail.near_or_pivot D stray A pivot last (elt A pivot) value search =
     Done (pivot, detail.l2dist D (elt A pivot) value)).
Proof.
  intros Hs Hl Hp.
  assert (E : detail.near_or_pivot D stray A pivot last (elt A pivot) value
                search =
              Done (if dbl_ltb (detail.l2dist D (elt A search) value)
                               (detail.l2dist D (elt A pivot) value)
                    then (search, detail.l2dist D (elt A search) value)
                    else (pivot, detail.l2dist D (elt A pivot) value))).
  { unfold detail.near_or_pivot.
    destruct (Nat.eqb_spec search last) as [E|E]; [lia|].
    rewrite deref_in by lia. cbn [bind].
    now destruct (dbl_ltb _ _). }
  split; [exact E|].
  intros Ht. rewrite E, Ht.
  unfold detail.l2dist, dbl_ltb. now rewrite Z.ltb_irrefl.
Qed.

Lemma near_or_pivot_tie_witness :
  detail.near_or_pivot 1 trap [[0];[2]]%Z 1 2 (elt [[0];[2]]%Z 1) [1]%Z 0 =
    Done (if dbl_ltb (detail.l2dist 1 (elt [[0];[2]]%Z 0) [1]%Z)
                     (detail.l2dist 1 (elt [[0];[2]]%Z 1) [1]%Z)
          then (0, detail.l2dist 1 (elt [[0];[2]]%Z 0) [1]%Z)
          else (1, detail.l2dist 1 (elt [[0];[2]]%Z 1) [1]%Z)) /\
  (detail.l2dist 1 (elt [[0];[2]]%Z 0) [1]%Z
     = detail.l2dist 1 (elt [[0];[2]]%Z 1) [1]%Z ->
   detail.near_or_pivot 1 trap [[0];[2]]%Z 1 2 (elt [[0];[2]]%Z 1) [1]%Z 0 =
     Done (1, detail.l2dist 1 (elt [[0];[2]]%Z 1) [1]%Z)).
Proof.
  apply (near_or_pivot_tie 1 trap [[0];[2]]%Z 1 2 0 [1]%Z); simpl; lia.
Defined.

(** C9 as stated fails.  In the array [(0), (2)] probed at [(1)] the
    pivot is the element [(2)] at iterator 1, the near side is the range
    of the element [(0)], its search returns iterator 0, a valid candidate
    at the same distance from the probe as the pivot; the current best
    becomes the pivot, and the pivot is what the search returns. *)
Lemma near_side_not_kept_on_tie :
  detail.find_pivot trap [[0];[2]]%Z 0 0 2 = Done 1 /\
  detail.less_nth 0 [1]%Z (elt [[0];[2]]%Z 1) = true /\
  detail.kd_nearest_neighbor 1 trap [[0];[2]]%Z 1 (detail.next_dim 1 0) 0 1
    [1]%Z = Done 0 /\
  0 <> 2 /\
  detail.l2dist 1 (elt [[0];[2]]%Z 0) [1]%Z
    = detail.l2dist 1 (elt [[0];[2]]%Z 1) [1]%Z /\
  detail.near_or_pivot 1 trap [[0];[2]]%Z 1 2 (elt [[0];[2]]%Z 1) [1]%Z 0
    = Done (1, Sqrt 1) /\
  kd_nearest_neighbor 1 trap [[0];[2]]%Z 0 2 [1]%Z = Done 1.
Proof.
  repeat split; try reflexivity. discriminate.
Qed.

(** ** [kd_range_query] *)

Section SpanFacts.

Variable A : list point.

Local Abbreviation el := (elt A).

Lemma skipn_cons_nth (l : list point) :
  forall n, n < length l -> skipn n l = nth n l [] :: skipn (S n) l.
Proof.
  induction l as [|x l IH]; intros n Hn; [simpl in Hn; lia|].
  destruct n as [|n]; [reflexivity|].
  cbn [skipn nth]. apply IH. simpl in Hn. lia.
Qed.

Lemma span_nil (first last : nat) : last <= first -> span A first last = [].
Proof.
  intros H. unfold span. replace (last - first) with 0 by lia. reflexivity.
Qed.

Lemma span_cons (first last : nat) :
  first < last -> last <= length A ->
  span A first last = el first :: span A (S first) last.
Proof.
  intros Hlt Hl. unfold span.
  rewrite skipn_cons_nth by lia.
  replace (last - first) with (S (last - S first)) by lia. reflexivity.
Qed.

Lemma span_split (first pivot last : nat) :
  first <= pivot -> pivot < last -> last <= length A ->
  span A first last = span A first pivot ++ el pivot :: span A (S pivot) last.
Proof.
  intros Hfp Hpl Hl.
  remember (pivot - first) as k eqn:Ek.
  revert first Hfp Ek. induction k as [|k IH]; intros first Hfp Ek.
  - replace first with pivot by lia.
    rewrite (span_nil pivot pivot) by lia. apply span_cons; lia.
  - rewrite (span_cons first last) by lia.
    rewrite (span_cons first pivot) by lia.
    cbn [app]. f_equal. apply IH; lia.
Qed.

Lemma span_whole : span A 0 (length A) = A.
Proof.
  unfold span. rewrite Nat.sub_0_r. cbn [skipn]. apply firstn_all.
Qed.

Lemma In_span (first last : nat) (x : point) :
  last <= length A -> In x (span A first last) ->
  exists j, first <= j < last /\ x = el j.
Proof.
  intros Hl. remember (last - first) as n eqn:En.
  revert first En. induction n as [|n IH]; intros first En Hin.
  - rewrite span_nil in Hin by lia. destruct Hin.
  - rewrite span_cons in Hin by lia. destruct Hin as [<-|Hin].
    + exists first. split; [lia|reflexivity].
    + destruct (IH (S first)) as (j & Hj & ->); [lia|exact Hin|].
      exists j. split; [lia|reflexivity].
Qed.

Lemma filter_none (pred : point -> bool) (l : list point) :
  (forall x, In x l -> pred x = false) -> filter pred l = [].
Proof.
  induction l as [|x l IH]; intros H; [reflexivity|].
  cbn [filter]. rewrite (H x (or_introl eq_refl)).
  apply IH. intros y Hy. apply H. now right.
Qed.

Lemma span_app (first mid last : nat) :
  first <= mid -> mid <= last -> last <= length A ->
  span A first last = span A first mid ++ span A mid last.
Proof.
  intros H1 H2 H3. destruct (Nat.eq_dec mid last) as [->|Hne].
  - rewrite (span_nil last last) by lia. now rewrite app_nil_r.
  - rewrite (span_split first mid last) by lia.
    now rewrite <- (span_cons mid last) by lia.
Qed.

End SpanFacts.

Section RangeFacts.

Variable D : nat.
Hypothesis HD : 0 < D.
Variable stray : nat -> outcome point.
Variable A : list point.
Variables lower upper : point.

Local Abbreviation el := (elt A).
Local Abbreviation kd_tree := (kd_tree D stray A).
Local Abbreviation inside := (fun x => detail.within D x lower upper).

(** [copy_if] appends the elements of the range that satisfy [pred], in
    the order of the range. *)
Lemma copy_if_spec (pred : point -> bool) (n : nat) :
  forall first outp, first + n <= length A ->
  detail.copy_if stray A n first outp pred =
  Done (outp ++ filter pred (span A first (first + n))).
Proof.
  induction n as [|n IH]; intros first outp Hl; cbn [detail.copy_if].
  - rewrite span_nil by lia. cbn [filter]. now rewrite app_nil_r.
  - rewrite deref_in by lia. cbn [bind].
    rewrite IH by lia. rewrite (span_cons A first (first + S n)) by lia.
    replace (S first + n) with (first + S n) by lia.
    cbn [filter]. destruct (pred (el first)); [|reflexivity].
    now rewrite <- app_assoc.
Qed.

(** [kd_range_query] appends to the sink, in some order, the elements of
    the range that lie in the box. *)
Lemma kd_range_query_spec (I first last : nat) :
  kd_tree I first last -> I < D -> first <= last -> last <= length A ->
  forall fuel outp, last - first <= fuel ->
  exists found,
    detail.kd_range_query D stray A fuel I first last lower upper outp
      = Done (outp ++ found) /\
    Permutation found (filter inside (span A first last)).
Proof.
  assert (Hscan : forall fuel K lo hi outp,
            lo <= hi -> hi <= length A ->
            (32 <? hi - lo) = false ->
            exists found,
              detail.kd_range_query D stray A fuel K lo hi lower upper outp
                = Done (outp ++ found) /\
              Permutation found (filter inside (span A lo hi))).
  { intros fuel K lo hi outp Hfl Hl E.
    exists (filter inside (span A lo hi)). split; [|reflexivity].
    destruct fuel; cbn [detail.kd_range_query]; rewrite E.
    all: rewrite copy_if_spec by lia.
    all: now replace (lo + (hi - lo)) with hi by lia. }
  intros T. induction T as
    [I first last Hs
    |I first last p Hs Hp Hb Hlo Hhi Tl IHl Tr IHr];
    intros HI Hfl Hl fuel outp Hfuel.
  - apply Hscan; try assumption. apply Nat.ltb_ge. lia.
  - destruct (32 <? last - first) eqn:E; [|now apply Hscan].
    destruct fuel as [|fuel]; [lia|].
    cbn [detail.kd_range_query]. rewrite E, Hp. cbn [bind].
    rewrite deref_in by lia. cbn [bind].
    pose proof (next_dim_lt D I HD) as HJ.
    set (outp1 := if detail.within D (el p) lower upper
                  then outp ++ [el p] else outp).
    set (here := if detail.within D (el p) lower upper then [el p] else []).
    assert (Eh : filter inside (el p :: span A (S p) last) =
                 here ++ filter inside (span A (S p) last)).
    { cbn [filter]. unfold here.
      now destruct (detail.within D (el p) lower upper). }
    rewrite (span_split A first p last) by lia.
    rewrite filter_app, Eh.
    assert (Eo : outp1 = outp ++ here).
    { unfold outp1, here. destruct (detail.within D (el p) lower upper);
        [reflexivity|now rewrite app_nil_r]. }
    assert (Hl' : exists fl,
              (if negb (detail.less_nth I (el p) lower)
               then detail.kd_range_query D stray A fuel (detail.next_dim D I)
                      first p lower upper outp1
               else Done outp1) = Done (outp1 ++ fl) /\
              Permutation fl (filter inside (span A first p))).
    { unfold detail.less_nth.
      destruct (Z.ltb_spec (get I (el p)) (get I lower)) as [Hc|Hc]; cbn [negb].
      - exists []. split; [now rewrite app_nil_r|].
        rewrite filter_none; [reflexivity|].
        intros x Hx. apply In_span in Hx; [|lia].
        destruct Hx as (j & Hj & ->).
        specialize (Hlo j Hj). apply kd_less_true_axis in Hlo.
        unfold detail.within.
        destruct (detail.none_less D (el j) lower) eqn:En; [|reflexivity].
        rewrite none_less_spec in En by exact HD. specialize (En I HI). lia.
      - destruct (IHl HJ) with (fuel := fuel) (outp := outp1)
          as (fl & Efl & Pfl); [lia|lia|lia|].
        exists fl. split; [exact Efl|exact Pfl]. }
    destruct Hl' as (fl & Efl & Pfl). rewrite Efl. cbn [bind].
    assert (Hr' : exists fr,
              (if detail.less_nth I (el p) upper
               then detail.kd_range_query D stray A fuel (detail.next_dim D I)
                      (S p) last lower upper (outp1 ++ fl)
               else Done (outp1 ++ fl)) = Done ((outp1 ++ fl) ++ fr) /\
              Permutation fr (filter inside (span A (S p) last))).
    { unfold detail.less_nth.
      destruct (Z.ltb_spec (get I (el p)) (get I upper)) as [Hc|Hc].
      - destruct (IHr HJ) with (fuel := fuel) (outp := outp1 ++ fl)
          as (fr & Efr & Pfr); [lia|lia|lia|].
        exists fr. split; [exact Efr|exact Pfr].
      - exists []. split; [now rewrite app_nil_r|].
        rewrite filter_none; [reflexivity|].
        intros x Hx. apply In_span in Hx; [|lia].
        destruct Hx as (j & Hj & ->).
        specialize (Hhi j ltac:(lia)). apply kd_less_false_axis in Hhi.
        unfold detail.within.
        destruct (detail.all_less D (el j) upper) eqn:En;
          [|apply andb_false_r].
        rewrite all_less_spec in En by exact HD. specialize (En I HI). lia. }
    destruct Hr' as (fr & Efr & Pfr). rewrite Efr.
    exists (here ++ fl ++ fr). split.
    + rewrite Eo. now rewrite <- !app_assoc.
    + transitivity (fl ++ here ++ fr).
      * rewrite !app_assoc. apply Permutation_app_tail. apply Permutation_app_comm.
      * apply Permutation_app; [exact Pfl|].
        apply Permutation_app_head. exact Pfr.
Qed.

End RangeFacts.

(** X28. On an array that [kd_is_sorted] accepts, [kd_range_query]
    appends to the sink, as a multiset, exactly the elements [x] of the
    array with [within(x, lower, upper)], that is [none_less(x, lower)]
    and [all_less(x, upper)]. *)
Theorem kd_range_query_reports_box (D : nat) (stray : nat -> outcome point)
    (A : list point) (lower upper : point) (outp : list point) :
  0 < D ->
  kd_is_sorted D stray A 0 (length A) = Done true ->
  exists found,
    kd_range_query D stray A 0 (length A) lower upper outp
      = Done (outp ++ found) /\
    Permutation found (filter (fun x => detail.within D x lower upper) A) /\
    (forall x, detail.within D x lower upper =
               detail.none_less D x lower && detail.all_less D x upper).
Proof.
  intros HD Hs.
  apply kd_is_sorted_tree in Hs; [|apply Nat.le_refl].
  destruct (kd_range_query_spec D HD stray A lower upper 0 0 (length A) Hs HD
              (Nat.le_0_l _) (Nat.le_refl _) (length A - 0) outp
              (Nat.le_refl _))
    as (found & E & P).
  exists found. split; [exact E|]. split; [|reflexivity].
  now rewrite span_whole in P.
Qed.

Lemma kd_range_query_reports_box_witness :
  exists found,
    kd_range_query 2 trap sample41 0 (length sample41) [5;5]%Z [30;30]%Z []
      = Done ([] ++ found) /\
    Permutation found
      (filter (fun x => detail.within 2 x [5;5]%Z [30;30]%Z) sample41) /\
    (forall x, detail.within 2 x [5;5]%Z [30;30]%Z =
               detail.none_less 2 x [5;5]%Z && detail.all_less 2 x [30;30]%Z).
Proof.
  apply (kd_range_query_reports_box 2 trap sample41 [5;5]%Z [30;30]%Z []).
  - lia.
  - vm_compute. reflexivity.
Defined.

(** ** [n_best] and [knn] *)

Section KnnFacts.

Variable D : nat.
Hypothesis HD : 0 < D.
Variable stray : nat -> outcome point.
Variable A : list point.
Variable value : point.

Local Abbreviation el := (elt A).
Local Abbreviation kd_tree := (kd_tree D stray A).
Local Abbreviation d it := (detail.sum_of_squares D (elt A it) value).
Local Abbreviation entry := (entry D A value).
Local Abbreviation farthest_first := (farthest_first D A value).
Local Abbreviation ins := (ins D A value).
Local Abbreviation best_of := (best_of D A value).

Lemma pq_push_entry (it : nat) (its : list nat) :
  detail.pq_push (entry it) (map entry its) = map entry (ins it its).
Proof.
  induction its as [|h t IH]; [reflexivity|].
  cbn [map detail.pq_push ins]. unfold entry at 1 2.
  cbn [fst detail.l2dist dbl_ltb].
  destruct (d h <? d it)%Z; [reflexivity|].
  cbn [map]. now rewrite IH.
Qed.

Lemma ins_perm (it : nat) (its : list nat) :
  Permutation (ins it its) (it :: its).
Proof.
  induction its as [|h t IH]; [reflexivity|]. cbn [ins].
  destruct (d h <? d it)%Z; [reflexivity|].
  rewrite IH. apply perm_swap.
Qed.

Lemma ins_sorted (it : nat) (its : list nat) :
  farthest_first its -> farthest_first (ins it its).
Proof.
  unfold farthest_first.
  induction its as [|h t IH]; intros Hs; cbn [ins].
  - constructor; constructor.
  - apply StronglySorted_inv in Hs. destruct Hs as [Ht Hh].
    destruct (Z.ltb_spec (d h) (d it)) as [Hc|Hc].
    + constructor; [constructor; assumption|].
      constructor; [lia|].
      eapply Forall_impl; [|exact Hh]. cbv beta. intros; lia.
    + constructor; [now apply IH|].
      eapply Permutation_Forall; [symmetry; apply ins_perm|].
      constructor; [lia|exact Hh].
Qed.

Lemma best_of_perm (q : detail.n_best) (offered offered' : list nat) :
  Permutation offered offered' -> best_of q offered -> best_of q offered'.
Proof.
  intros P (its & rest & Eq & Hs & Hp & Hc & Hn).
  exists its, rest. repeat split; auto.
  - now rewrite <- P.
  - now rewrite <- (Permutation_length P).
Qed.

Lemma farthest_first_head (h i : nat) (t : list nat) :
  farthest_first (h :: t) -> In i (h :: t) -> (d i <= d h)%Z.
Proof.
  intros Hs Hi. apply StronglySorted_inv in Hs. destruct Hs as [_ Hh].
  destruct Hi as [<-|Hi]; [lia|].
  rewrite Forall_forall in Hh. now apply Hh.
Qed.

(** [add] offers one more iterator. *)
Lemma best_of_add (q : detail.n_best) (offered : list nat) (it : nat) :
  best_of q offered ->
  best_of (detail.add q (detail.l2dist D (el it) value) it) (it :: offered) /\
  detail.m_n (detail.add q (detail.l2dist D (el it) value) it) = detail.m_n q.
Proof.
  intros (its & rest & Eq & Hs & Hp & Hc & Hn).
  unfold detail.add. fold (entry it). rewrite Eq, pq_push_entry.
  rewrite length_map.
  pose proof (Permutation_length (ins_perm it its)) as Hlen.
  cbn [length] in Hlen. rewrite Hlen.
  pose proof (Permutation_length Hp) as Hlp. rewrite length_app in Hlp.
  destruct (Nat.ltb_spec (detail.m_n q) (S (length its))) as [Hfull|Hroom];
    (split; [|reflexivity]).
  - (* the queue is full: the farthest entry is popped *)
    destruct its as [|h t].
    + exists [], (it :: rest). cbn [ins map detail.pq_pop tl detail.m_q].
      repeat split.
      * constructor.
      * cbn [app]. apply perm_skip. exact Hp.
      * intros i j [].
      * cbn [length detail.m_n] in *. lia.
    + cbn [ins]. destruct (Z.ltb_spec (d h) (d it)) as [Hlt|Hge].
      * exists (h :: t), (it :: rest).
        cbn [map detail.pq_pop tl detail.m_q detail.m_n].
        repeat split.
        -- exact Hs.
        -- rewrite Hp. apply Permutation_middle.
        -- intros i j Hi [<-|Hj]; [|now apply Hc].
           pose proof (farthest_first_head h i t Hs Hi). lia.
        -- cbn [length] in *. lia.
      * exists (ins it t), (h :: rest).
        cbn [map detail.pq_pop tl detail.m_q detail.m_n].
        apply StronglySorted_inv in Hs as Hs'. destruct Hs' as [Hst Hh].
        repeat split.
        -- now apply ins_sorted.
        -- rewrite Hp. cbn [app].
           rewrite <- Permutation_middle.
           rewrite (perm_swap h it (t ++ rest)).
           apply perm_skip. rewrite app_comm_cons.
           apply Permutation_app_tail. symmetry. apply ins_perm.
        -- intros i j Hi Hj.
           apply (Permutation_in _ (ins_perm it t)) in Hi.
           assert (Hih : (d i <= d h)%Z).
           { destruct Hi as [<-|Hi]; [lia|].
             apply (farthest_first_head h i t Hs). now right. }
           destruct Hj as [<-|Hj]; [exact Hih|].
           specialize (Hc h j (or_introl eq_refl) Hj). lia.
        -- rewrite (Permutation_length (ins_perm it t)).
           cbn [length] in *. lia.
  - (* there is room: nothing was ever dropped *)
    assert (rest = []) by (destruct rest; [reflexivity|cbn [length] in *; lia]).
    subst rest. rewrite app_nil_r in Hp.
    exists (ins it its), []. cbn [detail.m_q detail.m_n].
    repeat split.
    + now apply ins_sorted.
    + rewrite app_nil_r, Hp. symmetry. apply ins_perm.
    + intros i j _ [].
    + rewrite Hlen. cbn [length] in *. lia.
Qed.

(** Pruning is sound: when [dist_nth<I>] exceeds [max_key], the queue is
    full, and offering it iterators at least that far changes nothing. *)
Lemma best_of_prune (q : detail.n_best) (offered skipped : list nat)
    (I p : nat) :
  best_of q offered -> In p offered -> I < D ->
  dbl_leb (detail.dist_nth I value (el p)) (detail.max_key q) = false ->
  (forall j, In j skipped ->
     ((get I value - get I (el p)) ^ 2 <= d j)%Z) ->
  best_of q (skipped ++ offered).
Proof.
  intros (its & rest & Eq & Hs & Hp & Hc & Hn) Hin HI Hk Hfar.
  unfold detail.max_key in Hk. rewrite Eq in Hk.
  destruct its as [|h t]; [discriminate|].
  cbn [map entry fst] in Hk.
  unfold dbl_leb, detail.l2dist, detail.dist_nth, scalar_dist, scalar_diff,
    dbl_ltb in Hk.
  apply negb_false_iff, Z.ltb_lt in Hk.
  pose proof (sum_of_squares_axis D I (el p) value HI) as Hax.
  pose proof (Permutation_length Hp) as Hlp. rewrite length_app in Hlp.
  assert (Hfull : detail.m_n q <= length offered).
  { destruct (Nat.le_gt_cases (detail.m_n q) (length offered)) as [H|H];
      [exact H|exfalso].
    assert (rest = []) by (destruct rest; [reflexivity|cbn [length] in *; lia]).
    subst rest. rewrite app_nil_r in Hp.
    apply (Permutation_in _ Hp) in Hin.
    pose proof (farthest_first_head h p t Hs Hin). nia. }
  exists (h :: t), (rest ++ skipped). repeat split.
  - exact Eq.
  - exact Hs.
  - rewrite Hp. rewrite (app_assoc (h :: t) rest skipped).
    apply Permutation_app_comm.
  - intros i j Hi Hj. apply in_app_or in Hj. destruct Hj as [Hj|Hj].
    + now apply Hc.
    + pose proof (farthest_first_head h i t Hs Hi).
      specialize (Hfar j Hj). nia.
  - rewrite length_app. lia.
Qed.

Lemma seq_split (first p last : nat) :
  first <= p < last ->
  seq first (last - first) =
  seq first (p - first) ++ p :: seq (S p) (last - S p).
Proof.
  intros H.
  replace (last - first) with ((p - first) + S (last - S p)) by lia.
  rewrite seq_app. cbn [seq].
  now replace (first + (p - first)) with p by lia.
Qed.

Lemma perm_left_first (L R offered : list nat) (p : nat) :
  Permutation (R ++ L ++ p :: offered) ((L ++ p :: R) ++ offered).
Proof.
  rewrite Permutation_app_swap_app, <- app_assoc.
  apply Permutation_app_head. cbn [app]. symmetry. apply Permutation_middle.
Qed.

Lemma perm_right_first (L R offered : list nat) (p : nat) :
  Permutation (L ++ R ++ p :: offered) ((L ++ p :: R) ++ offered).
Proof.
  rewrite <- app_assoc.
  apply Permutation_app_head. cbn [app]. symmetry. apply Permutation_middle.
Qed.

(** [knn] offers the queue every iterator of the range: those it skips
    would not have been kept. *)
Lemma knn_spec (I first last : nat) :
  kd_tree I first last -> I < D -> first <= last -> last <= length A ->
  forall fuel q offered, last - first <= fuel -> best_of q offered ->
  exists q',
    detail.knn D stray A fuel I first last value q = Done q' /\
    best_of q' (seq first (last - first) ++ offered) /\
    detail.m_n q' = detail.m_n q.
Proof.
  intros T. induction T as
    [I first last Hs
    |I first last p Hs Hp Hb Hlo Hhi Tl IHl Tr IHr];
    intros HI Hfl Hl fuel q offered Hfuel Hq.
  - destruct (last - first) as [|[|n]] eqn:En; [| |lia].
    + exists q. split; [destruct fuel; cbn [detail.knn]; now rewrite En|].
      split; [exact Hq|reflexivity].
    + destruct (best_of_add q offered first Hq) as [Hq' Hn].
      exists (detail.add q (detail.l2dist D (el first) value) first).
      split; [|split; [exact Hq'|exact Hn]].
      destruct fuel; cbn [detail.knn]; rewrite En.
      all: now rewrite deref_in by lia.
  - destruct fuel as [|fuel]; [lia|].
    cbn [detail.knn].
    destruct (last - first) as [|[|n]] eqn:En; [lia|lia|].
    rewrite Hp. cbn [bind]. rewrite deref_in by lia. cbn [bind].
    pose proof (next_dim_lt D I HD) as HJ.
    destruct (best_of_add q offered p Hq) as [Hq1 Hn1].
    set (q1 := detail.add q (detail.l2dist D (el p) value) p) in *.
    rewrite <- En, (seq_split first p last) by lia.
    set (L := seq first (p - first)). set (R := seq (S p) (last - S p)).
    assert (HgL : forall j, In j L -> (get I (el j) <= get I (el p))%Z).
    { intros j Hj. apply in_seq in Hj.
      apply (kd_less_true_axis D (D - 1)). apply Hlo. lia. }
    assert (HgR : forall j, In j R -> (get I (el p) <= get I (el j))%Z).
    { intros j Hj. apply in_seq in Hj.
      apply (kd_less_false_axis D (D - 1)). apply Hhi. lia. }
    unfold detail.less_nth.
    destruct (Z.ltb_spec (get I value) (get I (el p))) as [Hside|Hside].
    + destruct (IHl HJ) with (fuel := fuel) (q := q1) (offered := p :: offered)
        as (q2 & E2 & Hq2 & Hn2); [lia|lia|lia|exact Hq1|].
      rewrite E2. cbn [bind]. fold L in Hq2.
      destruct (dbl_leb (detail.dist_nth I value (el p)) (detail.max_key q2))
        eqn:Ek.
      * destruct (IHr HJ) with (fuel := fuel) (q := q2)
          (offered := L ++ p :: offered)
          as (q3 & E3 & Hq3 & Hn3); [lia|lia|lia|exact Hq2|].
        exists q3. split; [exact E3|]. fold R in Hq3. split; [|congruence].
        eapply best_of_perm; [apply perm_left_first|exact Hq3].
      * exists q2. split; [reflexivity|]. split; [|congruence].
        eapply best_of_perm; [apply perm_left_first|].
        apply (best_of_prune q2 (L ++ p :: offered) R I p); auto.
        -- apply in_or_app. right. now left.
        -- intros j Hj. specialize (HgR j Hj).
           pose proof (sum_of_squares_axis D I (el j) value HI). nia.
    + destruct (IHr HJ) with (fuel := fuel) (q := q1) (offered := p :: offered)
        as (q2 & E2 & Hq2 & Hn2); [lia|lia|lia|exact Hq1|].
      rewrite E2. cbn [bind]. fold R in Hq2.
      destruct (dbl_leb (detail.dist_nth I value (el p)) (detail.max_key q2))
        eqn:Ek.
      * destruct (IHl HJ) with (fuel := fuel) (q := q2)
          (offered := R ++ p :: offered)
          as (q3 & E3 & Hq3 & Hn3); [lia|lia|lia|exact Hq2|].
        exists q3. split; [exact E3|]. fold L in Hq3. split; [|congruence].
        eapply best_of_perm; [apply perm_right_first|exact Hq3].
      * exists q2. split; [reflexivity|]. split; [|congruence].
        eapply best_of_perm; [apply perm_right_first|].
        apply (best_of_prune q2 (R ++ p :: offered) L I p); auto.
        -- apply in_or_app. right. now left.
        -- intros j Hj. specialize (HgL j Hj).
           pose proof (sum_of_squares_axis D I (el j) value HI). nia.
Qed.

(** [copy_to] appends the elements the queue designates, in pop order. *)
Lemma copy_to__spec (its : list nat) :
  forall outp, (forall i, In i its -> i < length A) ->
  detail.copy_to_ stray A (map entry its) outp = Done (outp ++ map el its).
Proof.
  induction its as [|h t IH]; intros outp Hin; cbn [map detail.copy_to_].
  - now rewrite app_nil_r.
  - cbn [entry snd]. rewrite deref_in by (apply Hin; now left).
    cbn [bind]. rewrite IH by (intros i Hi; apply Hin; now right).
    now rewrite <- app_assoc.
Qed.

Lemma best_of_new (n : nat) : best_of (detail.n_best_new n) [].
Proof.
  exists [], []. repeat split.
  - constructor.
  - reflexivity.
  - intros i j [].
  - cbn. now rewrite Nat.min_0_r.
Qed.

(** What [max_key] returns, and why pruning cannot start early. *)
Lemma max_key_spec (q : detail.n_best) (offered : list nat) :
  best_of q offered ->
  (detail.m_q q = [] -> detail.max_key q = DblMax) /\
  (detail.m_q q <> [] ->
   exists it, In it offered /\
     detail.max_key q = detail.l2dist D (el it) value /\
     forall e, In e (detail.m_q q) ->
       dbl_leb (fst e) (detail.max_key q) = true) /\
  (forall I p, I < D -> In p offered ->
     length (detail.m_q q) < detail.m_n q ->
     dbl_leb (detail.dist_nth I value (el p)) (detail.max_key q) = true).
Proof.
  intros Hq. split; [|split].
  - unfold detail.max_key. now intros ->.
  - destruct Hq as (its & rest & Eq & Hs & Hp & Hc & Hn).
    unfold detail.max_key. rewrite Eq.
    destruct its as [|h t]; [now intros []|intros _].
    exists h. split; [|split].
    + apply (Permutation_in _ (Permutation_sym Hp)). now left.
    + reflexivity.
    + intros e He. apply in_map_iff in He. destruct He as (i & <- & Hi).
      cbn [map entry fst]. unfold dbl_leb, detail.l2dist, dbl_ltb.
      apply negb_true_iff, Z.ltb_ge.
      apply (farthest_first_head h i t Hs Hi).
  - intros I p HI Hin Hlen.
    destruct (dbl_leb (detail.dist_nth I value (el p)) (detail.max_key q))
      eqn:Ek; [reflexivity|exfalso].
    destruct Hq as (its0 & rest0 & Eq0 & Hs0 & Hp0 & Hc0 & Hn0).
    rewrite Eq0, length_map in Hlen.
    assert (rest0 = []).
    { pose proof (Permutation_length Hp0) as Hl0. rewrite length_app in Hl0.
      destruct rest0; [reflexivity|cbn [length] in *; lia]. }
    subst rest0. rewrite app_nil_r in Hp0.
    apply (Permutation_in _ Hp0) in Hin.
    unfold detail.max_key in Ek. rewrite Eq0 in Ek.
    destruct its0 as [|h t]; [destruct Hin|].
    cbn [map entry fst] in Ek.
    unfold dbl_leb, detail.l2dist, detail.dist_nth, scalar_dist, scalar_diff,
      dbl_ltb in Ek.
    apply negb_false_iff, Z.ltb_lt in Ek.
    pose proof (sum_of_squares_axis D I (el p) value HI).
    pose proof (farthest_first_head h p t Hs0 Hin). nia.
Qed.

Lemma map_elt_seq : map el (seq 0 (length A)) = A.
Proof.
  unfold elt. induction A as [|x l IH]; [reflexivity|].
  cbn [length seq map nth]. f_equal.
  rewrite <- seq_shift, map_map. exact IH.
Qed.

(** The whole k-nearest-neighbour search on a kd-sorted array. *)
Lemma kd_nearest_neighbors_spec (n : nat) (outp : list point) :
  kd_tree 0 0 (length A) ->
  exists its rest,
    kd_nearest_neighbors D stray A 0 (length A) value n outp
      = Done (outp ++ map el its) /\
    length its = Nat.min n (length A) /\
    Permutation (seq 0 (length A)) (its ++ rest) /\
    (forall i j, In i its -> In j rest -> (d i <= d j)%Z) /\
    farthest_first its.
Proof.
  intros T.
  destruct (knn_spec 0 0 (length A) T HD (Nat.le_0_l _) (Nat.le_refl _)
              (length A - 0) (detail.n_best_new n) [] (Nat.le_refl _)
              (best_of_new n))
    as (q & Eq & Hq & Hn).
  rewrite app_nil_r in Hq.
  destruct Hq as (its & rest & Em & Hs & Hp & Hc & Hlen).
  exists its, rest. split; [|repeat split; auto].
  - unfold kd_nearest_neighbors. rewrite Eq. cbn [bind].
    unfold detail.copy_to. rewrite Em. apply copy_to__spec.
    intros i Hi.
    assert (Hin : In i (seq 0 (length A - 0))).
    { apply (Permutation_in _ (Permutation_sym Hp)).
      apply in_or_app. now left. }
    apply in_seq in Hin. lia.
  - rewrite Hlen, Hn, length_seq. cbn [detail.n_best_new detail.m_n].
    now rewrite Nat.sub_0_r.
  - now rewrite Nat.sub_0_r in Hp.
Qed.

End KnnFacts.

(** X29. On an array of at least [k] elements that [kd_is_sorted]
    accepts, [kd_nearest_neighbors] emits [k] elements of the array, each
    array position at most once: none of the elements left out is closer
    to the probe than any emitted one, and the emitted elements come
    farthest first, the order in which the queue pops them. *)
Theorem kd_nearest_neighbors_k_best (D : nat) (stray : nat -> outcome point)
    (A : list point) (value : point) (k : nat) (outp : list point) :
  0 < D -> k <= length A ->
  kd_is_sorted D stray A 0 (length A) = Done true ->
  exists its rest,
    kd_nearest_neighbors D stray A 0 (length A) value k outp
      = Done (outp ++ map (elt A) its) /\
    length its = k /\
    Permutation (seq 0 (length A)) (its ++ rest) /\
    Permutation A (map (elt A) its ++ map (elt A) rest) /\
    (forall i j, In i its -> In j rest ->
       dbl_leb (detail.l2dist D (elt A i) value)
               (detail.l2dist D (elt A j) value) = true) /\
    StronglySorted
      (fun i j => dbl_leb (detail.l2dist D (elt A j) value)
                          (detail.l2dist D (elt A i) value) = true) its.
Proof.
  intros HD Hk Hs.
  apply kd_is_sorted_tree in Hs; [|apply Nat.le_refl].
  destruct (kd_nearest_neighbors_spec D HD stray A value k outp Hs)
    as (its & rest & E & Hlen & Hp & Hc & Hso).
  exists its, rest. split; [exact E|]. split; [lia|]. split; [exact Hp|].
  split; [|split].
  - rewrite <- map_app, <- Hp. now rewrite map_elt_seq.
  - intros i j Hi Hj. unfold dbl_leb, detail.l2dist, dbl_ltb.
    apply negb_true_iff, Z.ltb_ge. now apply Hc.
  - unfold farthest_first in Hso. clear -Hso.
    induction Hso as [|h t Ht IH Hh]; [constructor|].
    constructor; [exact IH|].
    eapply Forall_impl; [|exact Hh]. cbv beta. intros j Hj.
    unfold dbl_leb, detail.l2dist, dbl_ltb.
    now apply negb_true_iff, Z.ltb_ge.
Qed.

Lemma kd_nearest_neighbors_k_best_witness :
  exists its rest,
    kd_nearest_neighbors 2 trap [[0;0];[1;5];[5;1];[10;10]]%Z 0 4 [2;2]%Z 3 []
      = Done ([] ++ map (elt [[0;0];[1;5];[5;1];[10;10]]%Z) its) /\
    length its = 3 /\
    Permutation (seq 0 4) (its ++ rest) /\
    Permutation [[0;0];[1;5];[5;1];[10;10]]%Z
      (map (elt [[0;0];[1;5];[5;1];[10;10]]%Z) its ++
       map (elt [[0;0];[1;5];[5;1];[10;10]]%Z) rest) /\
    (forall i j, In i its -> In j rest ->
       dbl_leb (detail.l2dist 2 (elt [[0;0];[1;5];[5;1];[10;10]]%Z i) [2;2]%Z)
               (detail.l2dist 2 (elt [[0;0];[1;5];[5;1];[10;10]]%Z j) [2;2]%Z)
         = true) /\
    StronglySorted
      (fun i j =>
         dbl_leb (detail.l2dist 2 (elt [[0;0];[1;5];[5;1];[10;10]]%Z j) [2;2]%Z)
                 (detail.l2dist 2 (elt [[0;0];[1;5];[5;1];[10;10]]%Z i) [2;2]%Z)
           = true) its.
Proof.
  apply (kd_nearest_neighbors_k_best 2 trap
           [[0;0];[1;5];[5;1];[10;10]]%Z [2;2]%Z 3 []).
  - lia.
  - simpl. lia.
  - reflexivity.
Defined.

(** C5, as the code has it.  [max_key] returns
    [numeric_limits<Key>::max()] when the queue is empty and the greatest
    stored distance, that of the top, as soon as it holds an entry, full or
    not.  The far side is still never pruned early: while the queue of a
    search holds fewer entries than its bound it has dropped none, the
    pivot it was just offered is among them, and [dist_nth] to the pivot
    is at most [max_key]. *)
Theorem max_key_top_unless_empty (D : nat) (A : list point) (value : point)
    (q : detail.n_best) (offered : list nat) :
  0 < D ->
  best_of D A value q offered ->
  (detail.m_q q = [] -> detail.max_key q = DblMax) /\
  (detail.m_q q <> [] ->
   exists it, In it offered /\
     detail.max_key q = detail.l2dist D (elt A it) value /\
     forall e, In e (detail.m_q q) ->
       dbl_leb (fst e) (detail.max_key q) = true) /\
  (forall I p, I < D -> In p offered ->
     length (detail.m_q q) < detail.m_n q ->
     dbl_leb (detail.dist_nth I value (elt A p)) (detail.max_key q) = true).
Proof.
  intros HD Hq. now apply max_key_spec.
Qed.

(** ** [kd_equal_range] *)

Section EqualRangeFacts.

Variable D : nat.
Hypothesis HD : 0 < D.
Variable g : point.
Variable A : list point.
Variable value : point.

Lemma none_less_refl (x : point) : detail.none_less D x x = true.
Proof.
  apply none_less_spec; [exact HD|]. intros; lia.
Qed.

End EqualRangeFacts.

(** C8 as stated fails.  The array below holds three copies of [(7,7,7)]
    and [(7,8,7)]; [kd_sort] leaves it as it is, kd-sorted, and
    [kd_equal_range] returns the whole array, [(7,8,7)] included:
    [kd_upper_bound] looks for an element greater on every axis. *)
Lemma equal_range_holds_another_point :
  count_occ point_eq_dec [[7;7;7];[7;7;7];[7;7;7];[7;8;7]]%Z [7;7;7]%Z = 3 /\
  kd_sort_ref 3 [[7;7;7];[7;7;7];[7;7;7];[7;8;7]]%Z
    = Done [[7;7;7];[7;7;7];[7;7;7];[7;8;7]]%Z /\
  kd_is_sorted 3 trap [[7;7;7];[7;7;7];[7;7;7];[7;8;7]]%Z 0 4 = Done true /\
  kd_equal_range 3 trap [[7;7;7];[7;7;7];[7;7;7];[7;8;7]]%Z 0 4 [7;7;7]%Z
    = Done (0, 4) /\
  span [[7;7;7];[7;7;7];[7;7;7];[7;8;7]]%Z 0 4
    = [[7;7;7];[7;7;7];[7;7;7];[7;8;7]]%Z /\
  ~ Permutation (span [[7;7;7];[7;7;7];[7;7;7];[7;8;7]]%Z 0 4)
      [[7;7;7];[7;7;7];[7;7;7]]%Z.
Proof.
  repeat split; try reflexivity.
  intros P. apply Permutation_length in P. discriminate.
Qed.

(** ** The reference implementations rearrange *)

Lemma insert_by_perm (pred : point -> point -> bool) (x : point)
    (l : list point) :
  Permutation (insert_by pred x l) (x :: l).
Proof.
  induction l as [|h t IH]; [reflexivity|]. cbn [insert_by].
  destruct (pred x h); [reflexivity|].
  rewrite IH. apply perm_swap.
Qed.

Lemma nth_element_ref_perm (pred : point -> point -> bool) (l : list point)
    (nth : nat) :
  Permutation (nth_element_ref pred l nth) l.
Proof.
  unfold nth_element_ref, sort_by.
  induction l as [|x l IH]; [reflexivity|]. cbn [fold_right].
  rewrite insert_by_perm. now apply perm_skip.
Qed.

Lemma partition_ref_perm (pred : point -> bool) (l : list point) :
  Permutation (fst (partition_ref pred l)) l.
Proof.
  unfold partition_ref. cbn [fst].
  induction l as [|x l IH]; [reflexivity|]. cbn [filter].
  destruct (pred x); cbn [negb app].
  - now apply perm_skip.
  - rewrite <- Permutation_middle. now apply perm_skip.
Qed.

(** ** The reference implementations meet the standard *)

Section ReferenceFacts.

Variable D : nat.
Variable I : nat.

Local Abbreviation lt := (detail.kd_less D I).
Local Abbreviation le := (fun x y => detail.kd_less D I y x = false).

Lemma kd_less_irrefl (x : point) : lt x x = false.
Proof.
  unfold detail.kd_less. generalize (D - 1) I.
  intros rest. induction rest as [|rest IH]; intros J; simpl.
  - apply Z.ltb_irrefl.
  - rewrite Z.eqb_refl. apply IH.
Qed.

Lemma le_trans (x y z : point) : le x y -> le y z -> le x z.
Proof.
  cbv beta. intros Hxy Hyz.
  destruct (lt z x) eqn:E; [|reflexivity].
  unfold detail.kd_less in *.
  rewrite (kd_less_lt_le_trans D (D - 1) I z x y E Hxy) in Hyz. discriminate.
Qed.

Lemma insert_by_sorted (x : point) (l : list point) :
  StronglySorted le l -> StronglySorted le (insert_by lt x l).
Proof.
  induction l as [|h t IH]; intros Hs; cbn [insert_by].
  - constructor; constructor.
  - apply StronglySorted_inv in Hs as Hs'. destruct Hs' as [Ht Hh].
    destruct (lt x h) eqn:E.
    + constructor; [exact Hs|].
      assert (Hxh : le x h) by (apply (kd_less_asym D (D - 1) I); exact E).
      constructor; [exact Hxh|].
      eapply Forall_impl; [|exact Hh]. cbv beta. intros y Hy.
      exact (le_trans x h y Hxh Hy).
    + constructor; [now apply IH|].
      eapply Permutation_Forall; [symmetry; apply insert_by_perm|].
      constructor; [exact E|exact Hh].
Qed.

Lemma sort_by_sorted (l : list point) : StronglySorted le (sort_by lt l).
Proof.
  unfold sort_by. induction l as [|x l IH]; cbn [fold_right].
  - constructor.
  - now apply insert_by_sorted.
Qed.

Lemma sorted_nth (l : list point) :
  StronglySorted le l ->
  forall i j, i <= j -> j < length l -> le (nth i l []) (nth j l []).
Proof.
  intros Hs. induction Hs as [|h t Ht IH Hh]; intros i j Hij Hj.
  - simpl in Hj. lia.
  - destruct i as [|i], j as [|j]; cbn [nth]; cbn [length] in Hj.
    + apply kd_less_irrefl.
    + rewrite Forall_forall in Hh. apply Hh. apply nth_In. lia.
    + lia.
    + apply IH; lia.
Qed.

End ReferenceFacts.

Lemma nth_element_ref_ok (D : nat) : nth_element_ok D nth_element_ref.
Proof.
  intros I l n Hn. split; [apply nth_element_ref_perm|].
  intros i j Hi Hj Hjl. unfold nth_element_ref.
  apply (sorted_nth D I (sort_by (detail.kd_less D I) l)
           (sort_by_sorted D I l) i j); [lia|].
  pose proof (Permutation_length
                (nth_element_ref_perm (detail.kd_less D I) l n)) as E.
  unfold nth_element_ref in E. now rewrite E.
Qed.

Lemma partition_ref_ok : partition_ok partition_ref.
Proof.
  intros pred l. split; [apply partition_ref_perm|].
  unfold partition_ref. cbn [fst snd].
  assert (Hlen : length (filter pred l) + length (filter (fun x => negb (pred x)) l)
                 = length l).
  { rewrite <- length_app.
    apply Permutation_length, (partition_ref_perm pred l). }
  split; [lia|]. split.
  - intros i Hi. rewrite app_nth1 by exact Hi.
    assert (Hin : In (nth i (filter pred l) []) (filter pred l))
      by (apply nth_In; exact Hi).
    now apply filter_In in Hin.
  - intros i Hi. rewrite app_nth2 by lia.
    assert (Hin : In (nth (i - length (filter pred l))
                        (filter (fun x => negb (pred x)) l) [])
                     (filter (fun x => negb (pred x)) l))
      by (apply nth_In; lia).
    apply filter_In in Hin. now apply negb_true_iff.
Qed.

Lemma kd_sort_preserves_elements_witness :
  (forall A, exists A',
     kd_sort 2 nth_element_ref partition_ref A = Done A' /\
     Permutation A A') /\
  (forall I l, exists l',
     detail.kd_sort 2 nth_element_ref partition_ref (length l) I l = Done l' /\
     Permutation l l') /\
  (forall l pivot pred,
     Permutation (fst (detail.adjust_pivot partition_ref l pivot pred)) l).
Proof.
  apply (kd_sort_preserves_elements 2 nth_element_ref partition_ref).
  - intros pred l nth _. apply nth_element_ref_perm.
  - apply partition_ref_perm.
Defined.

Lemma max_key_top_unless_empty_witness :
  (detail.m_q (detail.add (detail.n_best_new 2)
                 (detail.l2dist 1 (elt [[0];[3]]%Z 0) [1]%Z) 0) = [] ->
   detail.max_key (detail.add (detail.n_best_new 2)
                     (detail.l2dist 1 (elt [[0];[3]]%Z 0) [1]%Z) 0) = DblMax) /\
  (detail.m_q (detail.add (detail.n_best_new 2)
                 (detail.l2dist 1 (elt [[0];[3]]%Z 0) [1]%Z) 0) <> [] ->
   exists it, In it [0] /\
     detail.max_key (detail.add (detail.n_best_new 2)
                       (detail.l2dist 1 (elt [[0];[3]]%Z 0) [1]%Z) 0)
       = detail.l2dist 1 (elt [[0];[3]]%Z it) [1]%Z /\
     forall e,
       In e (detail.m_q (detail.add (detail.n_best_new 2)
                           (detail.l2dist 1 (elt [[0];[3]]%Z 0) [1]%Z) 0)) ->
       dbl_leb (fst e)
         (detail.max_key (detail.add (detail.n_best_new 2)
                            (detail.l2dist 1 (elt [[0];[3]]%Z 0) [1]%Z) 0))
         = true) /\
  (forall I p, I < 1 -> In p [0] ->
     length (detail.m_q (detail.add (detail.n_best_new 2)
                           (detail.l2dist 1 (elt [[0];[3]]%Z 0) [1]%Z) 0))
       < detail.m_n (detail.add (detail.n_best_new 2)
                       (detail.l2dist 1 (elt [[0];[3]]%Z 0) [1]%Z) 0) ->
     dbl_leb (detail.dist_nth I [1]%Z (elt [[0];[3]]%Z p))
       (detail.max_key (detail.add (detail.n_best_new 2)
                          (detail.l2dist 1 (elt [[0];[3]]%Z 0) [1]%Z) 0))
       = true).
Proof.
  apply (max_key_top_unless_empty 1 [[0];[3]]%Z [1]%Z
           (detail.add (detail.n_best_new 2)
              (detail.l2dist 1 (elt [[0];[3]]%Z 0) [1]%Z) 0) [0]).
  - lia.
  - apply best_of_add; [lia|]. apply best_of_new.
Defined.

(** C5 as stated fails.  A queue bounded by 2 that holds one entry, as
    [knn] leaves it on a one-element array, has the distance of that entry
    for [max_key], not [numeric_limits<Key>::max()]. *)
Lemma max_key_below_bound_is_top :
  detail.knn 1 trap [[0]]%Z 1 0 0 1 [2]%Z (detail.n_best_new 2)
    = Done (detail.Build_n_best 2 [(Sqrt 4, 0)]) /\
  length (detail.m_q (detail.Build_n_best 2 [(Sqrt 4, 0)])) = 1 /\
  detail.m_n (detail.Build_n_best 2 [(Sqrt 4, 0)]) = 2 /\
  detail.max_key (detail.Build_n_best 2 [(Sqrt 4, 0)]) = Sqrt 4 /\
  detail.max_key (detail.Build_n_best 2 [(Sqrt 4, 0)]) <> DblMax.
Proof.
  repeat split; try reflexivity. discriminate.
Qed.

(** ** Where the code departs from its purpose *)

(** Whatever conforming [nth_element] and [partition] are used, the first
    step of [kd_sort<0>] leaves [(0,0), (0,1), (1,0)] in place with the
    pivot at offset 1. *)
Lemma first_step_forced
    (nth_element : (point -> point -> bool) -> list point -> nat -> list point)
    (partition : (point -> bool) -> list point -> list point * nat) :
  nth_element_ok 2 nth_element -> partition_ok partition ->
  nth_element (detail.kd_less 2 0) [[0;0];[0;1];[1;0]]%Z 1
    = [[0;0];[0;1];[1;0]]%Z /\
  partition (fun x => detail.kd_less 2 0 x [0;1]%Z) [[0;0]]%Z
    = ([[0;0]]%Z, 1).
Proof.
  intros Hn Hp. split.
  - destruct (Hn 0 [[0;0];[0;1];[1;0]]%Z 1 ltac:(simpl; lia)) as [P Ho].
    remember (nth_element (detail.kd_less 2 0) [[0;0];[0;1];[1;0]]%Z 1)
      as res eqn:Er. clear Er.
    pose proof (Permutation_length P) as Hl.
    destruct res as [|a [|b [|c [|? ?]]]]; try discriminate Hl.
    pose proof (Ho 0 1 ltac:(lia) ltac:(lia) ltac:(simpl; lia)) as H01.
    pose proof (Ho 0 2 ltac:(lia) ltac:(lia) ltac:(simpl; lia)) as H02.
    pose proof (Ho 1 2 ltac:(lia) ltac:(lia) ltac:(simpl; lia)) as H12.
    cbn [nth] in H01, H02, H12.
    assert (Hnd : NoDup [a; b; c]).
    { apply (Permutation_NoDup (Permutation_sym P)).
      repeat constructor; simpl; intuition discriminate. }
    assert (Ha : In a [[0;0];[0;1];[1;0]]%Z)
      by (apply (Permutation_in _ P); simpl; auto).
    assert (Hb : In b [[0;0];[0;1];[1;0]]%Z)
      by (apply (Permutation_in _ P); simpl; auto).
    assert (Hc : In c [[0;0];[0;1];[1;0]]%Z)
      by (apply (Permutation_in _ P); simpl; auto).
    inversion Hnd as [|? ? Hn1 Hnd']; subst.
    inversion Hnd' as [|? ? Hn2 _]; subst.
    simpl in Ha, Hb, Hc, Hn1, Hn2.
    destruct Ha as [<-|[<-|[<-|[]]]]; destruct Hb as [<-|[<-|[<-|[]]]];
      destruct Hc as [<-|[<-|[<-|[]]]];
      try reflexivity; try tauto;
      try (vm_compute in H01; discriminate H01);
      try (vm_compute in H02; discriminate H02);
      try (vm_compute in H12; discriminate H12).
  - destruct (Hp (fun x => detail.kd_less 2 0 x [0;1]%Z) [[0;0]]%Z)
      as (P & Hle & Ht & Hf).
    destruct (partition (fun x => detail.kd_less 2 0 x [0;1]%Z) [[0;0]]%Z)
      as [l1 p].
    cbn [fst snd length] in *.
    apply Permutation_sym, Permutation_length_1_inv in P. subst l1.
    destruct p as [|[|p]]; [|reflexivity|lia].
    specialize (Hf 0 ltac:(lia)). vm_compute in Hf. discriminate Hf.
Qed.

(** C1 fails on the code.  Whatever conforming [nth_element] and
    [partition] it runs on, [kd_sort] leaves the array [(0,0), (0,1),
    (1,0)] as it is: the pivot is [(0,1)], at offset 1, with [(0,0)]
    before it under [kd_less<0>].  [kd_is_sorted] then takes
    [find_pivot<0>], which compares axis 0 only and stops at [(0,0)],
    iterator 0, not at the builder's pivot, and rejects the right part
    [(0,1), (1,0)] on axis 1. *)
Theorem kd_sort_output_rejected
    (nth_element : (point -> point -> bool) -> list point -> nat -> list point)
    (partition : (point -> bool) -> list point -> list point * nat) :
  nth_element_ok 2 nth_element -> partition_ok partition ->
  kd_sort 2 nth_element partition [[0;0];[0;1];[1;0]]%Z
    = Done [[0;0];[0;1];[1;0]]%Z /\
  detail.adjust_pivot partition
    (nth_element (detail.kd_less 2 0) [[0;0];[0;1];[1;0]]%Z 1) 1
    (detail.kd_less 2 0) = ([[0;0];[0;1];[1;0]]%Z, 1) /\
  detail.find_pivot trap [[0;0];[0;1];[1;0]]%Z 0 0 3 = Done 0 /\
  kd_is_sorted 2 trap [[0;0];[0;1];[1;0]]%Z 0 3 = Done false.
Proof.
  intros Hn Hp.
  destruct (first_step_forced nth_element partition Hn Hp) as [En Ep].
  assert (Ea : detail.adjust_pivot partition
                 (nth_element (detail.kd_less 2 0) [[0;0];[0;1];[1;0]]%Z 1) 1
                 (detail.kd_less 2 0) = ([[0;0];[0;1];[1;0]]%Z, 1)).
  { rewrite En. unfold detail.adjust_pivot. cbn [skipn firstn].
    match goal with
    | |- (let (l1, p) := ?X in _) = _ =>
        replace X with ([[0;0]]%Z : list point, 1) by (symmetry; exact Ep)
    end.
    reflexivity. }
  split; [|split; [exact Ea|split; reflexivity]].
  unfold kd_sort. cbn [length detail.kd_sort Nat.ltb Nat.leb].
  change (middle_of 0 3) with 1. rewrite Ea. reflexivity.
Qed.

Lemma kd_sort_output_rejected_witness :
  kd_sort 2 nth_element_ref partition_ref [[0;0];[0;1];[1;0]]%Z
    = Done [[0;0];[0;1];[1;0]]%Z /\
  detail.adjust_pivot partition_ref
    (nth_element_ref (detail.kd_less 2 0) [[0;0];[0;1];[1;0]]%Z 1) 1
    (detail.kd_less 2 0) = ([[0;0];[0;1];[1;0]]%Z, 1) /\
  detail.find_pivot trap [[0;0];[0;1];[1;0]]%Z 0 0 3 = Done 0 /\
  kd_is_sorted 2 trap [[0;0];[0;1];[1;0]]%Z 0 3 = Done false.
Proof.
  apply (kd_sort_output_rejected nth_element_ref partition_ref).
  - apply nth_element_ref_ok.
  - apply partition_ref_ok.
Defined.

(** What the rejection means for a query.  [kd_sort] leaves the four
    distinct points below as they are; the array holds the probe [(1,0)],
    and [kd_nearest_neighbor] returns iterator 0, the point [(0,0)], at
    distance 1. *)
Example nearest_neighbor_after_kd_sort :
  kd_sort_ref 2 [[0;0];[0;1];[0;2];[1;0]]%Z
    = Done [[0;0];[0;1];[0;2];[1;0]]%Z /\
  kd_is_sorted 2 trap [[0;0];[0;1];[0;2];[1;0]]%Z 0 4 = Done false /\
  kd_nearest_neighbor 2 trap [[0;0];[0;1];[0;2];[1;0]]%Z 0 4 [1;0]%Z
    = Done 0 /\
  detail.l2dist 2 (elt [[0;0];[0;1];[0;2];[1;0]]%Z 0) [1;0]%Z = Sqrt 1 /\
  detail.l2dist 2 (elt [[0;0];[0;1];[0;2];[1;0]]%Z 3) [1;0]%Z = Sqrt 0.
Proof.
  repeat split; reflexivity.
Qed.

(** C10 fails on the code.  On the two-element array [(0), (1)] probed
    at [(5)] the pivot is the last element, the right subrange is empty,
    and the base case of both searches dereferences its [first], which is
    one past the end of the array; on the empty array the first call does. *)
Theorem bound_search_reads_past_the_end :
  kd_is_sorted 1 trap [[0];[1]]%Z 0 2 = Done true /\
  detail.find_pivot trap [[0];[1]]%Z 0 0 2 = Done 1 /\
  kd_lower_bound 1 trap [[0];[1]]%Z 0 2 [5]%Z = BadRead 2 /\
  kd_upper_bound 1 trap [[0];[1]]%Z 0 2 [5]%Z = BadRead 2 /\
  kd_lower_bound 1 trap [] 0 0 [5]%Z = BadRead 0 /\
  kd_upper_bound 1 trap [] 0 0 [5]%Z = BadRead 0.
Proof.
  repeat split; reflexivity.
Qed.

(** * Further properties of the code *)

(** ** Comparators and geometry *)

Section OrderFacts.

Variable D : nat.

Lemma kd_less_incomparable (rest I : nat) (x y : point) :
  detail.kd_less_ D rest I x y = false ->
  detail.kd_less_ D rest I y x = false ->
  forall a, In a (axes D rest I) -> get a x = get a y.
Proof.
  revert I. induction rest as [|rest IH]; intros I; simpl.
  - rewrite !Z.ltb_ge. intros H1 H2 a [<-|[]]. lia.
  - destruct (Z.eqb_spec (get I x) (get I y)) as [E|E];
      destruct (Z.eqb_spec (get I y) (get I x)) as [E'|E']; try lia.
    intros H1 H2 a [<-|Ha]; [exact E|]. now apply (IH _ H1 H2).
Qed.

Lemma kd_less_equal_axes (rest I : nat) (x y : point) :
  (forall a, In a (axes D rest I) -> get a x = get a y) ->
  detail.kd_less_ D rest I x y = false.
Proof.
  revert I. induction rest as [|rest IH]; intros I H; simpl.
  - rewrite (H I (or_introl eq_refl)). apply Z.ltb_irrefl.
  - rewrite (H I (or_introl eq_refl)), Z.eqb_refl.
    apply IH. intros a Ha. apply H. now right.
Qed.

Lemma kd_compare_lt (rest I : nat) (x y : point) :
  detail.kd_compare_ D Z.ltb rest I x y = detail.kd_less_ D rest I x y.
Proof.
  revert I. induction rest as [|rest IH]; intros I; simpl; [reflexivity|].
  rewrite IH.
  destruct (Z.eqb_spec (get I x) (get I y)) as [E|E].
  - rewrite E, Z.ltb_irrefl. reflexivity.
  - destruct (Z.ltb_spec (get I x) (get I y)) as [H|H];
      destruct (Z.ltb_spec (get I y) (get I x)) as [H'|H'];
      try reflexivity; lia.
Qed.

Lemma kd_compare_gt (rest I : nat) (x y : point) :
  detail.kd_compare_ D Z.gtb rest I x y = detail.kd_less_ D rest I y x.
Proof.
  revert I. induction rest as [|rest IH]; intros I; simpl.
  - apply Z.gtb_ltb.
  - rewrite IH, !Z.gtb_ltb.
    destruct (Z.eqb_spec (get I y) (get I x)) as [E|E].
    + rewrite E, Z.ltb_irrefl. reflexivity.
    + destruct (Z.ltb_spec (get I x) (get I y)) as [H|H];
        destruct (Z.ltb_spec (get I y) (get I x)) as [H'|H'];
        try reflexivity; lia.
Qed.

Lemma sum_of_squares__sym (rest I : nat) (x y : point) :
  detail.sum_of_squares_ rest I x y = detail.sum_of_squares_ rest I y x.
Proof.
  revert I. induction rest as [|rest IH]; intros I; simpl;
    unfold detail.diff_nth, scalar_diff; [|rewrite IH]; nia.
Qed.

Lemma sum_of_squares__zero (rest I : nat) (x y : point) :
  detail.sum_of_squares_ rest I x y = 0%Z <->
  (forall a, I <= a <= I + rest -> get a x = get a y).
Proof.
  revert I. induction rest as [|rest IH]; intros I;
    cbn [detail.sum_of_squares_]; unfold detail.diff_nth, scalar_diff.
  - split.
    + intros H a Ha. replace a with I by lia. nia.
    + intros H. rewrite (H I) by lia. nia.
  - pose proof (sum_of_squares__axis rest (I + 1) x y) as [H0 _].
    split.
    + intros H a Ha. destruct (Nat.eq_dec a I) as [->|Hne]; [nia|].
      apply (proj1 (IH (I + 1))); [nia|lia].
    + intros H.
      assert (E : detail.sum_of_squares_ rest (I + 1) x y = 0%Z)
        by (apply IH; intros a Ha; apply H; lia).
      rewrite E, (H I) by lia. nia.
Qed.

End OrderFacts.

(** X1. [kd_less<I>] is a strict order on points whose equivalence is
    agreement on every axis. *)
Theorem kd_less_strict_order (D I : nat) :
  I < D ->
  (forall x, detail.kd_less D I x x = false) /\
  (forall x y, detail.kd_less D I x y = true ->
     detail.kd_less D I y x = false) /\
  (forall x y z, detail.kd_less D I x y = true ->
     detail.kd_less D I y z = true -> detail.kd_less D I x z = true) /\
  (forall x y,
     (detail.kd_less D I x y = false /\ detail.kd_less D I y x = false) <->
     (forall a, a < D -> get a x = get a y)).
Proof.
  intros HI. assert (HD : 0 < D) by lia.
  split; [|split; [|split]].
  - intros x. apply kd_less_irrefl.
  - intros x y. apply kd_less_asym.
  - intros x y z Hxy Hyz. unfold detail.kd_less in *.
    apply (kd_less_lt_le_trans D (D - 1) I x y z Hxy).
    now apply kd_less_asym.
  - intros x y. split.
    + intros [H1 H2] a Ha.
      apply (kd_less_incomparable D (D - 1) I x y H1 H2).
      now apply axes_all.
    + intros H. split; apply kd_less_equal_axes; intros a Ha.
      * apply H. exact (axes_lt D (D - 1) I a HD HI Ha).
      * symmetry. apply H. exact (axes_lt D (D - 1) I a HD HI Ha).
Qed.

Lemma kd_less_strict_order_witness :
  (forall x, detail.kd_less 3 1 x x = false) /\
  (forall x y, detail.kd_less 3 1 x y = true ->
     detail.kd_less 3 1 y x = false) /\
  (forall x y z, detail.kd_less 3 1 x y = true ->
     detail.kd_less 3 1 y z = true -> detail.kd_less 3 1 x z = true) /\
  (forall x y,
     (detail.kd_less 3 1 x y = false /\ detail.kd_less 3 1 y x = false) <->
     (forall a, a < 3 -> get a x = get a y)).
Proof.
  apply (kd_less_strict_order 3 1). lia.
Defined.

(** X2. Under the order [<] on scalars [kd_compare] is [kd_less], and
    under [>] it is [kd_less] with its arguments exchanged. *)
Theorem kd_compare_natural_orders (D I : nat) (x y : point) :
  detail.kd_compare D Z.ltb I x y = detail.kd_less D I x y /\
  detail.make_kd_compare D I Z.ltb x y = detail.kd_less D I x y /\
  detail.kd_compare D Z.gtb I x y = detail.kd_less D I y x.
Proof.
  unfold detail.make_kd_compare, detail.kd_compare, detail.kd_less.
  split; [|split].
  - apply kd_compare_lt.
  - apply kd_compare_lt.
  - apply kd_compare_gt.
Qed.

(** X3. [within(value, lower, upper)] holds exactly when [value] lies in
    the half-open box on every axis; [all_less] and [none_less] are the
    strict and the weak order on every axis. *)
Theorem within_is_half_open_box (D : nat) (value lower upper : point) :
  0 < D ->
  (detail.within D value lower upper = true <->
   forall a, a < D -> (get a lower <= get a value < get a upper)%Z) /\
  (detail.all_less D value upper = true <->
   forall a, a < D -> (get a value < get a upper)%Z) /\
  (detail.none_less D value lower = true <->
   forall a, a < D -> (get a lower <= get a value)%Z).
Proof.
  intros HD. split; [|split].
  - unfold detail.within.
    rewrite andb_true_iff, none_less_spec, all_less_spec by exact HD.
    split.
    + intros [H1 H2] a Ha. split; [now apply H1|now apply H2].
    + intros H. split; intros a Ha; now apply H.
  - now apply all_less_spec.
  - now apply none_less_spec.
Qed.

Lemma within_is_half_open_box_witness :
  (detail.within 2 [2;4]%Z [2;2]%Z [5;5]%Z = true <->
   forall a, a < 2 ->
     (get a [2;2]%Z <= get a [2;4]%Z < get a [5;5]%Z)%Z) /\
  (detail.all_less 2 [2;4]%Z [5;5]%Z = true <->
   forall a, a < 2 -> (get a [2;4]%Z < get a [5;5]%Z)%Z) /\
  (detail.none_less 2 [2;4]%Z [2;2]%Z = true <->
   forall a, a < 2 -> (get a [2;2]%Z <= get a [2;4]%Z)%Z).
Proof.
  apply (within_is_half_open_box 2 [2;4]%Z [2;2]%Z [5;5]%Z). lia.
Defined.

(** X4. [l2dist] is symmetric, it is zero exactly between points that
    agree on every axis, and no [dist_nth<I>] exceeds it. *)
Theorem l2dist_metric_facts (D : nat) (x y : point) :
  0 < D ->
  detail.l2dist D x y = detail.l2dist D y x /\
  (detail.l2dist D x y = Sqrt 0 <-> forall a, a < D -> get a x = get a y) /\
  (forall I, I < D ->
     dbl_leb (detail.dist_nth I x y) (detail.l2dist D x y) = true).
Proof.
  intros HD. unfold detail.l2dist, detail.sum_of_squares.
  split; [|split].
  - f_equal. apply sum_of_squares__sym.
  - split.
    + intros H. injection H as H. rewrite sum_of_squares__zero in H.
      intros a Ha. apply H. lia.
    + intros H. f_equal. apply sum_of_squares__zero.
      intros a Ha. apply H. lia.
  - intros I HI. unfold dbl_leb, dbl_ltb, detail.dist_nth, scalar_dist,
      scalar_diff.
    apply negb_true_iff, Z.ltb_ge.
    pose proof (sum_of_squares__axis (D - 1) 0 x y) as [_ H].
    specialize (H I ltac:(lia)). nia.
Qed.

Lemma l2dist_metric_facts_witness :
  detail.l2dist 2 [0;0]%Z [3;4]%Z = detail.l2dist 2 [3;4]%Z [0;0]%Z /\
  (detail.l2dist 2 [0;0]%Z [3;4]%Z = Sqrt 0 <->
   forall a, a < 2 -> get a [0;0]%Z = get a [3;4]%Z) /\
  (forall I, I < 2 ->
     dbl_leb (detail.dist_nth I [0;0]%Z [3;4]%Z)
             (detail.l2dist 2 [0;0]%Z [3;4]%Z) = true).
Proof.
  apply (l2dist_metric_facts 2 [0;0]%Z [3;4]%Z). lia.
Defined.

(** ** The verifier on arbitrary arrays *)

Section VerifierFacts.

Variable D : nat.
Variable stray : nat -> outcome point.
Variable A : list point.

Local Abbreviation elt := (elt A).
Local Abbreviation kd_tree := (kd_tree D stray A).

Lemma none_of_iff (pred : point -> bool) (n : nat) :
  forall first, first + n <= length A ->
  exists b,
    detail.none_of stray A n first pred = Done b /\
    (b = true <-> forall i, first <= i < first + n -> pred (elt i) = false).
Proof.
  induction n as [|n IH]; intros first Hl; simpl.
  - exists true. split; [reflexivity|]. split; [intros; lia|reflexivity].
  - rewrite deref_in by lia. cbn [bind].
    destruct (pred (elt first)) eqn:Ep.
    + exists false. split; [reflexivity|]. split; [discriminate|].
      intros H. rewrite (H first) in Ep by lia. discriminate.
    + destruct (IH (S first)) as (b & Hb & Hall); [lia|].
      exists b. split; [exact Hb|]. rewrite Hall. split.
      * intros H i Hi. destruct (Nat.eq_dec i first) as [->|Hne]; [exact Ep|].
        apply H. lia.
      * intros H i Hi. apply H. lia.
Qed.

(** [is_partitioned] returns, and accepts exactly the ranges that split
    into elements that satisfy [pred] followed by elements that do not. *)
Lemma is_partitioned_iff (pred : point -> bool) (first last : nat) :
  first <= last -> last <= length A ->
  exists b,
    detail.is_partitioned stray A first last pred = Done b /\
    (b = true <->
     exists q, first <= q <= last /\
       (forall i, first <= i < q -> pred (elt i) = true) /\
       (forall i, q <= i < last -> pred (elt i) = false)).
Proof.
  intros Hfl Hl. unfold detail.is_partitioned.
  destruct (find_if_not_spec stray A pred (last - first) first)
    as (q & Hq & Hb & Hall & Hend); [lia|].
  rewrite Hq. cbn [bind].
  destruct (Nat.eqb_spec q last) as [->|Hne].
  - exists true. split; [reflexivity|]. split; [|reflexivity].
    intros _. exists last. split; [lia|]. split; [exact Hall|]. intros; lia.
  - destruct (none_of_iff pred (last - S q) (S q)) as (b & Hb' & Hnone); [lia|].
    exists b. split; [exact Hb'|].
    destruct Hend as [Hend|Hend]; [lia|].
    rewrite Hnone. split.
    + intros H. exists q. split; [lia|]. split; [exact Hall|].
      intros i Hi. destruct (Nat.eq_dec i q) as [->|Hiq]; [exact Hend|].
      apply H. lia.
    + intros (q' & Hq' & Ht & Hf) i Hi.
      apply Hf. split; [|lia].
      destruct (Nat.le_gt_cases q' q) as [Hle|Hgt]; [lia|].
      rewrite (Ht q) in Hend by lia. discriminate.
Qed.

(** [kd_is_sorted] reads nothing outside the range, returns, and accepts
    exactly the ranges that are trees around the pivots of [find_pivot]. *)
Lemma kd_is_sorted_iff (fuel : nat) :
  forall I first last, last - first <= fuel -> last <= length A ->
  exists b,
    detail.kd_is_sorted D stray A fuel I first last = Done b /\
    (b = true <-> kd_tree I first last).
Proof.
  assert (Hsmall : forall fuel I first last, last - first < 2 ->
            exists b,
              detail.kd_is_sorted D stray A fuel I first last = Done b /\
              (b = true <-> kd_tree I first last)).
  { intros f I first last Hs. exists true. split.
    - destruct f; cbn [detail.kd_is_sorted];
        destruct (Nat.ltb_spec (last - first) 2); (reflexivity || lia).
    - split; [intros _; now apply kd_tree_leaf|reflexivity]. }
  induction fuel as [|fuel IH]; intros I first last Hf Hl.
  - apply Hsmall. lia.
  - destruct (Nat.lt_ge_cases (last - first) 2) as [Hs|Hs];
      [now apply Hsmall|].
    destruct (find_pivot_spec stray A I first last) as (p & Hp & Hb & Hlo & Hhi);
      [lia|exact Hl|].
    pose proof (middle_of_bounds first last ltac:(lia)) as Hm.
    destruct (IH (detail.next_dim D I) first p) as (bl & El & Hbl); [lia|lia|].
    destruct (IH (detail.next_dim D I) (S p) last) as (br & Er & Hbr);
      [lia|lia|].
    destruct (is_partitioned_iff
                (fun x => detail.kd_less D I x (elt p)) first last)
      as (ok & Eok & Hok); [lia|exact Hl|].
    assert (Eq : detail.kd_is_sorted D stray A (S fuel) I first last
                 = Done (ok && bl && br)%bool).
    { cbn [detail.kd_is_sorted].
      destruct (Nat.ltb_spec (last - first) 2) as [Hs'|Hs']; [lia|].
      rewrite Hp. cbn [bind]. unfold detail.check_partition.
      rewrite deref_in by lia. cbn [bind]. rewrite Eok. cbn [bind].
      destruct ok; [|reflexivity].
      rewrite El. cbn [bind].
      destruct bl; [|reflexivity].
      rewrite Er. now destruct br. }
    exists (ok && bl && br)%bool. split; [exact Eq|]. split.
    + intros H. apply (kd_is_sorted_tree D stray A (S fuel)); [exact Hl|].
      now rewrite Eq, H.
    + intros T. inversion T as [|? ? ? p' Hs1 Hp' Hb' Hlo' Hhi' Tl Tr]; subst;
        [lia|].
      rewrite Hp in Hp'. injection Hp' as <-.
      apply Hbl in Tl. apply Hbr in Tr. subst bl br.
      rewrite !andb_true_r. apply Hok.
      exists p. split; [lia|]. split; [exact Hlo'|exact Hhi'].
Qed.

End VerifierFacts.

(** X5. [find_pivot<I>] on a range of the array returns an iterator from
    [first] up to the middle that holds at least the middle's [I]-th
    coordinate; and when the elements of smaller [I]-th coordinate than
    the middle's come first in the range before the middle, it is the
    first that is not one of them. *)
Theorem find_pivot_first_not_less (stray : nat -> outcome point)
    (A : list point) (I first last : nat) :
  first < last -> last <= length A ->
  exists p,
    detail.find_pivot stray A I first last = Done p /\
    first <= p <= middle_of first last /\
    (get I (elt A (middle_of first last)) <= get I (elt A p))%Z /\
    ((forall i j, first <= i -> i <= j -> j < middle_of first last ->
        detail.less_nth I (elt A j) (elt A (middle_of first last)) = true ->
        detail.less_nth I (elt A i) (elt A (middle_of first last)) = true) ->
     (forall i, first <= i < p ->
        detail.less_nth I (elt A i) (elt A (middle_of first last)) = true) /\
     (forall i, p <= i < middle_of first last ->
        detail.less_nth I (elt A i) (elt A (middle_of first last)) = false)).
Proof.
  intros Hlt Hl.
  destruct (find_pivot_spec stray A I first last Hlt Hl)
    as (p & Hp & Hb & Hlo & Hhi).
  exists p. split; [exact Hp|]. split; [exact Hb|]. split; [exact Hhi|].
  intros Hmono. split.
  - intros i Hi. destruct Hlo as [->|Hlo]; [lia|].
    apply (Hmono i (p - 1)); try lia.
    unfold detail.less_nth. now apply Z.ltb_lt.
  - intros i Hi.
    destruct (detail.less_nth I (elt A i) (elt A (middle_of first last)))
      eqn:E; [|reflexivity].
    apply (Hmono p i) in E; try lia.
    unfold detail.less_nth in E. apply Z.ltb_lt in E. lia.
Qed.

Lemma find_pivot_first_not_less_witness :
  exists p,
    detail.find_pivot trap [[1;0];[1;5];[2;1];[3;3];[0;9]]%Z 0 0 4 = Done p /\
    0 <= p <= middle_of 0 4 /\
    (get 0 (elt [[1;0];[1;5];[2;1];[3;3];[0;9]]%Z (middle_of 0 4))
       <= get 0 (elt [[1;0];[1;5];[2;1];[3;3];[0;9]]%Z p))%Z /\
    ((forall i j, 0 <= i -> i <= j -> j < middle_of 0 4 ->
        detail.less_nth 0 (elt [[1;0];[1;5];[2;1];[3;3];[0;9]]%Z j)
          (elt [[1;0];[1;5];[2;1];[3;3];[0;9]]%Z (middle_of 0 4)) = true ->
        detail.less_nth 0 (elt [[1;0];[1;5];[2;1];[3;3];[0;9]]%Z i)
          (elt [[1;0];[1;5];[2;1];[3;3];[0;9]]%Z (middle_of 0 4)) = true) ->
     (forall i, 0 <= i < p ->
        detail.less_nth 0 (elt [[1;0];[1;5];[2;1];[3;3];[0;9]]%Z i)
          (elt [[1;0];[1;5];[2;1];[3;3];[0;9]]%Z (middle_of 0 4)) = true) /\
     (forall i, p <= i < middle_of 0 4 ->
        detail.less_nth 0 (elt [[1;0];[1;5];[2;1];[3;3];[0;9]]%Z i)
          (elt [[1;0];[1;5];[2;1];[3;3];[0;9]]%Z (middle_of 0 4)) = false)).
Proof.
  apply (find_pivot_first_not_less trap
           [[1;0];[1;5];[2;1];[3;3];[0;9]]%Z 0 0 4); simpl; lia.
Defined.

(** X6. On a range of the array [kd_is_sorted] reads no element outside
    it and returns; it returns true exactly when, at every level, all
    elements before the iterator of [find_pivot] are [kd_less] than its
    element, none from it on is, and both sides are such ranges on the
    next axis. *)
Theorem kd_is_sorted_accepts_trees (D : nat) (A : list point)
    (first last : nat) :
  first <= last -> last <= length A ->
  exists b,
    kd_is_sorted D trap A first last = Done b /\
    (b = true <-> kd_tree D trap A 0 first last).
Proof.
  intros Hfl Hl. unfold kd_is_sorted.
  apply kd_is_sorted_iff; [lia|exact Hl].
Qed.

Lemma kd_is_sorted_accepts_trees_witness :
  exists b,
    kd_is_sorted 2 trap [[9;9];[2;2];[1;4];[3;1];[4;3];[5;5]]%Z 1 6 = Done b /\
    (b = true <->
     kd_tree 2 trap [[9;9];[2;2];[1;4];[3;1];[4;3];[5;5]]%Z 0 1 6).
Proof.
  apply (kd_is_sorted_accepts_trees 2
           [[9;9];[2;2];[1;4];[3;1];[4;3];[5;5]]%Z 1 6); simpl; lia.
Defined.

(** ** The bound searches on arbitrary arrays *)

Section AnyBoundFacts.

Variable D : nat.
Variable g : point.
Variable A : list point.
Variable value : point.

Local Abbreviation stray := (yields g).
Local Abbreviation el := (elt A).

(** A search of the shape of [kd_lower_bound] and [kd_upper_bound], for
    the test [hit] on elements, never returns an iterator whose element
    fails the test, sorted array or not. *)
Lemma kd_lower_bound_sound (fuel : nat) :
  forall I first last, last - first <= fuel ->
  first <= last -> last <= length A ->
  exists r,
    detail.kd_lower_bound D stray A fuel I first last value = Done r /\
    first <= r <= last /\
    (r < last -> detail.none_less D (el r) value = true).
Proof.
  assert (Hbase : forall fuel I first last, last - first <= 1 ->
            first <= last -> last <= length A ->
            exists r,
              detail.kd_lower_bound D stray A fuel I first last value
                = Done r /\
              first <= r <= last /\
              (r < last -> detail.none_less D (el r) value = true)).
  { intros f I first last Hs Hfl Hl.
    assert (E : (1 <? last - first) = false) by (apply Nat.ltb_ge; lia).
    destruct f; cbn [detail.kd_lower_bound]; rewrite E.
    all: rewrite deref_yields; cbn [bind].
    all: destruct (Nat.eq_dec first last) as [->|Hne];
      [ exists last; split;
        [ now destruct (detail.none_less D (nth last A g) value) | ];
        split; [lia|]; intros; lia
      | ].
    all: replace (nth first A g) with (el first)
      by (unfold elt; apply nth_indep; lia).
    all: destruct (detail.none_less D (el first) value) eqn:En.
    all: try (exists first; split; [reflexivity|]; split; [lia|];
              intros _; exact En).
    all: exists last; split; [reflexivity|]; split; [lia|]; intros; lia. }
  induction fuel as [|fuel IH]; intros I first last Hf Hfl Hl.
  - apply Hbase; lia.
  - destruct (Nat.le_gt_cases (last - first) 1) as [Hs|Hs];
      [now apply Hbase|].
    cbn [detail.kd_lower_bound].
    assert (E : (1 <? last - first) = true) by (apply Nat.ltb_lt; lia).
    destruct (find_pivot_spec stray A I first last) as (p & Hp & Hb & _ & _);
      [lia|exact Hl|].
    pose proof (middle_of_bounds first last ltac:(lia)) as Hm.
    rewrite E, Hp. cbn [bind]. rewrite deref_in by lia. cbn [bind].
    destruct (IH (detail.next_dim D I) first p) as (rl & Erl & Hrl & Hsl);
      [lia|lia|lia|].
    destruct (IH (detail.next_dim D I) (S p) last) as (rr & Err & Hrr & Hsr);
      [lia|lia|lia|].
    destruct (detail.none_less D (el p) value) eqn:Enp.
    + exists rl. split; [exact Erl|]. split; [lia|].
      intros _. destruct (Nat.eq_dec rl p) as [->|Hne]; [exact Enp|].
      apply Hsl. lia.
    + destruct (detail.all_less D (el p) value).
      * exists rr. split; [exact Err|]. split; [lia|exact Hsr].
      * rewrite Erl. cbn [bind]. rewrite is_hit_in by lia. cbn [bind].
        destruct (negb (rl =? last) && detail.none_less D (el rl) value)
          eqn:Eh.
        -- exists rl. split; [reflexivity|]. split; [lia|].
           intros _. now apply andb_true_iff in Eh.
        -- rewrite Err. cbn [bind]. rewrite is_hit_in by lia. cbn [bind].
           destruct (negb (rr =? last) && detail.none_less D (el rr) value)
             eqn:Eh2.
           ++ exists rr. split; [reflexivity|]. split; [lia|].
              intros _. now apply andb_true_iff in Eh2.
           ++ exists last. split; [reflexivity|]. split; [lia|]. intros; lia.
Qed.

Lemma kd_upper_bound_sound (fuel : nat) :
  forall I first last, last - first <= fuel ->
  first <= last -> last <= length A ->
  exists r,
    detail.kd_upper_bound D stray A fuel I first last value = Done r /\
    first <= r <= last /\
    (r < last -> detail.all_less D value (el r) = true).
Proof.
  assert (Hbase : forall fuel I first last, last - first <= 1 ->
            first <= last -> last <= length A ->
            exists r,
              detail.kd_upper_bound D stray A fuel I first last value
                = Done r /\
              first <= r <= last /\
              (r < last -> detail.all_less D value (el r) = true)).
  { intros f I first last Hs Hfl Hl.
    assert (E : (1 <? last - first) = false) by (apply Nat.ltb_ge; lia).
    destruct f; cbn [detail.kd_upper_bound]; rewrite E.
    all: rewrite deref_yields; cbn [bind].
    all: destruct (Nat.eq_dec first last) as [->|Hne];
      [ exists last; split;
        [ now destruct (detail.all_less D value (nth last A g)) | ];
        split; [lia|]; intros; lia
      | ].
    all: replace (nth first A g) with (el first)
      by (unfold elt; apply nth_indep; lia).
    all: destruct (detail.all_less D value (el first)) eqn:En.
    all: try (exists first; split; [reflexivity|]; split; [lia|];
              intros _; exact En).
    all: exists last; split; [reflexivity|]; split; [lia|]; intros; lia. }
  induction fuel as [|fuel IH]; intros I first last Hf Hfl Hl.
  - apply Hbase; lia.
  - destruct (Nat.le_gt_cases (last - first) 1) as [Hs|Hs];
      [now apply Hbase|].
    cbn [detail.kd_upper_bound].
    assert (E : (1 <? last - first) = true) by (apply Nat.ltb_lt; lia).
    destruct (find_pivot_spec stray A I first last) as (p & Hp & Hb & _ & _);
      [lia|exact Hl|].
    pose proof (middle_of_bounds first last ltac:(lia)) as Hm.
    rewrite E, Hp. cbn [bind]. rewrite deref_in by lia. cbn [bind].
    destruct (IH (detail.next_dim D I) first p) as (rl & Erl & Hrl & Hsl);
      [lia|lia|lia|].
    destruct (IH (detail.next_dim D I) (S p) last) as (rr & Err & Hrr & Hsr);
      [lia|lia|lia|].
    destruct (detail.all_less D value (el p)) eqn:Enp.
    + exists rl. split; [exact Erl|]. split; [lia|].
      intros _. destruct (Nat.eq_dec rl p) as [->|Hne]; [exact Enp|].
      apply Hsl. lia.
    + destruct (detail.none_less D value (el p)).
      * exists rr. split; [exact Err|]. split; [lia|exact Hsr].
      * rewrite Erl. cbn [bind]. rewrite is_hit_in by lia. cbn [bind].
        destruct (negb (rl =? last) && detail.all_less D value (el rl))
          eqn:Eh.
        -- exists rl. split; [reflexivity|]. split; [lia|].
           intros _. now apply andb_true_iff in Eh.
        -- rewrite Err. cbn [bind]. rewrite is_hit_in by lia. cbn [bind].
           destruct (negb (rr =? last) && detail.all_less D value (el rr))
             eqn:Eh2.
           ++ exists rr. split; [reflexivity|]. split; [lia|].
              intros _. now apply andb_true_iff in Eh2.
           ++ exists last. split; [reflexivity|]. split; [lia|]. intros; lia.
Qed.

End AnyBoundFacts.

(** X7. On any array, kd-sorted or not, [kd_lower_bound] returns [last]
    or an iterator to an element that is at least [value] on every axis,
    and [kd_upper_bound] returns [last] or an iterator to an element that
    is greater than [value] on every axis.  A read past the end of the
    array yields an arbitrary point [g]. *)
Theorem bound_searches_never_lie (D : nat) (g : point) (A : list point)
    (value : point) :
  (exists it,
     kd_lower_bound D (yields g) A 0 (length A) value = Done it /\
     it <= length A /\
     (it < length A -> detail.none_less D (elt A it) value = true)) /\
  (exists it,
     kd_upper_bound D (yields g) A 0 (length A) value = Done it /\
     it <= length A /\
     (it < length A -> detail.all_less D value (elt A it) = true)).
Proof.
  split.
  - destruct (kd_lower_bound_sound D g A value (length A - 0) 0 0 (length A))
      as (r & E & Hr & Hs); try lia.
    exists r. split; [exact E|]. split; [lia|exact Hs].
  - destruct (kd_upper_bound_sound D g A value (length A - 0) 0 0 (length A))
      as (r & E & Hr & Hs); try lia.
    exists r. split; [exact E|]. split; [lia|exact Hs].
Qed.

(** X8. On any array, kd-sorted or not, [kd_binary_search] returns, and
    when it returns true some element of the array agrees with [value] on
    every axis. *)
Theorem kd_binary_search_no_false_positive (D : nat) (g : point)
    (A : list point) (value : point) :
  0 < D ->
  exists b,
    kd_binary_search D (yields g) A 0 (length A) value = Done b /\
    (b = true ->
     exists x, In x A /\ forall a, a < D -> get a x = get a value).
Proof.
  intros HD.
  destruct (kd_lower_bound_sound D g A value (length A - 0) 0 0 (length A))
    as (r & E & Hr & Hs); try lia.
  unfold kd_binary_search. rewrite E. cbn [bind].
  rewrite is_hit_in by lia.
  exists (negb (r =? length A) && detail.none_less D value (elt A r)).
  split; [reflexivity|].
  rewrite andb_true_iff, negb_true_iff, Nat.eqb_neq. intros [Hne Hv].
  exists (elt A r). split; [apply nth_In; lia|].
  specialize (Hs ltac:(lia)).
  rewrite none_less_spec in Hv, Hs by exact HD.
  intros a Ha. specialize (Hv a Ha). specialize (Hs a Ha). lia.
Qed.

Lemma kd_binary_search_no_false_positive_witness :
  exists b,
    kd_binary_search 2 (yields []) [[5;5];[0;0];[3;1]]%Z 0 3 [3;1]%Z
      = Done b /\
    (b = true ->
     exists x, In x [[5;5];[0;0];[3;1]]%Z /\
       forall a, a < 2 -> get a x = get a [3;1]%Z).
Proof.
  apply (kd_binary_search_no_false_positive 2 [] [[5;5];[0;0];[3;1]]%Z
           [3;1]%Z). lia.
Defined.

(** X9. On a kd-sorted array [kd_lower_bound] returns the first iterator
    whose element is at least [value] on every axis, [kd_upper_bound] the
    first whose element is greater on every axis, each [last] when there
    is none; so in the pair of [kd_equal_range] the first never follows
    the second. *)
Theorem kd_equal_range_ordered (D : nat) (g : point) (A : list point)
    (value : point) :
  0 < D ->
  kd_is_sorted D (yields g) A 0 (length A) = Done true ->
  exists lb ub,
    kd_equal_range D (yields g) A 0 (length A) value = Done (lb, ub) /\
    lb <= ub <= length A /\
    (lb < length A -> detail.none_less D (elt A lb) value = true) /\
    (forall j, j < lb -> detail.none_less D (elt A j) value = false) /\
    (ub < length A -> detail.all_less D value (elt A ub) = true) /\
    (forall j, j < ub -> detail.all_less D value (elt A j) = false).
Proof.
  intros HD Hs.
  apply kd_is_sorted_tree in Hs; [|apply Nat.le_refl].
  destruct (kd_lower_bound_spec D HD g A value 0 0 (length A) Hs HD
              (Nat.le_0_l _) (Nat.le_refl _) (length A - 0) (Nat.le_refl _))
    as (lb & Elb & Hlb & Hslb & Hmlb).
  destruct (kd_upper_bound_spec D HD g A value 0 0 (length A) Hs HD
              (Nat.le_0_l _) (Nat.le_refl _) (length A - 0) (Nat.le_refl _))
    as (ub & Eub & Hub & Hsub & Hmub).
  exists lb, ub. split.
  { unfold kd_equal_range. rewrite Elb. cbn [bind]. now rewrite Eub. }
  split; [split; [|lia]|].
  - destruct (Nat.le_gt_cases lb ub) as [H|H]; [exact H|exfalso].
    assert (Hu : detail.all_less D value (elt A ub) = true)
      by (apply Hsub; lia).
    assert (Hn : detail.none_less D (elt A ub) value = false)
      by (apply Hmlb; lia).
    rewrite all_less_spec in Hu by exact HD.
    assert (Hn' : detail.none_less D (elt A ub) value = true).
    { apply none_less_spec; [exact HD|]. intros a Ha.
      specialize (Hu a Ha). lia. }
    congruence.
  - repeat split.
    + exact Hslb.
    + intros j Hj. apply Hmlb. lia.
    + exact Hsub.
    + intros j Hj. apply Hmub. lia.
Qed.

Lemma kd_equal_range_ordered_witness :
  exists lb ub,
    kd_equal_range 2 (yields []) [[2;2];[1;4];[3;1];[4;3];[5;5]]%Z 0
      (length [[2;2];[1;4];[3;1];[4;3];[5;5]]%Z) [3;3]%Z = Done (lb, ub) /\
    lb <= ub <= length [[2;2];[1;4];[3;1];[4;3];[5;5]]%Z /\
    (lb < length [[2;2];[1;4];[3;1];[4;3];[5;5]]%Z ->
     detail.none_less 2 (elt [[2;2];[1;4];[3;1];[4;3];[5;5]]%Z lb) [3;3]%Z
       = true) /\
    (forall j, j < lb ->
       detail.none_less 2 (elt [[2;2];[1;4];[3;1];[4;3];[5;5]]%Z j) [3;3]%Z
         = false) /\
    (ub < length [[2;2];[1;4];[3;1];[4;3];[5;5]]%Z ->
     detail.all_less 2 [3;3]%Z (elt [[2;2];[1;4];[3;1];[4;3];[5;5]]%Z ub)
       = true) /\
    (forall j, j < ub ->
       detail.all_less 2 [3;3]%Z (elt [[2;2];[1;4];[3;1];[4;3];[5;5]]%Z j)
         = false).
Proof.
  apply (kd_equal_range_ordered 2 [] [[2;2];[1;4];[3;1];[4;3];[5;5]]%Z
           [3;3]%Z).
  - lia.
  - reflexivity.
Defined.

(** ** The spatial queries on arbitrary arrays *)

Section AnyQueryFacts.

Variable D : nat.
Variable stray : nat -> outcome point.
Variable A : list point.

Local Abbreviation el := (elt A).

Lemma kd_nearest_neighbor_in_range (value : point) (fuel : nat) :
  forall I first last, last - first <= fuel ->
  first <= last -> last <= length A ->
  exists r,
    detail.kd_nearest_neighbor D stray A fuel I first last value = Done r /\
    first <= r <= last /\
    (first < last -> r < last).
Proof.
  assert (Hbase : forall fuel I first last, last - first <= 1 ->
            first <= last ->
            exists r,
              detail.kd_nearest_neighbor D stray A fuel I first last value
                = Done r /\
              first <= r <= last /\ (first < last -> r < last)).
  { intros f I first last Hs Hfl.
    assert (E : (1 <? last - first) = false) by (apply Nat.ltb_ge; lia).
    exists first.
    split; [destruct f; cbn [detail.kd_nearest_neighbor]; now rewrite E|].
    lia. }
  induction fuel as [|fuel IH]; intros I first last Hf Hfl Hl.
  - apply Hbase; lia.
  - destruct (Nat.le_gt_cases (last - first) 1) as [Hs|Hs];
      [now apply Hbase|].
    cbn [detail.kd_nearest_neighbor].
    assert (E : (1 <? last - first) = true) by (apply Nat.ltb_lt; lia).
    destruct (find_pivot_spec stray A I first last) as (p & Hp & Hb & _ & _);
      [lia|exact Hl|].
    pose proof (middle_of_bounds first last ltac:(lia)) as Hm.
    rewrite E, Hp. cbn [bind]. rewrite deref_in by lia. cbn [bind].
    destruct (IH (detail.next_dim D I) first p) as (rl & Erl & Hrl & _);
      [lia|lia|lia|].
    destruct (IH (detail.next_dim D I) (S p) last) as (rr & Err & Hrr & _);
      [lia|lia|lia|].
    assert (Hstep : forall s s2, first <= s <= last -> first <= s2 <= last ->
              forall k : nat * dbl -> outcome nat,
              (forall b md, first <= b < last ->
                 exists r, k (b, md) = Done r /\ first <= r < last) ->
              exists r,
                (best <- detail.near_or_pivot D stray A p last (el p) value s ;;
                 k best) = Done r /\ first <= r < last).
    { intros s s2 Hs1 Hs2 k Hk. unfold detail.near_or_pivot.
      destruct (Nat.eqb_spec s last) as [Es|Es]; cbn [bind].
      - apply Hk. lia.
      - rewrite deref_in by lia. cbn [bind].
        destruct (dbl_ltb _ _); cbn [bind]; apply Hk; lia. }
    assert (Hfar : forall b md s2, first <= b < last -> first <= s2 <= last ->
              forall far : outcome nat, far = Done s2 ->
              exists r,
                (let (search, min_dist) := (b, md) in
                 if dbl_ltb (detail.dist_nth I value (el p)) min_dist
                 then
                   s2 <- far ;;
                   closer <- detail.is_hit stray A s2 last
                     (fun x => dbl_ltb (detail.l2dist D x value) min_dist) ;;
                   if closer then Done s2 else Done search
                 else Done search) = Done r /\ first <= r < last).
    { intros b md s2 Hb1 Hs2 far ->.
      destruct (dbl_ltb (detail.dist_nth I value (el p)) md);
        [|exists b; split; [reflexivity|lia]].
      cbn [bind]. rewrite is_hit_in by lia. cbn [bind].
      destruct (Nat.eqb_spec s2 last) as [Es|Es]; cbn [negb andb].
      - exists b. split; [reflexivity|lia].
      - destruct (dbl_ltb _ _).
        + exists s2. split; [reflexivity|lia].
        + exists b. split; [reflexivity|lia]. }
    assert (Hres : exists r,
              (search <- (if detail.less_nth I value (el p)
                          then detail.kd_nearest_neighbor D stray A fuel
                                 (detail.next_dim D I) first p value
                          else detail.kd_nearest_neighbor D stray A fuel
                                 (detail.next_dim D I) (S p) last value) ;;
               best <- detail.near_or_pivot D stray A p last (el p) value
                         search ;;
               (let (search0, min_dist) := best in
                if dbl_ltb (detail.dist_nth I value (el p)) min_dist
                then
                  s2 <- (if detail.less_nth I value (el p)
                         then detail.kd_nearest_neighbor D stray A fuel
                                (detail.next_dim D I) (S p) last value
                         else detail.kd_nearest_neighbor D stray A fuel
                                (detail.next_dim D I) first p value) ;;
                  closer <- detail.is_hit stray A s2 last
                    (fun x => dbl_ltb (detail.l2dist D x value) min_dist) ;;
                  if closer then Done s2 else Done search0
                else Done search0)) = Done r /\ first <= r < last).
    { destruct (detail.less_nth I value (el p)).
      - rewrite Erl. cbn [bind].
        apply (Hstep rl rr); [lia|lia|].
        intros b md Hb1. apply (Hfar b md rr); [lia|lia|exact Err].
      - rewrite Err. cbn [bind].
        apply (Hstep rr rl); [lia|lia|].
        intros b md Hb1. apply (Hfar b md rl); [lia|lia|exact Erl]. }
    destruct Hres as (r & Er & Hr).
    exists r. split; [exact Er|]. lia.
Qed.

Variables lower upper : point.

Local Abbreviation inside := (fun x => detail.within D x lower upper).

Lemma copy_if_appends (pred : point -> bool) (n : nat) :
  forall first outp, first + n <= length A ->
  detail.copy_if stray A n first outp pred =
  Done (outp ++ filter pred (span A first (first + n))).
Proof.
  induction n as [|n IH]; intros first outp Hl; cbn [detail.copy_if].
  - rewrite span_nil by lia. cbn [filter]. now rewrite app_nil_r.
  - rewrite deref_in by lia. cbn [bind].
    rewrite IH by lia. rewrite (span_cons A first (first + S n)) by lia.
    replace (S first + n) with (first + S n) by lia.
    cbn [filter]. destruct (pred (el first)); [|reflexivity].
    now rewrite <- app_assoc.
Qed.

(** Whatever the order of the array, [kd_range_query] appends elements of
    the range that lie in the box, no position twice. *)
Lemma kd_range_query_sound (fuel : nat) :
  forall I first last outp, last - first <= fuel ->
  first <= last -> last <= length A ->
  exists found missed,
    detail.kd_range_query D stray A fuel I first last lower upper outp
      = Done (outp ++ found) /\
    Permutation (found ++ missed) (filter inside (span A first last)) /\
    (last - first <= 32 ->
     found = filter inside (span A first last) /\ missed = []).
Proof.
  assert (Hscan : forall fuel K lo hi outp,
            lo <= hi -> hi <= length A ->
            (32 <? hi - lo) = false ->
            exists found missed,
              detail.kd_range_query D stray A fuel K lo hi lower upper outp
                = Done (outp ++ found) /\
              Permutation (found ++ missed) (filter inside (span A lo hi)) /\
              (hi - lo <= 32 ->
               found = filter inside (span A lo hi) /\ missed = [])).
  { intros f K lo hi outp Hfl Hl E.
    exists (filter inside (span A lo hi)), [].
    split; [|split; [now rewrite app_nil_r|auto]].
    destruct f; cbn [detail.kd_range_query]; rewrite E.
    all: rewrite copy_if_appends by lia.
    all: now replace (lo + (hi - lo)) with hi by lia. }
  induction fuel as [|fuel IH]; intros I first last outp Hf Hfl Hl.
  - apply Hscan; try assumption. apply Nat.ltb_ge. lia.
  - destruct (32 <? last - first) eqn:E; [|now apply Hscan].
    apply Nat.ltb_lt in E.
    destruct (find_pivot_spec stray A I first last) as (p & Hp & Hb & _ & _);
      [lia|exact Hl|].
    pose proof (middle_of_bounds first last ltac:(lia)) as Hm.
    cbn [detail.kd_range_query].
    assert (E' : (32 <? last - first) = true) by (apply Nat.ltb_lt; lia).
    rewrite E', Hp. cbn [bind]. rewrite deref_in by lia. cbn [bind].
    set (outp1 := if detail.within D (el p) lower upper
                  then outp ++ [el p] else outp).
    set (here := if detail.within D (el p) lower upper then [el p] else []).
    assert (Eh : filter inside (el p :: span A (S p) last) =
                 here ++ filter inside (span A (S p) last)).
    { cbn [filter]. unfold here.
      now destruct (detail.within D (el p) lower upper). }
    assert (Eo : outp1 = outp ++ here).
    { unfold outp1, here. destruct (detail.within D (el p) lower upper);
        [reflexivity|now rewrite app_nil_r]. }
    rewrite (span_split A first p last) by lia.
    rewrite filter_app, Eh.
    assert (Hl' : exists fl ml,
              (if negb (detail.less_nth I (el p) lower)
               then detail.kd_range_query D stray A fuel (detail.next_dim D I)
                      first p lower upper outp1
               else Done outp1) = Done (outp1 ++ fl) /\
              Permutation (fl ++ ml) (filter inside (span A first p))).
    { destruct (negb (detail.less_nth I (el p) lower)).
      - destruct (IH (detail.next_dim D I) first p outp1)
          as (fl & ml & Efl & Pfl & _); [lia|lia|lia|].
        exists fl, ml. split; assumption.
      - exists [], (filter inside (span A first p)).
        split; [now rewrite app_nil_r|reflexivity]. }
    destruct Hl' as (fl & ml & Efl & Pfl). rewrite Efl. cbn [bind].
    assert (Hr' : exists fr mr,
              (if detail.less_nth I (el p) upper
               then detail.kd_range_query D stray A fuel (detail.next_dim D I)
                      (S p) last lower upper (outp1 ++ fl)
               else Done (outp1 ++ fl)) = Done ((outp1 ++ fl) ++ fr) /\
              Permutation (fr ++ mr) (filter inside (span A (S p) last))).
    { destruct (detail.less_nth I (el p) upper).
      - destruct (IH (detail.next_dim D I) (S p) last (outp1 ++ fl))
          as (fr & mr & Efr & Pfr & _); [lia|lia|lia|].
        exists fr, mr. split; assumption.
      - exists [], (filter inside (span A (S p) last)).
        split; [now rewrite app_nil_r|reflexivity]. }
    destruct Hr' as (fr & mr & Efr & Pfr). rewrite Efr.
    exists (here ++ fl ++ fr), (ml ++ mr). split; [|split; [|lia]].
    + rewrite Eo. now rewrite <- !app_assoc.
    + rewrite <- Pfl, <- Pfr.
      rewrite <- !app_assoc.
      rewrite (Permutation_app_swap_app here fl).
      apply Permutation_app_head.
      rewrite (app_assoc here fr (ml ++ mr)).
      rewrite (Permutation_app_swap_app (here ++ fr) ml mr).
      now rewrite <- app_assoc.
Qed.

End AnyQueryFacts.

(** X10. On any range of any array, kd-sorted or not,
    [kd_nearest_neighbor] dereferences no iterator outside the array and
    returns an iterator of the range; on an empty range it returns
    [first], which is [last]. *)
Theorem kd_nearest_neighbor_stays_in_range (D : nat) (A : list point)
    (first last : nat) (value : point) :
  first <= last -> last <= length A ->
  exists it,
    kd_nearest_neighbor D trap A first last value = Done it /\
    first <= it <= last /\
    (first < last -> it < last).
Proof.
  intros Hfl Hl. unfold kd_nearest_neighbor.
  apply kd_nearest_neighbor_in_range; [lia|exact Hfl|exact Hl].
Qed.

Lemma kd_nearest_neighbor_stays_in_range_witness :
  exists it,
    kd_nearest_neighbor 2 trap [[5;5];[0;0];[3;1];[2;2]]%Z 1 4 [9;9]%Z
      = Done it /\
    1 <= it <= 4 /\
    (1 < 4 -> it < 4).
Proof.
  apply (kd_nearest_neighbor_stays_in_range 2 [[5;5];[0;0];[3;1];[2;2]]%Z
           1 4 [9;9]%Z); simpl; lia.
Defined.

(** X11. On any range of any array, kd-sorted or not, [kd_range_query]
    dereferences no iterator outside the array and appends to the sink
    only elements of the range that lie in the box, none more often than
    it occurs there. *)
Theorem kd_range_query_no_false_positive (D : nat) (A : list point)
    (first last : nat) (lower upper : point) (outp : list point) :
  first <= last -> last <= length A ->
  exists found missed,
    kd_range_query D trap A first last lower upper outp
      = Done (outp ++ found) /\
    Permutation (found ++ missed)
      (filter (fun x => detail.within D x lower upper) (span A first last)).
Proof.
  intros Hfl Hl. unfold kd_range_query.
  destruct (kd_range_query_sound D trap A lower upper (last - first) 0
              first last outp) as (found & missed & E & P & _);
    [lia|exact Hfl|exact Hl|].
  exists found, missed. split; assumption.
Qed.

Lemma kd_range_query_no_false_positive_witness :
  exists found missed,
    kd_range_query 2 trap (rev sample41) 0 41 [5;5]%Z [30;30]%Z []
      = Done ([] ++ found) /\
    Permutation (found ++ missed)
      (filter (fun x => detail.within 2 x [5;5]%Z [30;30]%Z)
         (span (rev sample41) 0 41)).
Proof.
  apply (kd_range_query_no_false_positive 2 (rev sample41) 0 41
           [5;5]%Z [30;30]%Z []).
  - lia.
  - vm_compute. lia.
Defined.

(** X12. On a range of at most 32 elements, kd-sorted or not,
    [kd_range_query] appends exactly the elements of the range that lie
    in the box, in the order of the array. *)
Theorem kd_range_query_small_range_scans (D : nat) (A : list point)
    (first last : nat) (lower upper : point) (outp : list point) :
  first <= last -> last <= length A -> last - first <= 32 ->
  kd_range_query D trap A first last lower upper outp
    = Done (outp ++
            filter (fun x => detail.within D x lower upper)
              (span A first last)).
Proof.
  intros Hfl Hl Hs. unfold kd_range_query.
  destruct (kd_range_query_sound D trap A lower upper (last - first) 0
              first last outp) as (found & missed & E & _ & Hx);
    [lia|exact Hfl|exact Hl|].
  destruct (Hx Hs) as [-> _]. exact E.
Qed.

Lemma kd_range_query_small_range_scans_witness :
  kd_range_query 2 trap [[5;5];[0;0];[3;1];[2;2]]%Z 0 4 [1;1]%Z [6;6]%Z []
    = Done ([] ++
            filter (fun x => detail.within 2 x [1;1]%Z [6;6]%Z)
              (span [[5;5];[0;0];[3;1];[2;2]]%Z 0 4)).
Proof.
  apply (kd_range_query_small_range_scans 2 [[5;5];[0;0];[3;1];[2;2]]%Z
           0 4 [1;1]%Z [6;6]%Z []); simpl; lia.
Defined.

(** ** [knn] on arbitrary arrays *)

Section AnyKnnFacts.

Variable D : nat.
Hypothesis HD : 0 < D.
Variable stray : nat -> outcome point.
Variable A : list point.
Variable value : point.

Local Abbreviation el := (elt A).
Local Abbreviation best_of := (best_of D A value).

Ltac count_perm :=
  apply (Permutation_count_occ Nat.eq_dec); intros ?x;
  repeat match goal with
  | H : Permutation _ _ |- _ =>
      let E := fresh "E" in
      pose proof (proj1 (Permutation_count_occ Nat.eq_dec _ _) H x) as E;
      clear H
  end;
  repeat rewrite ?count_occ_app in *; cbn [count_occ] in *;
  repeat match goal with
  | |- context [Nat.eq_dec ?a ?b] => destruct (Nat.eq_dec a b)
  end;
  lia.

Lemma best_of_length (q : detail.n_best) (offered : list nat) :
  best_of q offered ->
  length (detail.m_q q) = Nat.min (detail.m_n q) (length offered).
Proof.
  intros (its & rest & Eq & _ & _ & _ & Hn).
  now rewrite Eq, length_map.
Qed.

(** Sorted array or not, [knn] offers the queue distinct iterators of the
    range, and skips none while the queue has room for all of them. *)
Lemma knn_any (fuel : nat) :
  forall I first last q offered, last - first <= fuel ->
  first <= last -> last <= length A -> I < D -> best_of q offered ->
  exists q' visited skipped,
    detail.knn D stray A fuel I first last value q = Done q' /\
    best_of q' (visited ++ offered) /\
    Permutation (seq first (last - first)) (visited ++ skipped) /\
    detail.m_n q' = detail.m_n q /\
    (length offered + (last - first) <= detail.m_n q -> skipped = []).
Proof.
  induction fuel as [|fuel IH];
    intros I first last q offered Hf Hfl Hl HI Hq.
  - assert (E : last - first = 0) by lia.
    exists q, [], []. cbn [detail.knn]. rewrite E.
    repeat split; auto.
  - destruct (last - first) as [|[|n]] eqn:En.
    + exists q, [], []. cbn [detail.knn]. rewrite En. repeat split; auto.
    + destruct (best_of_add D HD A value q offered first Hq) as [Hq' Hn].
      exists (detail.add q (detail.l2dist D (el first) value) first),
        [first], [].
      cbn [detail.knn]. rewrite En. rewrite deref_in by lia. cbn [bind].
      repeat split; auto.
    + destruct (find_pivot_spec stray A I first last)
        as (p & Hp & Hb & _ & _); [lia|exact Hl|].
      pose proof (middle_of_bounds first last ltac:(lia)) as Hm.
      cbn [detail.knn]. rewrite En, Hp. cbn [bind].
      rewrite deref_in by lia. cbn [bind].
      pose proof (next_dim_lt D I HD) as HJ.
      destruct (best_of_add D HD A value q offered p Hq) as [Hq1 Hn1].
      set (q1 := detail.add q (detail.l2dist D (el p) value) p) in *.
      rewrite <- En, (seq_split D HD first p last) by lia.
      set (L := seq first (p - first)). set (R := seq (S p) (last - S p)).
      assert (HlenL : length L = p - first) by apply length_seq.
      assert (HlenR : length R = last - S p) by apply length_seq.
      destruct (detail.less_nth I value (el p)).
      * destruct (IH (detail.next_dim D I) first p q1 (p :: offered))
          as (q2 & vl & sl & E2 & Hq2 & Pl & Hn2 & Hfl2);
          [lia|lia|lia|exact HJ|exact Hq1|].
        rewrite E2. cbn [bind]. fold L in Pl.
        pose proof (Permutation_length Pl) as HPl. rewrite length_app in HPl.
        destruct (dbl_leb (detail.dist_nth I value (el p)) (detail.max_key q2))
          eqn:Ek.
        -- destruct (IH (detail.next_dim D I) (S p) last q2
                       (vl ++ p :: offered))
             as (q3 & vr & sr & E3 & Hq3 & Pr & Hn3 & Hfl3);
             [lia|lia|lia|exact HJ|exact Hq2|].
           fold R in Pr.
           exists q3, (vr ++ vl ++ [p]), (sl ++ sr).
           split; [exact E3|]. split; [|split; [|split; [congruence|]]].
           ++ replace ((vr ++ vl ++ [p]) ++ offered)
                with (vr ++ vl ++ p :: offered)
                by (now rewrite <- !app_assoc).
              exact Hq3.
           ++ count_perm.
           ++ intros Hroom.
              rewrite Hfl2, Hfl3; [reflexivity| |];
                rewrite ?length_app, ?Hn2, ?Hn1; cbn [length]; lia.
        -- exists q2, (vl ++ [p]), (sl ++ R).
           split; [reflexivity|]. split; [|split; [|split; [congruence|]]].
           ++ replace ((vl ++ [p]) ++ offered) with (vl ++ p :: offered)
                by (now rewrite <- !app_assoc).
              exact Hq2.
           ++ count_perm.
           ++ intros Hroom.
              assert (Esl : sl = [])
                by (apply Hfl2; rewrite Hn1; cbn [length]; lia).
              subst sl. cbn [app].
              destruct R as [|r0 R'] eqn:ER; [reflexivity|exfalso].
              cbn [length] in HlenR.
              destruct (max_key_spec D HD A value q2 (vl ++ p :: offered) Hq2)
                as (_ & _ & Hguard).
              rewrite Hguard in Ek; [discriminate|exact HI| |].
              ** apply in_or_app. right. now left.
              ** rewrite (best_of_length q2 _ Hq2), length_app.
                 cbn [length] in *.
                 rewrite Hn2, Hn1. lia.
      * destruct (IH (detail.next_dim D I) (S p) last q1 (p :: offered))
          as (q2 & vr & sr & E2 & Hq2 & Pr & Hn2 & Hfl2);
          [lia|lia|lia|exact HJ|exact Hq1|].
        rewrite E2. cbn [bind]. fold R in Pr.
        pose proof (Permutation_length Pr) as HPr. rewrite length_app in HPr.
        destruct (dbl_leb (detail.dist_nth I value (el p)) (detail.max_key q2))
          eqn:Ek.
        -- destruct (IH (detail.next_dim D I) first p q2
                       (vr ++ p :: offered))
             as (q3 & vl & sl & E3 & Hq3 & Pl & Hn3 & Hfl3);
             [lia|lia|lia|exact HJ|exact Hq2|].
           fold L in Pl.
           exists q3, (vl ++ vr ++ [p]), (sr ++ sl).
           split; [exact E3|]. split; [|split; [|split; [congruence|]]].
           ++ replace ((vl ++ vr ++ [p]) ++ offered)
                with (vl ++ vr ++ p :: offered)
                by (now rewrite <- !app_assoc).
              exact Hq3.
           ++ count_perm.
           ++ intros Hroom.
              rewrite Hfl2, Hfl3; [reflexivity| |];
                rewrite ?length_app, ?Hn2, ?Hn1; cbn [length]; lia.
        -- exists q2, (vr ++ [p]), (sr ++ L).
           split; [reflexivity|]. split; [|split; [|split; [congruence|]]].
           ++ replace ((vr ++ [p]) ++ offered) with (vr ++ p :: offered)
                by (now rewrite <- !app_assoc).
              exact Hq2.
           ++ count_perm.
           ++ intros Hroom.
              assert (Esr : sr = [])
                by (apply Hfl2; rewrite Hn1; cbn [length]; lia).
              subst sr. cbn [app].
              destruct L as [|l0 L'] eqn:EL; [reflexivity|exfalso].
              cbn [length] in HlenL.
              destruct (max_key_spec D HD A value q2 (vr ++ p :: offered) Hq2)
                as (_ & _ & Hguard).
              rewrite Hguard in Ek; [discriminate|exact HI| |].
              ** apply in_or_app. right. now left.
              ** rewrite (best_of_length q2 _ Hq2), length_app.
                 cbn [length] in *.
                 rewrite Hn2, Hn1. lia.
Qed.

End AnyKnnFacts.

(** X13. On any array, kd-sorted or not, [kd_nearest_neighbors]
    dereferences no iterator outside the array and emits at most [n]
    elements, each array position at most once, farthest first; asked for
    at least as many as the array holds, it emits every element. *)
Theorem kd_nearest_neighbors_any_array (D : nat) (A : list point)
    (value : point) (n : nat) (outp : list point) :
  0 < D ->
  exists its,
    kd_nearest_neighbors D trap A 0 (length A) value n outp
      = Done (outp ++ map (elt A) its) /\
    NoDup its /\
    (forall i, In i its -> i < length A) /\
    length its <= n /\
    StronglySorted
      (fun i j => dbl_leb (detail.l2dist D (elt A j) value)
                          (detail.l2dist D (elt A i) value) = true) its /\
    (length A <= n -> Permutation A (map (elt A) its)).
Proof.
  intros HD.
  destruct (knn_any D HD trap A value (length A - 0) 0 0 (length A)
              (detail.n_best_new n) [])
    as (q & visited & skipped & Eq & Hq & Pv & Hn & Hroom);
    [lia|lia|lia|exact HD|apply best_of_new|].
  rewrite app_nil_r in Hq.
  pose proof (best_of_length D A value q visited Hq) as Hlen.
  destruct Hq as (its & rest & Em & Hso & Hp & _ & Hmin).
  assert (Hnd : NoDup (its ++ rest)).
  { apply (Permutation_NoDup Hp).
    apply (NoDup_app_remove_r visited skipped).
    apply (Permutation_NoDup Pv). apply seq_NoDup. }
  assert (Hin : forall i, In i its -> i < length A).
  { intros i Hi.
    assert (Hs : In i (seq 0 (length A - 0))).
    { apply (Permutation_in _ (Permutation_sym Pv)).
      apply in_or_app. left.
      apply (Permutation_in _ (Permutation_sym Hp)).
      apply in_or_app. now left. }
    apply in_seq in Hs. lia. }
  exists its. split; [|split; [|split; [|split; [|split]]]].
  - unfold kd_nearest_neighbors. rewrite Eq. cbn [bind].
    unfold detail.copy_to. rewrite Em. now apply copy_to__spec.
  - exact (NoDup_app_remove_r its rest Hnd).
  - exact Hin.
  - rewrite Hmin, Hn. cbn [detail.n_best_new detail.m_n]. lia.
  - unfold farthest_first in Hso. clear -Hso.
    induction Hso as [|h t Ht IH Hh]; [constructor|].
    constructor; [exact IH|].
    eapply Forall_impl; [|exact Hh]. cbv beta. intros j Hj.
    unfold dbl_leb, detail.l2dist, dbl_ltb.
    now apply negb_true_iff, Z.ltb_ge.
  - intros Hall.
    rewrite Hroom in Pv
      by (cbn [detail.n_best_new detail.m_n length]; lia).
    rewrite app_nil_r in Pv.
    pose proof (Permutation_length Pv) as Lv.
    pose proof (Permutation_length Hp) as Lp.
    rewrite length_seq in Lv. rewrite length_app in Lp.
    rewrite Hn in Hmin. cbn [detail.n_best_new detail.m_n] in Hmin.
    assert (Er : rest = []) by (apply length_zero_iff_nil; lia).
    subst rest. rewrite app_nil_r in Hp.
    rewrite <- (map_elt_seq A) at 1.
    apply Permutation_map.
    rewrite Nat.sub_0_r in Pv.
    now rewrite Pv.
Qed.

Lemma kd_nearest_neighbors_any_array_witness :
  exists its,
    kd_nearest_neighbors 2 trap [[5;5];[0;0];[3;1];[2;2]]%Z 0
      (length [[5;5];[0;0];[3;1];[2;2]]%Z) [9;9]%Z 2 []
      = Done ([] ++ map (elt [[5;5];[0;0];[3;1];[2;2]]%Z) its) /\
    NoDup its /\
    (forall i, In i its -> i < length [[5;5];[0;0];[3;1];[2;2]]%Z) /\
    length its <= 2 /\
    StronglySorted
      (fun i j =>
         dbl_leb (detail.l2dist 2 (elt [[5;5];[0;0];[3;1];[2;2]]%Z j) [9;9]%Z)
                 (detail.l2dist 2 (elt [[5;5];[0;0];[3;1];[2;2]]%Z i) [9;9]%Z)
           = true) its /\
    (length [[5;5];[0;0];[3;1];[2;2]]%Z <= 2 ->
     Permutation [[5;5];[0;0];[3;1];[2;2]]%Z
       (map (elt [[5;5];[0;0];[3;1];[2;2]]%Z) its)).
Proof.
  apply (kd_nearest_neighbors_any_array 2 [[5;5];[0;0];[3;1];[2;2]]%Z
           [9;9]%Z 2 []).
  lia.
Defined.

(** ** What [kd_sort] builds *)

Lemma Forall_firstn_nth (P : point -> Prop) (l : list point) (n : nat) :
  (forall i, i < n -> i < length l -> P (nth i l [])) ->
  Forall P (firstn n l).
Proof.
  intros H. apply Forall_nth. intros i d Hi.
  rewrite length_firstn in Hi.
  rewrite (nth_indep _ d []) by (rewrite length_firstn; exact Hi).
  rewrite nth_firstn.
  destruct (i <? n) eqn:E; [|apply Nat.ltb_ge in E; lia].
  apply H; lia.
Qed.

Lemma Forall_skipn_nth (P : point -> Prop) (l : list point) (n : nat) :
  (forall i, n <= i < length l -> P (nth i l [])) ->
  Forall P (skipn n l).
Proof.
  intros H. apply Forall_nth. intros i d Hi.
  rewrite length_skipn in Hi.
  rewrite (nth_indep _ d []) by (rewrite length_skipn; exact Hi).
  rewrite nth_skipn. apply H. lia.
Qed.

Lemma app_eq_length (l1 r1 l2 r2 : list point) :
  l1 ++ r1 = l2 ++ r2 -> length l1 = length l2 -> l1 = l2 /\ r1 = r2.
Proof.
  revert l2. induction l1 as [|a l1 IH]; intros [|b l2] E L;
    cbn in *; try discriminate.
  - now split.
  - injection E as -> E. destruct (IH l2 E) as [-> ->]; [lia|].
    now split.
Qed.

Lemma length_span (A : list point) (first last : nat) :
  last <= length A -> length (span A first last) = last - first.
Proof.
  intros H. unfold span. rewrite length_firstn, length_skipn. lia.
Qed.

Lemma elt_in_span (A : list point) (first last i : nat) :
  first <= i < last -> last <= length A ->
  In (elt A i) (span A first last).
Proof.
  intros Hi Hl.
  rewrite (span_split A first i last) by lia.
  apply in_or_app. right. now left.
Qed.

(** A range that reads [lo ++ x :: hi] has [x] at offset [length lo]. *)
Lemma span_parts (A : list point) (first last : nat)
    (lo : list point) (x : point) (hi : list point) :
  first <= last -> last <= length A ->
  span A first last = lo ++ x :: hi ->
  first + length lo < last /\
  span A first (first + length lo) = lo /\
  elt A (first + length lo) = x /\
  span A (S (first + length lo)) last = hi.
Proof.
  intros Hfl Hl E.
  pose proof (length_span A first last Hl) as L.
  rewrite E, length_app in L. cbn [length] in L.
  split; [lia|].
  rewrite (span_split A first (first + length lo) last) in E by lia.
  apply app_eq_length in E; [|rewrite length_span by lia; lia].
  destruct E as [E1 E2]. injection E2 as E2 E3. now repeat split.
Qed.

Lemma tie_free_parts (D : nat) (lo : list point) (x : point)
    (hi : list point) :
  tie_free D (lo ++ x :: hi) ->
  tie_free D lo /\ tie_free D hi /\
  (forall a y, a < D -> In y (lo ++ hi) -> get a y <> get a x).
Proof.
  intros H. repeat split.
  - intros a Ha. specialize (H a Ha). rewrite map_app in H.
    exact (NoDup_app_remove_r _ _ H).
  - intros a Ha. specialize (H a Ha). rewrite map_app in H.
    apply NoDup_app_remove_l in H. cbn [map] in H.
    now inversion H.
  - intros a y Ha Hy Eq. specialize (H a Ha).
    rewrite map_app in H. cbn [map] in H.
    apply NoDup_remove_2 in H. apply H.
    rewrite <- map_app, <- Eq. now apply in_map.
Qed.

Section BuilderFacts.

Variable D : nat.
Variable nth_element :
  (point -> point -> bool) -> list point -> nat -> list point.
Variable partition : (point -> bool) -> list point -> list point * nat.
Hypothesis Hn : nth_element_ok D nth_element.
Hypothesis Hp : partition_ok partition.

(** [nth_element] then [adjust_pivot], as [kd_sort] calls them: the range
    reads [lo ++ x :: hi] with the adjusted pivot [x] at offset
    [length lo]. *)
Lemma pivot_step (I : nat) (l : list point) :
  1 < length l ->
  exists lo x hi,
    (let pred := detail.kd_less D I in
     let pivot := middle_of 0 (length l) in
     let '(l1, p) :=
       detail.adjust_pivot partition (nth_element pred l pivot) pivot pred in
     l1 = lo ++ x :: hi /\ p = length lo) /\
    Permutation l (lo ++ x :: hi) /\
    length lo <= length l / 2 /\
    (length lo < length l / 2 ->
     exists y, In y hi /\
       detail.kd_less D I y x = false /\ detail.kd_less D I x y = false) /\
    (forall y, In y lo -> detail.kd_less D I y x = true) /\
    (forall y, In y hi -> detail.kd_less D I y x = false).
Proof.
  intros H1. cbv zeta.
  assert (Em : middle_of 0 (length l) = length l / 2)
    by (unfold middle_of; now rewrite Nat.sub_0_r).
  rewrite Em. set (pivot := length l / 2).
  assert (Hpl : pivot < length l)
    by (apply Nat.Div0.div_lt_upper_bound; lia).
  destruct (Hn I l pivot Hpl) as [Pn Hord].
  set (l0 := nth_element (detail.kd_less D I) l pivot) in *.
  pose proof (Permutation_length Pn) as L0.
  unfold detail.adjust_pivot.
  rewrite (skipn_cons_nth l0 pivot) by lia.
  set (pv := nth pivot l0 []).
  destruct (Hp (fun x => detail.kd_less D I x pv) (firstn pivot l0))
    as (Pp & Hple & Ht & Hf).
  destruct (partition (fun x => detail.kd_less D I x pv) (firstn pivot l0))
    as [front p]. cbn [fst snd] in *.
  assert (Lf : length (firstn pivot l0) = pivot)
    by (rewrite length_firstn; lia).
  rewrite Lf in Hple, Hf.
  pose proof (Permutation_length Pp) as Lfr. rewrite Lf in Lfr.
  assert (F1 : Forall (fun y => detail.kd_less D I y pv = true)
                 (firstn p front)).
  { apply Forall_firstn_nth. intros i Hi _. now apply Ht. }
  assert (F2 : Forall (fun y => detail.kd_less D I y pv = false)
                 (skipn p front)).
  { apply Forall_skipn_nth. intros i Hi. apply Hf. lia. }
  assert (F3 : forall y, In y front ->
                 exists i, i < pivot /\ y = nth i l0 []).
  { intros y Hy. apply (Permutation_in _ Pp) in Hy.
    destruct (In_nth _ _ [] Hy) as (i & Hi & Ei).
    rewrite length_firstn in Hi.
    exists i. split; [lia|]. rewrite <- Ei, nth_firstn.
    destruct (i <? pivot) eqn:E; [reflexivity|].
    apply Nat.ltb_ge in E. lia. }
  assert (F4 : forall y, In y (skipn (S pivot) l0) ->
                 exists j, pivot < j < length l /\ y = nth j l0 []).
  { intros y Hy. destruct (In_nth _ _ [] Hy) as (j & Hj & Ej).
    rewrite length_skipn in Hj. rewrite nth_skipn in Ej.
    exists (S pivot + j). split; [lia|now symmetry]. }
  assert (Pl : Permutation l (front ++ pv :: skipn (S pivot) l0)).
  { rewrite <- Pn at 1. rewrite <- (firstn_skipn pivot l0) at 1.
    rewrite (skipn_cons_nth l0 pivot) by lia. fold pv.
    apply Permutation_app_tail. now symmetry. }
  destruct (Nat.eq_dec p pivot) as [->|Hne].
  - exists front, pv, (skipn (S pivot) l0).
    split; [now split|]. split; [exact Pl|]. split; [lia|].
    split; [lia|]. split.
    + intros y Hy. rewrite firstn_all2 in F1 by lia.
      rewrite Forall_forall in F1. now apply F1.
    + intros y Hy. destruct (F4 y Hy) as (j & Hj & ->).
      apply Hord; lia.
  - assert (Hlt : p < pivot) by lia.
    set (x := nth p front []).
    assert (Es : skipn p front = x :: skipn (S p) front)
      by (apply skipn_cons_nth; lia).
    rewrite Es in F2. inversion F2 as [|? ? Hx F2' [E1 E2]]. subst.
    assert (Hxin : In x front) by (apply nth_In; lia).
    assert (Hpx : detail.kd_less D I pv x = false).
    { destruct (F3 x Hxin) as (i & Hi & ->). apply Hord; lia. }
    exists (firstn p front), x, (skipn (S p) front ++ pv :: skipn (S pivot) l0).
    split; [|split; [|split; [|split; [|split]]]].
    + split.
      * rewrite <- (firstn_skipn p front) at 1. rewrite Es.
        now rewrite <- app_assoc.
      * rewrite length_firstn. lia.
    + rewrite Pl. rewrite <- (firstn_skipn p front) at 1. rewrite Es.
      now rewrite <- app_assoc.
    + rewrite length_firstn. lia.
    + intros _. exists pv. split; [|split; assumption].
      apply in_or_app. right. now left.
    + intros y Hy. rewrite Forall_forall in F1.
      unfold detail.kd_less in *.
      apply (kd_less_lt_le_trans D (D - 1) I y pv x); [now apply F1|exact Hx].
    + intros y Hy. apply in_app_or in Hy. destruct Hy as [Hy|[<-|Hy]].
      * rewrite Forall_forall in F2'.
        apply (le_trans D I x pv y); [exact Hpx|now apply F2'].
      * exact Hpx.
      * destruct (F4 y Hy) as (j & Hj & ->).
        destruct (F3 x Hxin) as (i & Hi & ->).
        apply Hord; lia.
Qed.

(** [kd_sort] returns, and what it returns is the tree it means to
    build. *)
Lemma kd_sort_built (fuel : nat) :
  forall I l, length l <= fuel ->
  exists l',
    detail.kd_sort D nth_element partition fuel I l = Done l' /\
    Permutation l l' /\
    kd_built D I l'.
Proof.
  induction fuel as [|fuel IH]; intros I l Hf.
  - exists l. destruct l; [|cbn in Hf; lia].
    split; [reflexivity|].
    split; [constructor|apply kd_built_leaf; cbn; lia].
  - cbn [detail.kd_sort].
    destruct (1 <? length l) eqn:E1.
    2:{ apply Nat.ltb_ge in E1. exists l.
        split; [reflexivity|].
        split; [reflexivity|apply kd_built_leaf; exact E1]. }
    apply Nat.ltb_lt in E1.
    destruct (pivot_step I l E1)
      as (lo & x & hi & Es & Pl & Hhalf & Hcopy & Hlo & Hhi).
    cbv zeta in Es.
    destruct (detail.adjust_pivot partition
                (nth_element (detail.kd_less D I) l (middle_of 0 (length l)))
                (middle_of 0 (length l)) (detail.kd_less D I)) as [l1 p].
    destruct Es as [-> ->].
    pose proof (Permutation_length Pl) as Ll.
    rewrite length_app in Ll. cbn [length] in Ll.
    rewrite skipn_app, Nat.sub_diag, skipn_all. cbn [skipn app].
    rewrite firstn_app, Nat.sub_diag, firstn_all. cbn [firstn].
    rewrite app_nil_r.
    destruct (IH (detail.next_dim D I) hi) as (l3 & E3 & P3 & B3); [lia|].
    destruct (IH (detail.next_dim D I) lo) as (l4 & E4 & P4 & B4); [lia|].
    rewrite E3. cbn [bind]. rewrite E4. cbn [bind].
    pose proof (Permutation_length P3) as L3.
    pose proof (Permutation_length P4) as L4.
    exists (l4 ++ x :: l3). split; [reflexivity|]. split.
    + rewrite Pl. apply Permutation_app; [exact P4|].
      now apply perm_skip.
    + apply kd_built_node.
      * rewrite <- L3, <- L4, <- Ll. exact Hhalf.
      * rewrite <- L3, <- L4, <- Ll. intros Hlt.
        destruct (Hcopy Hlt) as (y & Hy & Hc).
        exists y. split; [|exact Hc]. exact (Permutation_in _ P3 Hy).
      * intros y Hy. apply Hlo.
        exact (Permutation_in _ (Permutation_sym P4) Hy).
      * intros y Hy. apply Hhi.
        exact (Permutation_in _ (Permutation_sym P3) Hy).
      * exact B4.
      * exact B3.
Qed.

End BuilderFacts.

Section BuiltTreeFacts.

Variable D : nat.
Hypothesis HD : 0 < D.
Variable stray : nat -> outcome point.
Variable A : list point.

(** Without ties on any axis, the tree [kd_sort] builds is the tree
    [kd_is_sorted] accepts. *)
Lemma kd_built_tree (I : nat) (l : list point) :
  kd_built D I l ->
  forall first last, I < D -> first <= last -> last <= length A ->
  span A first last = l -> tie_free D l ->
  kd_tree D stray A I first last.
Proof.
  induction 1 as [I l Hlen|I lo x hi Hhalf Hcopy Hlo Hhi Blo IHlo Bhi IHhi];
    intros first last HI Hfl Hl Es Ht.
  - apply kd_tree_leaf.
    rewrite <- Es, length_span in Hlen by exact Hl. lia.
  - destruct (span_parts A first last lo x hi Hfl Hl Es)
      as (Hp & Elo & Ex & Ehi).
    pose proof (length_span A first last Hl) as L.
    rewrite Es, length_app in L. cbn [length] in L.
    destruct (tie_free_parts D lo x hi Ht) as (Tlo & Thi & Hne).
    destruct (Nat.lt_ge_cases (last - first) 2) as [Hs|Hs];
      [now apply kd_tree_leaf|].
    assert (Emid : length lo = (length lo + S (length hi)) / 2).
    { destruct (Nat.eq_dec (length lo) ((length lo + S (length hi)) / 2))
        as [E|E]; [exact E|exfalso].
      destruct Hcopy as (y & Hy & Hyx & Hxy); [lia|].
      apply (Hne I y HI); [apply in_or_app; now right|].
      unfold detail.kd_less in *.
      apply kd_less_false_axis in Hyx, Hxy. lia. }
    assert (Epm : middle_of first last = first + length lo)
      by (unfold middle_of; rewrite <- L; lia).
    set (p := first + length lo) in *.
    assert (Hleft : forall i, first <= i < p ->
                      detail.kd_less D I (elt A i) (elt A p) = true).
    { intros i Hi. rewrite Ex. apply Hlo. rewrite <- Elo.
      apply elt_in_span; lia. }
    assert (Hright : forall i, p <= i < last ->
                       detail.kd_less D I (elt A i) (elt A p) = false).
    { intros i Hi. destruct (Nat.eq_dec i p) as [->|Hip].
      - apply kd_less_irrefl.
      - rewrite Ex. apply Hhi. rewrite <- Ehi. apply elt_in_span; lia. }
    destruct (find_pivot_spec stray A I first last)
      as (r & Er & Hr & _ & Hge); [lia|exact Hl|].
    rewrite Epm in Hr, Hge.
    assert (Erp : r = p).
    { destruct (Nat.eq_dec r p) as [E|E]; [exact E|exfalso].
      assert (Hin : In (elt A r) lo)
        by (rewrite <- Elo; apply elt_in_span; lia).
      apply (Hne I (elt A r) HI); [apply in_or_app; now left|].
      specialize (Hlo _ Hin). unfold detail.kd_less in Hlo.
      apply kd_less_true_axis in Hlo. rewrite Ex in Hge. lia. }
    subst r.
    apply (kd_tree_node D stray A I first last p); auto; try lia.
    + apply IHlo; auto; try lia. now apply next_dim_lt.
    + apply IHhi; auto; try lia. now apply next_dim_lt.
Qed.

End BuiltTreeFacts.

(** X14. With any [nth_element] and [partition] that keep their
    contracts, [kd_sort] returns a rearrangement of the array in which, at
    every level, the elements before the pivot are strictly smaller than
    it and those after it are not smaller, under [kd_less] of the level's
    axis; the pivot lies at or before the middle, and before it only when
    a later element compares equal to it. *)
Theorem kd_sort_builds_tree (D : nat)
    (nth_element : (point -> point -> bool) -> list point -> nat -> list point)
    (partition : (point -> bool) -> list point -> list point * nat)
    (A : list point) :
  nth_element_ok D nth_element -> partition_ok partition ->
  exists l',
    kd_sort D nth_element partition A = Done l' /\
    Permutation A l' /\
    kd_built D 0 l'.
Proof.
  intros Hn Hp. unfold kd_sort.
  now apply kd_sort_built.
Qed.

Lemma kd_sort_builds_tree_witness :
  exists l',
    kd_sort 2 nth_element_ref partition_ref [[5;5];[0;0];[3;1];[2;2]]%Z
      = Done l' /\
    Permutation [[5;5];[0;0];[3;1];[2;2]]%Z l' /\
    kd_built 2 0 l'.
Proof.
  apply (kd_sort_builds_tree 2 nth_element_ref partition_ref
           [[5;5];[0;0];[3;1];[2;2]]%Z).
  - apply nth_element_ref_ok.
  - apply partition_ref_ok.
Defined.

(** X15. When no two elements of the array share a coordinate on any
    axis, [kd_is_sorted] accepts what [kd_sort] returns. *)
Theorem kd_sort_tie_free_accepted (D : nat)
    (nth_element : (point -> point -> bool) -> list point -> nat -> list point)
    (partition : (point -> bool) -> list point -> list point * nat)
    (A : list point) :
  0 < D -> nth_element_ok D nth_element -> partition_ok partition ->
  tie_free D A ->
  exists l',
    kd_sort D nth_element partition A = Done l' /\
    Permutation A l' /\
    kd_is_sorted D trap l' 0 (length l') = Done true.
Proof.
  intros HD Hn Hp Ht. unfold kd_sort.
  destruct (kd_sort_built D nth_element partition Hn Hp (length A) 0 A)
    as (l' & E & P & B); [lia|].
  exists l'. split; [exact E|]. split; [exact P|].
  assert (Ht' : tie_free D l').
  { intros a Ha. apply (Permutation_NoDup (Permutation_map _ P)).
    now apply Ht. }
  pose proof (kd_built_tree D HD trap l' 0 l' B 0 (length l') HD
                (Nat.le_0_l _) (Nat.le_refl _) (span_whole l') Ht') as T.
  unfold kd_is_sorted.
  destruct (kd_is_sorted_iff D trap l' (length l' - 0) 0 0 (length l'))
    as (b & Eb & Hb); [lia|lia|].
  rewrite Eb. f_equal. now apply Hb.
Qed.

Lemma kd_sort_tie_free_accepted_witness :
  exists l',
    kd_sort 2 nth_element_ref partition_ref [[5;7];[0;4];[3;1];[2;2]]%Z
      = Done l' /\
    Permutation [[5;7];[0;4];[3;1];[2;2]]%Z l' /\
    kd_is_sorted 2 trap l' 0 (length l') = Done true.
Proof.
  apply (kd_sort_tie_free_accepted 2 nth_element_ref partition_ref
           [[5;7];[0;4];[3;1];[2;2]]%Z).
  - lia.
  - apply nth_element_ref_ok.
  - apply partition_ref_ok.
  - intros a Ha. destruct a as [|[|a]]; [| |lia]; cbn;
      repeat (constructor; [cbn; intuition discriminate|]); constructor.
Defined.

(** ** Queries on what [kd_sort] built *)

(** Without ties on any axis [kd_sort] returns the tree the queries
    descend. *)
Lemma kd_sort_tie_free_tree (D : nat)
    (nth_element : (point -> point -> bool) -> list point -> nat -> list point)
    (partition : (point -> bool) -> list point -> list point * nat)
    (A : list point) :
  0 < D -> nth_element_ok D nth_element -> partition_ok partition ->
  tie_free D A ->
  exists l',
    kd_sort D nth_element partition A = Done l' /\
    Permutation A l' /\
    (forall stray, kd_tree D stray l' 0 0 (length l')).
Proof.
  intros HD Hn Hp Ht. unfold kd_sort.
  destruct (kd_sort_built D nth_element partition Hn Hp (length A) 0 A)
    as (l' & E & P & B); [lia|].
  exists l'. split; [exact E|]. split; [exact P|].
  assert (Ht' : tie_free D l').
  { intros a Ha. apply (Permutation_NoDup (Permutation_map _ P)).
    now apply Ht. }
  intros stray.
  exact (kd_built_tree D HD stray l' 0 l' B 0 (length l') HD
           (Nat.le_0_l _) (Nat.le_refl _) (span_whole l') Ht').
Qed.

(** X16. [kd_sort] then [kd_nearest_neighbor]: on a non-empty array
    without ties on any axis, the search returns the iterator of an
    element of the array than which no element is closer to the probe. *)
Theorem kd_sort_then_nearest_neighbor (D : nat)
    (nth_element : (point -> point -> bool) -> list point -> nat -> list point)
    (partition : (point -> bool) -> list point -> list point * nat)
    (A : list point) (value : point) :
  0 < D -> nth_element_ok D nth_element -> partition_ok partition ->
  tie_free D A -> A <> [] ->
  exists l' it,
    kd_sort D nth_element partition A = Done l' /\
    kd_nearest_neighbor D trap l' 0 (length l') value = Done it /\
    it < length l' /\
    In (elt l' it) A /\
    (forall x, In x A ->
       dbl_leb (detail.l2dist D (elt l' it) value)
               (detail.l2dist D x value) = true).
Proof.
  intros HD Hn Hp Ht Hne.
  destruct (kd_sort_tie_free_tree D nth_element partition A HD Hn Hp Ht)
    as (l' & E & P & T).
  destruct (kd_nearest_neighbor_spec D HD trap l' value 0 0 (length l')
              (T trap) HD (Nat.le_0_l _) (Nat.le_refl _)
              (length l' - 0) (Nat.le_refl _))
    as (r & Er & _ & Hr & Hmin).
  assert (Hlen : 0 < length l').
  { rewrite <- (Permutation_length P). destruct A; [congruence|cbn; lia]. }
  exists l', r. split; [exact E|]. split; [exact Er|].
  split; [now apply Hr|]. split.
  - apply (Permutation_in _ (Permutation_sym P)).
    apply nth_In. now apply Hr.
  - intros x Hx. apply (Permutation_in _ P) in Hx.
    destruct (In_nth l' x [] Hx) as (j & Hj & <-).
    unfold dbl_leb, detail.l2dist, dbl_ltb.
    apply negb_true_iff, Z.ltb_ge. apply Hmin. lia.
Qed.

Lemma kd_sort_then_nearest_neighbor_witness :
  exists l' it,
    kd_sort 2 nth_element_ref partition_ref [[5;7];[0;4];[3;1];[2;2]]%Z
      = Done l' /\
    kd_nearest_neighbor 2 trap l' 0 (length l') [4;0]%Z = Done it /\
    it < length l' /\
    In (elt l' it) [[5;7];[0;4];[3;1];[2;2]]%Z /\
    (forall x, In x [[5;7];[0;4];[3;1];[2;2]]%Z ->
       dbl_leb (detail.l2dist 2 (elt l' it) [4;0]%Z)
               (detail.l2dist 2 x [4;0]%Z) = true).
Proof.
  apply (kd_sort_then_nearest_neighbor 2 nth_element_ref partition_ref
           [[5;7];[0;4];[3;1];[2;2]]%Z [4;0]%Z).
  - lia.
  - apply nth_element_ref_ok.
  - apply partition_ref_ok.
  - intros a Ha. destruct a as [|[|a]]; [| |lia]; cbn;
      repeat (constructor; [cbn; intuition discriminate|]); constructor.
  - discriminate.
Defined.

(** X17. [kd_sort] then [kd_range_query]: on an array without ties on any
    axis, the query appends to the sink exactly the elements of the array
    that lie in the box, each as often as the array holds it. *)
Theorem kd_sort_then_range_query (D : nat)
    (nth_element : (point -> point -> bool) -> list point -> nat -> list point)
    (partition : (point -> bool) -> list point -> list point * nat)
    (A : list point) (lower upper : point) (outp : list point) :
  0 < D -> nth_element_ok D nth_element -> partition_ok partition ->
  tie_free D A ->
  exists l' found,
    kd_sort D nth_element partition A = Done l' /\
    kd_range_query D trap l' 0 (length l') lower upper outp
      = Done (outp ++ found) /\
    Permutation found
      (filter (fun x => detail.within D x lower upper) A).
Proof.
  intros HD Hn Hp Ht.
  destruct (kd_sort_tie_free_tree D nth_element partition A HD Hn Hp Ht)
    as (l' & E & P & T).
  destruct (kd_range_query_spec D HD trap l' lower upper 0 0 (length l')
              (T trap) HD (Nat.le_0_l _) (Nat.le_refl _)
              (length l' - 0) outp (Nat.le_refl _))
    as (found & Ef & Pf).
  exists l', found. split; [exact E|]. split; [exact Ef|].
  rewrite Pf, span_whole. clear -P.
  induction P as [|x l1 l2 P IH|x y l|l1 l2 l3 P1 IH1 P2 IH2];
    cbn [filter].
  - constructor.
  - destruct (detail.within D x lower upper);
      [now apply perm_skip|exact IH].
  - destruct (detail.within D x lower upper),
             (detail.within D y lower upper);
      try reflexivity. apply perm_swap.
  - now rewrite IH2, IH1.
Qed.

Lemma kd_sort_then_range_query_witness :
  exists l' found,
    kd_sort 2 nth_element_ref partition_ref [[5;7];[0;4];[3;1];[2;2]]%Z
      = Done l' /\
    kd_range_query 2 trap l' 0 (length l') [1;1]%Z [4;4]%Z []
      = Done ([] ++ found) /\
    Permutation found
      (filter (fun x => detail.within 2 x [1;1]%Z [4;4]%Z)
         [[5;7];[0;4];[3;1];[2;2]]%Z).
Proof.
  apply (kd_sort_then_range_query 2 nth_element_ref partition_ref
           [[5;7];[0;4];[3;1];[2;2]]%Z [1;1]%Z [4;4]%Z []).
  - lia.
  - apply nth_element_ref_ok.
  - apply partition_ref_ok.
  - intros a Ha. destruct a as [|[|a]]; [| |lia]; cbn;
      repeat (constructor; [cbn; intuition discriminate|]); constructor.
Defined.

(** X18. [kd_sort] then [kd_binary_search]: on an array without ties on
    any axis, the search returns true exactly when some element of the
    array agrees with [value] on every axis. *)
Theorem kd_sort_then_binary_search (D : nat) (g : point)
    (nth_element : (point -> point -> bool) -> list point -> nat -> list point)
    (partition : (point -> bool) -> list point -> list point * nat)
    (A : list point) (value : point) :
  0 < D -> nth_element_ok D nth_element -> partition_ok partition ->
  tie_free D A ->
  exists l' b,
    kd_sort D nth_element partition A = Done l' /\
    kd_binary_search D (yields g) l' 0 (length l') value = Done b /\
    (b = true <->
     exists x, In x A /\ forall a, a < D -> get a x = get a value).
Proof.
  intros HD Hn Hp Ht.
  destruct (kd_sort_tie_free_tree D nth_element partition A HD Hn Hp Ht)
    as (l' & E & P & T).
  destruct (bounds_enclose D HD g l' value (T (yields g)))
    as (lb & ub & Elb & Eub & Hlb & Hub & Hslb & Henc).
  exists l', (negb (lb =? length l') && detail.none_less D value (elt l' lb)).
  split; [exact E|]. split.
  - unfold kd_binary_search. rewrite Elb. cbn [bind].
    apply is_hit_in; [exact Hlb|apply Nat.le_refl].
  - rewrite andb_true_iff, negb_true_iff, Nat.eqb_neq. split.
    + intros [Hne Hv]. exists (elt l' lb). split.
      * apply (Permutation_in _ (Permutation_sym P)). apply nth_In. lia.
      * specialize (Hslb ltac:(lia)).
        rewrite none_less_spec in Hv, Hslb by exact HD.
        intros a Ha. specialize (Hv a Ha). specialize (Hslb a Ha). lia.
    + intros (x & Hin & Hx). apply (Permutation_in _ P) in Hin.
      destruct (In_nth l' x [] Hin) as (j & Hj & Ej).
      fold (elt l' j) in Ej. subst x.
      destruct (Henc j Hj) as [Hr Hv].
      * rewrite none_less_spec by exact HD.
        intros a Ha. specialize (Hx a Ha). lia.
      * rewrite none_less_spec by exact HD.
        intros a Ha. specialize (Hx a Ha). lia.
      * split; [lia|exact Hv].
Qed.

Lemma kd_sort_then_binary_search_witness :
  exists l' b,
    kd_sort 2 nth_element_ref partition_ref [[5;7];[0;4];[3;1];[2;2]]%Z
      = Done l' /\
    kd_binary_search 2 (yields []) l' 0 (length l') [3;1]%Z = Done b /\
    (b = true <->
     exists x, In x [[5;7];[0;4];[3;1];[2;2]]%Z /\
       forall a, a < 2 -> get a x = get a [3;1]%Z).
Proof.
  apply (kd_sort_then_binary_search 2 [] nth_element_ref partition_ref
           [[5;7];[0;4];[3;1];[2;2]]%Z [3;1]%Z).
  - lia.
  - apply nth_element_ref_ok.
  - apply partition_ref_ok.
  - intros a Ha. destruct a as [|[|a]]; [| |lia]; cbn;
      repeat (constructor; [cbn; intuition discriminate|]); constructor.
Defined.

(** X19. [kd_sort] then [kd_nearest_neighbors]: on an array without ties
    on any axis, the search emits [k] elements of the array, or all of
    them when it holds fewer, none of those left out closer to the probe
    than any emitted one, the farthest first. *)
Theorem kd_sort_then_nearest_neighbors (D : nat)
    (nth_element : (point -> point -> bool) -> list point -> nat -> list point)
    (partition : (point -> bool) -> list point -> list point * nat)
    (A : list point) (value : point) (k : nat) (outp : list point) :
  0 < D -> nth_element_ok D nth_element -> partition_ok partition ->
  tie_free D A ->
  exists l' found others,
    kd_sort D nth_element partition A = Done l' /\
    kd_nearest_neighbors D trap l' 0 (length l') value k outp
      = Done (outp ++ found) /\
    length found = Nat.min k (length A) /\
    Permutation A (found ++ others) /\
    (forall x y, In x found -> In y others ->
       dbl_leb (detail.l2dist D x value) (detail.l2dist D y value) = true) /\
    StronglySorted
      (fun x y => dbl_leb (detail.l2dist D y value)
                          (detail.l2dist D x value) = true) found.
Proof.
  intros HD Hn Hp Ht.
  destruct (kd_sort_tie_free_tree D nth_element partition A HD Hn Hp Ht)
    as (l' & E & P & T).
  destruct (kd_nearest_neighbors_spec D HD trap l' value k outp (T trap))
    as (its & rest & Ek & Hlen & Hp' & Hc & Hso).
  exists l', (map (elt l') its), (map (elt l') rest).
  split; [exact E|]. split; [exact Ek|]. split; [|split; [|split]].
  - now rewrite length_map, Hlen, (Permutation_length P).
  - rewrite P, <- map_app, <- Hp'. now rewrite map_elt_seq.
  - intros x y Hx Hy.
    apply in_map_iff in Hx. destruct Hx as (i & <- & Hi).
    apply in_map_iff in Hy. destruct Hy as (j & <- & Hj).
    unfold dbl_leb, detail.l2dist, dbl_ltb.
    apply negb_true_iff, Z.ltb_ge. now apply Hc.
  - unfold farthest_first in Hso. clear -Hso.
    induction Hso as [|h t Hs IH Hh]; cbn [map]; [constructor|].
    constructor; [exact IH|].
    apply Forall_map. eapply Forall_impl; [|exact Hh]. cbv beta.
    intros j Hj. unfold dbl_leb, detail.l2dist, dbl_ltb.
    now apply negb_true_iff, Z.ltb_ge.
Qed.

Lemma kd_sort_then_nearest_neighbors_witness :
  exists l' found others,
    kd_sort 2 nth_element_ref partition_ref [[5;7];[0;4];[3;1];[2;2]]%Z
      = Done l' /\
    kd_nearest_neighbors 2 trap l' 0 (length l') [4;0]%Z 2 []
      = Done ([] ++ found) /\
    length found = Nat.min 2 (length [[5;7];[0;4];[3;1];[2;2]]%Z) /\
    Permutation [[5;7];[0;4];[3;1];[2;2]]%Z (found ++ others) /\
    (forall x y, In x found -> In y others ->
       dbl_leb (detail.l2dist 2 x [4;0]%Z) (detail.l2dist 2 y [4;0]%Z)
         = true) /\
    StronglySorted
      (fun x y => dbl_leb (detail.l2dist 2 y [4;0]%Z)
                          (detail.l2dist 2 x [4;0]%Z) = true) found.
Proof.
  apply (kd_sort_then_nearest_neighbors 2 nth_element_ref partition_ref
           [[5;7];[0;4];[3;1];[2;2]]%Z [4;0]%Z 2 []).
  - lia.
  - apply nth_element_ref_ok.
  - apply partition_ref_ok.
  - intros a Ha. destruct a as [|[|a]]; [| |lia]; cbn;
      repeat (constructor; [cbn; intuition discriminate|]); constructor.
Defined.

(** ** The order of [kd_less], axis by axis *)

Lemma kd_less__cyclic (D rest : nat) :
  forall I x y, I < D ->
  detail.kd_less_ D rest I x y = true <->
  exists k, k <= rest /\
    (forall j, j < k ->
       get ((I + j) mod D) x = get ((I + j) mod D) y) /\
    (get ((I + k) mod D) x < get ((I + k) mod D) y)%Z.
Proof.
  induction rest as [|rest IH]; intros I x y HI.
  - cbn [detail.kd_less_]. rewrite Z.ltb_lt. split.
    + intros H. exists 0. rewrite Nat.add_0_r, Nat.mod_small by exact HI.
      split; [lia|]. split; [intros j Hj; lia|exact H].
    + intros (k & Hk & _ & H). assert (k = 0) by lia. subst k.
      now rewrite Nat.add_0_r, Nat.mod_small in H by exact HI.
  - cbn [detail.kd_less_].
    assert (Hnext : forall j,
              (detail.next_dim D I + j) mod D = (I + S j) mod D).
    { intros j. unfold detail.next_dim, detail.incr_wrap.
      rewrite Nat.Div0.add_mod_idemp_l. f_equal. lia. }
    assert (HJ : detail.next_dim D I < D)
      by (apply next_dim_lt; lia).
    destruct (get I x =? get I y)%Z eqn:E.
    + apply Z.eqb_eq in E. rewrite (IH _ x y HJ). split.
      * intros (k & Hk & Heq & Hlt). exists (S k). split; [lia|]. split.
        -- intros [|j] Hj.
           ++ now rewrite Nat.add_0_r, Nat.mod_small by exact HI.
           ++ rewrite <- Hnext. apply Heq. lia.
        -- now rewrite <- Hnext.
      * intros (k & Hk & Heq & Hlt). destruct k as [|k].
        -- rewrite Nat.add_0_r, Nat.mod_small in Hlt by exact HI. lia.
        -- exists k. split; [lia|]. split.
           ++ intros j Hj. rewrite !Hnext. apply Heq. lia.
           ++ now rewrite !Hnext.
    + apply Z.eqb_neq in E. rewrite Z.ltb_lt. split.
      * intros H. exists 0. rewrite Nat.add_0_r, Nat.mod_small by exact HI.
        split; [lia|]. split; [intros j Hj; lia|exact H].
      * intros (k & Hk & Heq & Hlt). destruct k as [|k].
        -- now rewrite Nat.add_0_r, Nat.mod_small in Hlt by exact HI.
        -- specialize (Heq 0 ltac:(lia)).
           rewrite Nat.add_0_r, Nat.mod_small in Heq by exact HI.
           contradiction.
Qed.

(** X23. [kd_less<I>] is the lexicographic order on the coordinates taken
    from axis [I] on and around: [lhs] precedes [rhs] exactly when, at the
    first axis in that cycle where they differ, [lhs] is the smaller.
    With [I = 0] it is the lexicographic order that [lex_sort] sorts
    by. *)
Theorem kd_less_cyclic_lexicographic (D I : nat) (x y : point) :
  I < D ->
  detail.kd_less D I x y = true <->
  exists k, k < D /\
    (forall j, j < k ->
       get ((I + j) mod D) x = get ((I + j) mod D) y) /\
    (get ((I + k) mod D) x < get ((I + k) mod D) y)%Z.
Proof.
  intros HI. unfold detail.kd_less.
  rewrite (kd_less__cyclic D (D - 1) I x y HI).
  split; intros (k & Hk & H); exists k; (split; [lia|exact H]).
Qed.

Lemma kd_less_cyclic_lexicographic_witness :
  detail.kd_less 3 1 [7;2;5]%Z [1;2;6]%Z = true <->
  exists k, k < 3 /\
    (forall j, j < k ->
       get ((1 + j) mod 3) [7;2;5]%Z = get ((1 + j) mod 3) [1;2;6]%Z) /\
    (get ((1 + k) mod 3) [7;2;5]%Z < get ((1 + k) mod 3) [1;2;6]%Z)%Z.
Proof.
  apply (kd_less_cyclic_lexicographic 3 1 [7;2;5]%Z [1;2;6]%Z). lia.
Defined.

(** X24. [n_best::add] keeps the queue's invariant: a queue that holds
    the closest of the iterators offered so far, as many as its bound
    allows and the farthest on top, does so again after one more is
    offered, and its bound is unchanged. *)
Theorem n_best_add_keeps_closest (D : nat) (A : list point) (value : point)
    (q : detail.n_best) (offered : list nat) (it : nat) :
  0 < D ->
  best_of D A value q offered ->
  best_of D A value (detail.add q (detail.l2dist D (elt A it) value) it)
    (it :: offered) /\
  detail.m_n (detail.add q (detail.l2dist D (elt A it) value) it)
    = detail.m_n q.
Proof.
  intros HD Hq. now apply best_of_add.
Qed.

Lemma n_best_add_keeps_closest_witness :
  best_of 2 [[5;5];[0;0];[3;1]]%Z [4;4]%Z
    (detail.add (detail.n_best_new 1)
       (detail.l2dist 2 (elt [[5;5];[0;0];[3;1]]%Z 2) [4;4]%Z) 2)
    [2] /\
  detail.m_n
    (detail.add (detail.n_best_new 1)
       (detail.l2dist 2 (elt [[5;5];[0;0];[3;1]]%Z 2) [4;4]%Z) 2)
    = detail.m_n (detail.n_best_new 1).
Proof.
  apply (n_best_add_keeps_closest 2 [[5;5];[0;0];[3;1]]%Z [4;4]%Z
           (detail.n_best_new 1) [] 2).
  - lia.
  - apply best_of_new.
Defined.

(** X25. On an empty range, wherever it lies, [kd_is_sorted] returns
    true, [kd_nearest_neighbor] returns [last], and [kd_range_query] and
    [kd_nearest_neighbors] leave the sink as it is, none of them
    dereferencing an iterator; [kd_sort] returns the empty array. *)
Theorem empty_range_is_not_read (D : nat) (A : list point) (first : nat)
    (value lower upper : point) (n : nat) (outp : list point)
    (nth_element : (point -> point -> bool) -> list point -> nat -> list point)
    (partition : (point -> bool) -> list point -> list point * nat) :
  kd_is_sorted D trap A first first = Done true /\
  kd_nearest_neighbor D trap A first first value = Done first /\
  kd_range_query D trap A first first lower upper outp = Done outp /\
  kd_nearest_neighbors D trap A first first value n outp = Done outp /\
  kd_sort D nth_element partition [] = Done [].
Proof.
  unfold kd_is_sorted, kd_nearest_neighbor, kd_range_query,
    kd_nearest_neighbors, kd_sort.
  rewrite !Nat.sub_diag.
  cbn [detail.kd_is_sorted detail.kd_nearest_neighbor detail.kd_range_query
       detail.knn detail.kd_sort length].
  rewrite !Nat.sub_diag. cbn.
  repeat split; reflexivity.
Qed.

(** ** One array, one tree: [kd_sort] without ties *)

Lemma filter_perm (p : point -> bool) (l1 l2 : list point) :
  Permutation l1 l2 -> Permutation (filter p l1) (filter p l2).
Proof.
  induction 1 as [|x l1 l2 P IH|x y l|l1 l2 l3 P1 IH1 P2 IH2];
    cbn [filter].
  - constructor.
  - destruct (p x); [now apply perm_skip|exact IH].
  - destruct (p x), (p y); try reflexivity. apply perm_swap.
  - now rewrite IH1.
Qed.

Lemma filter_keep (p : point -> bool) (l : list point) :
  (forall y, In y l -> p y = true) -> filter p l = l.
Proof.
  induction l as [|a l IH]; intros H; [reflexivity|]. cbn [filter].
  rewrite (H a) by now left. f_equal. apply IH.
  intros y Hy. apply H. now right.
Qed.

Lemma filter_drop (p : point -> bool) (l : list point) :
  (forall y, In y l -> p y = false) -> filter p l = [].
Proof.
  induction l as [|a l IH]; intros H; [reflexivity|]. cbn [filter].
  rewrite (H a) by now left. apply IH.
  intros y Hy. apply H. now right.
Qed.

Lemma NoDup_map_eq (f : point -> Z) (l : list point) (a b : point) :
  NoDup (map f l) -> In a l -> In b l -> f a = f b -> a = b.
Proof.
  induction l as [|c l IH]; intros Hnd Ha Hb E; [contradiction|].
  cbn [map] in Hnd. inversion Hnd as [|? ? Hc Hnd']. subst.
  destruct Ha as [->|Ha], Hb as [->|Hb].
  - reflexivity.
  - exfalso. apply Hc. rewrite E. now apply in_map.
  - exfalso. apply Hc. rewrite <- E. now apply in_map.
  - now apply IH.
Qed.

Section CanonicalFacts.

Variable D : nat.

(** Without ties the pivot of a node splits the coordinates of its axis
    strictly, and sits in the middle. *)
Lemma node_keys (I : nat) (lo : list point) (x : point) (hi : list point) :
  I < D -> tie_free D (lo ++ x :: hi) ->
  (forall y, In y lo -> detail.kd_less D I y x = true) ->
  (forall y, In y hi -> detail.kd_less D I y x = false) ->
  (forall y, In y lo -> (get I y < get I x)%Z) /\
  (forall y, In y hi -> (get I x < get I y)%Z).
Proof.
  intros HI Ht Hlo Hhi.
  destruct (tie_free_parts D lo x hi Ht) as (_ & _ & Hne).
  split; intros y Hy.
  - specialize (Hlo y Hy). unfold detail.kd_less in Hlo.
    apply kd_less_true_axis in Hlo.
    assert (get I y <> get I x)
      by (apply Hne; [exact HI|apply in_or_app; now left]).
    lia.
  - specialize (Hhi y Hy). unfold detail.kd_less in Hhi.
    apply kd_less_false_axis in Hhi.
    assert (get I y <> get I x)
      by (apply Hne; [exact HI|apply in_or_app; now right]).
    lia.
Qed.

Lemma node_middle (I : nat) (lo : list point) (x : point) (hi : list point) :
  I < D -> tie_free D (lo ++ x :: hi) ->
  length lo <= (length lo + S (length hi)) / 2 ->
  (length lo < (length lo + S (length hi)) / 2 ->
   exists y, In y hi /\
     detail.kd_less D I y x = false /\ detail.kd_less D I x y = false) ->
  length lo = (length lo + S (length hi)) / 2.
Proof.
  intros HI Ht Hhalf Hcopy.
  destruct (tie_free_parts D lo x hi Ht) as (_ & _ & Hne).
  destruct (Nat.eq_dec (length lo) ((length lo + S (length hi)) / 2))
    as [E|E]; [exact E|exfalso].
  destruct Hcopy as (y & Hy & Hyx & Hxy); [lia|].
  apply (Hne I y HI); [apply in_or_app; now right|].
  unfold detail.kd_less in *.
  apply kd_less_false_axis in Hyx, Hxy. lia.
Qed.

Lemma filter_node (I : nat) (lo : list point) (x : point) (hi : list point) :
  (forall y, In y lo -> (get I y < get I x)%Z) ->
  (forall y, In y hi -> (get I x < get I y)%Z) ->
  filter (fun y => (get I y <? get I x)%Z) (lo ++ x :: hi) = lo /\
  filter (fun y => (get I x <? get I y)%Z) (lo ++ x :: hi) = hi.
Proof.
  intros Hlo Hhi. rewrite !filter_app. cbn [filter].
  rewrite Z.ltb_irrefl. split.
  - rewrite filter_keep, filter_drop; [apply app_nil_r| |].
    + intros y Hy. apply Z.ltb_ge. specialize (Hhi y Hy). lia.
    + intros y Hy. apply Z.ltb_lt. now apply Hlo.
  - rewrite filter_drop, filter_keep; [reflexivity| |].
    + intros y Hy. apply Z.ltb_lt. now apply Hhi.
    + intros y Hy. apply Z.ltb_ge. specialize (Hlo y Hy). lia.
Qed.

(** More elements lie below a greater pivot. *)
Lemma below_counts (I : nat) (lo : list point) (x : point) (hi : list point)
    (k : Z) :
  (forall y, In y lo -> (get I y < get I x)%Z) ->
  (get I x < k)%Z ->
  length lo < length (filter (fun y => (get I y <? k)%Z) (lo ++ x :: hi)).
Proof.
  intros Hlo Hk. rewrite filter_app. cbn [filter].
  rewrite filter_keep.
  - destruct (get I x <? k)%Z eqn:E; [|apply Z.ltb_ge in E; lia].
    rewrite length_app. cbn [length]. lia.
  - intros y Hy. apply Z.ltb_lt. specialize (Hlo y Hy). lia.
Qed.

Lemma kd_built_unique (I : nat) (l1 : list point) :
  kd_built D I l1 ->
  forall l2, kd_built D I l2 -> I < D -> Permutation l1 l2 ->
  tie_free D l1 -> l1 = l2.
Proof.
  assert (Hsmall : forall l1 l2 : list point,
            length l1 <= 1 -> Permutation l1 l2 -> l1 = l2).
  { intros [|a [|b l]] l2 Hlen P; cbn in Hlen; try lia.
    - symmetry. now apply Permutation_nil.
    - symmetry. now apply Permutation_length_1_inv. }
  induction 1 as [I l1 Hlen|I lo1 x1 hi1 Hh1 Hc1 Hlo1 Hhi1 Blo1 IHlo Bhi1 IHhi];
    intros l2 B2 HI P Ht1; [now apply Hsmall|].
  assert (Ht2 : tie_free D l2).
  { intros a Ha. apply (Permutation_NoDup (Permutation_map _ P)).
    now apply Ht1. }
  inversion B2 as [I' l' Hlen E1 E2|I' lo2 x2 hi2 Hh2 Hc2 Hlo2 Hhi2 Blo2 Bhi2 E1 E2].
  { subst. symmetry. apply Hsmall; [exact Hlen|now symmetry]. }
  subst I'. subst l2.
  pose proof (Permutation_length P) as L.
  rewrite !length_app in L. cbn [length] in L.
  pose proof (node_middle I lo1 x1 hi1 HI Ht1 Hh1 Hc1) as M1.
  pose proof (node_middle I lo2 x2 hi2 HI Ht2 Hh2 Hc2) as M2.
  assert (Ell : length lo1 = length lo2)
    by (rewrite M1, M2; now rewrite L).
  destruct (node_keys I lo1 x1 hi1 HI Ht1 Hlo1 Hhi1) as [K1l K1h].
  destruct (node_keys I lo2 x2 hi2 HI Ht2 Hlo2 Hhi2) as [K2l K2h].
  destruct (filter_node I lo1 x1 hi1 K1l K1h) as [F1l F1h].
  destruct (filter_node I lo2 x2 hi2 K2l K2h) as [F2l F2h].
  assert (Ekey : get I x1 = get I x2).
  { destruct (Z.lt_trichotomy (get I x1) (get I x2)) as [Hlt|[E|Hgt]];
      [exfalso|exact E|exfalso].
    - pose proof (below_counts I lo1 x1 hi1 (get I x2) K1l Hlt) as Hc.
      pose proof (Permutation_length
                    (filter_perm (fun y => (get I y <? get I x2)%Z) _ _ P))
        as Lf.
      rewrite F2l in Lf. rewrite Lf, <- Ell in Hc.
      exact (Nat.lt_irrefl _ Hc).
    - pose proof (below_counts I lo2 x2 hi2 (get I x1) K2l Hgt) as Hc.
      pose proof (Permutation_length
                    (filter_perm (fun y => (get I y <? get I x1)%Z) _ _ P))
        as Lf.
      rewrite F1l in Lf. rewrite <- Lf, Ell in Hc.
      exact (Nat.lt_irrefl _ Hc). }
  assert (Ex : x1 = x2).
  { apply (NoDup_map_eq (get I) (lo1 ++ x1 :: hi1)).
    - now apply Ht1.
    - apply in_or_app. right. now left.
    - apply (Permutation_in _ (Permutation_sym P)).
      apply in_or_app. right. now left.
    - exact Ekey. }
  subst x2.
  destruct (tie_free_parts D lo1 x1 hi1 Ht1) as (Tlo & Thi & _).
  assert (HJ : detail.next_dim D I < D) by (apply next_dim_lt; lia).
  assert (Plo : Permutation lo1 lo2).
  { rewrite <- F1l, <- F2l. now apply filter_perm. }
  assert (Phi : Permutation hi1 hi2).
  { rewrite <- F1h, <- F2h. now apply filter_perm. }
  rewrite (IHlo lo2 Blo2 HJ Plo Tlo), (IHhi hi2 Bhi2 HJ Phi Thi).
  reflexivity.
Qed.

End CanonicalFacts.

(** X26. Without ties on any axis the array [kd_sort] returns depends
    neither on the order of the elements it is given nor on which
    conforming [nth_element] and [partition] it runs on. *)
Theorem kd_sort_canonical (D : nat)
    (nth_element nth_element' :
       (point -> point -> bool) -> list point -> nat -> list point)
    (partition partition' : (point -> bool) -> list point -> list point * nat)
    (A B : list point) :
  0 < D ->
  nth_element_ok D nth_element -> partition_ok partition ->
  nth_element_ok D nth_element' -> partition_ok partition' ->
  tie_free D A -> Permutation A B ->
  exists l',
    kd_sort D nth_element partition A = Done l' /\
    kd_sort D nth_element' partition' B = Done l'.
Proof.
  intros HD Hn Hp Hn' Hp' Ht P. unfold kd_sort.
  destruct (kd_sort_built D nth_element partition Hn Hp (length A) 0 A)
    as (l1 & E1 & P1 & B1); [lia|].
  destruct (kd_sort_built D nth_element' partition' Hn' Hp' (length B) 0 B)
    as (l2 & E2 & P2 & B2); [lia|].
  exists l1. split; [exact E1|]. rewrite E2. f_equal. symmetry.
  apply (kd_built_unique D 0 l1 B1 l2 B2 HD).
  - now rewrite <- P1, P, P2.
  - intros a Ha. apply (Permutation_NoDup (Permutation_map _ P1)).
    now apply Ht.
Qed.

Lemma kd_sort_canonical_witness :
  exists l',
    kd_sort 2 nth_element_ref partition_ref [[5;7];[0;4];[3;1];[2;2]]%Z
      = Done l' /\
    kd_sort 2 nth_element_ref partition_ref [[2;2];[3;1];[5;7];[0;4]]%Z
      = Done l'.
Proof.
  apply (kd_sort_canonical 2 nth_element_ref nth_element_ref
           partition_ref partition_ref
           [[5;7];[0;4];[3;1];[2;2]]%Z [[2;2];[3;1];[5;7];[0;4]]%Z).
  - lia.
  - apply nth_element_ref_ok.
  - apply partition_ref_ok.
  - apply nth_element_ref_ok.
  - apply partition_ref_ok.
  - intros a Ha. destruct a as [|[|a]]; [| |lia]; cbn;
      repeat (constructor; [cbn; intuition discriminate|]); constructor.
  - apply (Permutation_count_occ point_eq_dec). intros x.
    cbn [count_occ].
    repeat match goal with
    | |- context [point_eq_dec ?a ?b] => destruct (point_eq_dec a b)
    end; try reflexivity; congruence.
Defined.

(** * The queries on what [kd_sort] returns *)

(** ** What [kd_sort] returns, and what [kd_is_sorted] accepts, is
    partitioned *)

Lemma kd_built_partitioned (D I : nat) (l : list point) :
  kd_built D I l -> kd_partitioned D I l.
Proof.
  induction 1 as [I l Hlen|I lo x hi _ _ Hlo Hhi _ IHlo _ IHhi].
  - now apply kd_partitioned_leaf.
  - now apply kd_partitioned_node.
Qed.

Lemma kd_sort_partitioned (D : nat)
    (nth_element : (point -> point -> bool) -> list point -> nat -> list point)
    (partition : (point -> bool) -> list point -> list point * nat)
    (A : list point) :
  nth_element_ok D nth_element -> partition_ok partition ->
  exists l',
    kd_sort D nth_element partition A = Done l' /\
    Permutation A l' /\
    kd_partitioned D 0 l'.
Proof.
  intros Hn Hp. unfold kd_sort.
  destruct (kd_sort_built D nth_element partition Hn Hp (length A) 0 A)
    as (l' & E & P & B); [lia|].
  exists l'. split; [exact E|]. split; [exact P|].
  now apply kd_built_partitioned.
Qed.

Lemma kd_tree_partitioned (D : nat) (stray : nat -> outcome point)
    (A : list point) (I first last : nat) :
  kd_tree D stray A I first last -> first <= last -> last <= length A ->
  kd_partitioned D I (span A first last).
Proof.
  induction 1 as [I first last Hs
                 |I first last p Hs Hp Hb Hlo Hhi Tl IHl Tr IHr];
    intros Hfl Hl.
  - apply kd_partitioned_leaf. rewrite length_span by exact Hl. lia.
  - rewrite (span_split A first p last) by lia.
    apply kd_partitioned_node.
    + intros y Hy. apply In_span in Hy; [|lia].
      destruct Hy as (j & Hj & ->). now apply Hlo.
    + intros y Hy. apply In_span in Hy; [|lia].
      destruct Hy as (j & Hj & ->). apply Hhi. lia.
    + apply IHl; lia.
    + apply IHr; lia.
Qed.

Lemma kd_is_sorted_partitioned (D : nat) (stray : nat -> outcome point)
    (A : list point) :
  kd_is_sorted D stray A 0 (length A) = Done true -> kd_partitioned D 0 A.
Proof.
  intros Hs. apply kd_is_sorted_tree in Hs; [|apply Nat.le_refl].
  rewrite <- (span_whole A).
  apply (kd_tree_partitioned D stray A 0 0 (length A) Hs); lia.
Qed.

(** ** The span of [kd_equal_range] *)

Lemma kd_equal_range_encloses (D : nat) (g : point) (A : list point)
    (value : point) :
  0 < D -> kd_partitioned D 0 A -> In value A ->
  exists lb ub,
    kd_equal_range D (yields g) A 0 (length A) value = Done (lb, ub) /\
    lb <= ub <= length A /\
    count_occ point_eq_dec (span A lb ub) value
      = count_occ point_eq_dec A value.
Proof.
  intros HD Hs Hin.
  pose proof (StronglySorted_elt _ A (kd_partitioned_sorted D 0 A Hs HD))
    as Hord.
  destruct (bounds_enclose_ordered D HD g A Hord value)
    as (lb & ub & Elb & Eub & Hlb & Hub & Hslb & Henc).
  assert (Hcopy : forall j, j < length A -> elt A j = value -> lb <= j < ub).
  { intros j Hj E. apply Henc; [exact Hj| |]; rewrite E;
      now apply none_less_refl. }
  destruct (In_nth A value [] Hin) as (j0 & Hj0 & E0).
  pose proof (Hcopy j0 Hj0 E0) as Hj0'.
  exists lb, ub. split; [|split; [lia|]].
  - unfold kd_equal_range. rewrite Elb. cbn [bind]. now rewrite Eub.
  - rewrite <- (span_whole A) at 2.
    rewrite (span_app A 0 lb (length A)) by lia.
    rewrite (span_app A lb ub (length A)) by lia.
    rewrite !count_occ_app.
    assert (H0 : count_occ point_eq_dec (span A 0 lb) value = 0).
    { apply count_occ_not_In. intros Hx.
      apply In_span in Hx; [|lia]. destruct Hx as (j & Hj & Ej).
      specialize (Hcopy j ltac:(lia) (eq_sym Ej)). lia. }
    assert (H1 : count_occ point_eq_dec (span A ub (length A)) value = 0).
    { apply count_occ_not_In. intros Hx.
      apply In_span in Hx; [|lia]. destruct Hx as (j & Hj & Ej).
      specialize (Hcopy j ltac:(lia) (eq_sym Ej)). lia. }
    lia.
Qed.

(** C8, as the code has it.  When a 3-D array holds exactly three copies
    of [(7,7,7)], then after [kd_sort] the span from [lb] to [ub] that
    [kd_equal_range] returns holds those three copies; other elements may
    lie in it too.  A read past the end of the array, which the two bound
    searches can make, yields an arbitrary point [g]. *)
Theorem kd_equal_range_holds_copies (g : point)
    (nth_element : (point -> point -> bool) -> list point -> nat -> list point)
    (partition : (point -> bool) -> list point -> list point * nat)
    (A A' : list point) :
  nth_element_ok 3 nth_element -> partition_ok partition ->
  count_occ point_eq_dec A [7;7;7]%Z = 3 ->
  kd_sort 3 nth_element partition A = Done A' ->
  exists lb ub,
    kd_equal_range 3 (yields g) A' 0 (length A') [7;7;7]%Z = Done (lb, ub) /\
    lb <= ub <= length A' /\
    count_occ point_eq_dec (span A' lb ub) [7;7;7]%Z = 3.
Proof.
  intros Hn Hp Hc Hsort.
  destruct (kd_sort_partitioned 3 nth_element partition A Hn Hp)
    as (l' & El & P & Hs).
  rewrite El in Hsort. injection Hsort as ->.
  rewrite (Permutation_count_occ point_eq_dec) in P.
  rewrite P in Hc.
  destruct (kd_equal_range_encloses 3 g A' [7;7;7]%Z ltac:(lia) Hs)
    as (lb & ub & E & Hb & Hcount).
  - apply (count_occ_In point_eq_dec). lia.
  - exists lb, ub. split; [exact E|]. split; [exact Hb|]. lia.
Qed.

Lemma kd_equal_range_holds_copies_witness :
  exists lb ub,
    kd_equal_range 3 (yields [])
      [[7;7;7];[7;7;7];[7;8;6];[7;7;7]]%Z 0
      (length [[7;7;7];[7;7;7];[7;8;6];[7;7;7]]%Z) [7;7;7]%Z = Done (lb, ub) /\
    lb <= ub <= length [[7;7;7];[7;7;7];[7;8;6];[7;7;7]]%Z /\
    count_occ point_eq_dec
      (span [[7;7;7];[7;7;7];[7;8;6];[7;7;7]]%Z lb ub) [7;7;7]%Z = 3.
Proof.
  apply (kd_equal_range_holds_copies [] nth_element_ref partition_ref
           [[7;8;6];[7;7;7];[7;7;7];[7;7;7]]%Z
           [[7;7;7];[7;7;7];[7;8;6];[7;7;7]]%Z).
  - apply nth_element_ref_ok.
  - apply partition_ref_ok.
  - reflexivity.
  - reflexivity.
Defined.

(** ** Distinct points: one array, whatever [nth_element] and [partition] *)

Lemma NoDup_map_same (T : Type) (f : point -> T) (l : list point)
    (a b : point) :
  NoDup (map f l) -> In a l -> In b l -> f a = f b -> a = b.
Proof.
  induction l as [|c l IH]; intros Hnd Ha Hb E; [contradiction|].
  cbn [map] in Hnd. inversion Hnd as [|? ? Hc Hnd']. subst.
  destruct Ha as [->|Ha], Hb as [->|Hb].
  - reflexivity.
  - exfalso. apply Hc. rewrite E. now apply in_map.
  - exfalso. apply Hc. rewrite <- E. now apply in_map.
  - now apply IH.
Qed.

Lemma NoDup_by_nodup (l : list (list Z)) :
  nodup (list_eq_dec Z.eq_dec) l = l -> NoDup l.
Proof.
  intros E. rewrite <- E. apply NoDup_nodup.
Qed.

Section DistinctFacts.

Variable D : nat.

Local Abbreviation coords := (fun x : point => map (fun a => get a x) (seq 0 D)).

Lemma coords_agree (x y : point) :
  (forall a, a < D -> get a x = get a y) -> coords x = coords y.
Proof.
  intros H. apply map_ext_in. intros a Ha. apply in_seq in Ha.
  apply H. lia.
Qed.

Lemma distinct_parts (lo : list point) (x : point) (hi : list point) :
  distinct_points D (lo ++ x :: hi) ->
  distinct_points D lo /\ distinct_points D hi /\
  (forall y, In y (lo ++ hi) -> coords y <> coords x).
Proof.
  unfold distinct_points. intros H. rewrite map_app in H. cbn [map] in H.
  repeat split.
  - exact (NoDup_app_remove_r _ _ H).
  - apply NoDup_app_remove_l in H. now inversion H.
  - intros y Hy E. apply NoDup_remove_2 in H. apply H.
    rewrite <- map_app, <- E.
    exact (in_map coords _ _ Hy).
Qed.

(** Among distinct points an element not smaller than the pivot is
    greater. *)
Lemma node_total (I : nat) (lo : list point) (x : point) (hi : list point) :
  I < D -> distinct_points D (lo ++ x :: hi) ->
  (forall z, In z hi -> detail.kd_less D I z x = false) ->
  forall z, In z hi -> detail.kd_less D I x z = true.
Proof.
  intros HI Hd Hhi z Hz.
  destruct (distinct_parts lo x hi Hd) as (_ & _ & Hne).
  destruct (detail.kd_less D I x z) eqn:E; [reflexivity|exfalso].
  apply (Hne z); [apply in_or_app; now right|].
  apply coords_agree. intros a Ha.
  apply (kd_less_incomparable D (D - 1) I z x (Hhi z Hz) E).
  apply axes_all; lia.
Qed.

Lemma node_middle_distinct (I : nat) (lo : list point) (x : point)
    (hi : list point) :
  I < D -> distinct_points D (lo ++ x :: hi) ->
  length lo <= (length lo + S (length hi)) / 2 ->
  (length lo < (length lo + S (length hi)) / 2 ->
   exists y, In y hi /\
     detail.kd_less D I y x = false /\ detail.kd_less D I x y = false) ->
  length lo = (length lo + S (length hi)) / 2.
Proof.
  intros HI Hd Hhalf Hcopy.
  destruct (distinct_parts lo x hi Hd) as (_ & _ & Hne).
  destruct (Nat.eq_dec (length lo) ((length lo + S (length hi)) / 2))
    as [E|E]; [exact E|exfalso].
  destruct Hcopy as (y & Hy & Hyx & Hxy); [lia|].
  apply (Hne y); [apply in_or_app; now right|].
  apply coords_agree. intros a Ha.
  apply (kd_less_incomparable D (D - 1) I y x Hyx Hxy).
  apply axes_all; lia.
Qed.

Lemma filter_node_kd (I : nat) (lo : list point) (x : point)
    (hi : list point) :
  (forall y, In y lo -> detail.kd_less D I y x = true) ->
  (forall z, In z hi -> detail.kd_less D I z x = false) ->
  (forall z, In z hi -> detail.kd_less D I x z = true) ->
  filter (fun y => detail.kd_less D I y x) (lo ++ x :: hi) = lo /\
  filter (fun y => detail.kd_less D I x y) (lo ++ x :: hi) = hi.
Proof.
  intros Hlo Hhi Hhi'. rewrite !filter_app. cbn [filter].
  rewrite kd_less_irrefl. split.
  - rewrite (filter_keep _ lo), (filter_drop _ hi) by assumption.
    apply app_nil_r.
  - rewrite (filter_drop _ lo), (filter_keep _ hi); [reflexivity|exact Hhi'|].
    intros y Hy. unfold detail.kd_less. apply kd_less_asym. now apply Hlo.
Qed.

Lemma below_counts_kd (I : nat) (lo : list point) (x : point)
    (hi : list point) (k : point) :
  (forall y, In y lo -> detail.kd_less D I y x = true) ->
  detail.kd_less D I x k = true ->
  length lo
  < length (filter (fun y => detail.kd_less D I y k) (lo ++ x :: hi)).
Proof.
  intros Hlo Hk. rewrite filter_app. cbn [filter]. rewrite Hk.
  rewrite filter_keep.
  - rewrite length_app. cbn [length]. lia.
  - intros y Hy. unfold detail.kd_less in *.
    apply (kd_less_lt_le_trans D (D - 1) I y x k); [now apply Hlo|].
    now apply kd_less_asym.
Qed.

Lemma kd_built_unique_distinct (I : nat) (l1 : list point) :
  kd_built D I l1 ->
  forall l2, kd_built D I l2 -> I < D -> Permutation l1 l2 ->
  distinct_points D l1 -> l1 = l2.
Proof.
  assert (Hsmall : forall l1 l2 : list point,
            length l1 <= 1 -> Permutation l1 l2 -> l1 = l2).
  { intros [|a [|b l]] l2 Hlen P; cbn in Hlen; try lia.
    - symmetry. now apply Permutation_nil.
    - symmetry. now apply Permutation_length_1_inv. }
  induction 1 as [I l1 Hlen|I lo1 x1 hi1 Hh1 Hc1 Hlo1 Hhi1 Blo1 IHlo Bhi1 IHhi];
    intros l2 B2 HI P Hd1; [now apply Hsmall|].
  assert (Hd2 : distinct_points D l2).
  { unfold distinct_points in *.
    exact (Permutation_NoDup (Permutation_map _ P) Hd1). }
  inversion B2 as [I' l' Hlen E1 E2|I' lo2 x2 hi2 Hh2 Hc2 Hlo2 Hhi2 Blo2 Bhi2 E1 E2].
  { subst. symmetry. apply Hsmall; [exact Hlen|now symmetry]. }
  subst I'. subst l2.
  pose proof (Permutation_length P) as L.
  rewrite !length_app in L. cbn [length] in L.
  pose proof (node_middle_distinct I lo1 x1 hi1 HI Hd1 Hh1 Hc1) as M1.
  pose proof (node_middle_distinct I lo2 x2 hi2 HI Hd2 Hh2 Hc2) as M2.
  assert (Ell : length lo1 = length lo2)
    by (rewrite M1, M2; now rewrite L).
  pose proof (node_total I lo1 x1 hi1 HI Hd1 Hhi1) as Hup1.
  pose proof (node_total I lo2 x2 hi2 HI Hd2 Hhi2) as Hup2.
  destruct (filter_node_kd I lo1 x1 hi1 Hlo1 Hhi1 Hup1) as [F1l F1h].
  destruct (filter_node_kd I lo2 x2 hi2 Hlo2 Hhi2 Hup2) as [F2l F2h].
  assert (E12 : detail.kd_less D I x1 x2 = false).
  { destruct (detail.kd_less D I x1 x2) eqn:E; [exfalso|reflexivity].
    pose proof (below_counts_kd I lo1 x1 hi1 x2 Hlo1 E) as Hc.
    pose proof (Permutation_length
                  (filter_perm (fun y => detail.kd_less D I y x2) _ _ P))
      as Lf.
    rewrite F2l in Lf. rewrite Lf, <- Ell in Hc.
    exact (Nat.lt_irrefl _ Hc). }
  assert (E21 : detail.kd_less D I x2 x1 = false).
  { destruct (detail.kd_less D I x2 x1) eqn:E; [exfalso|reflexivity].
    pose proof (below_counts_kd I lo2 x2 hi2 x1 Hlo2 E) as Hc.
    pose proof (Permutation_length
                  (filter_perm (fun y => detail.kd_less D I y x1) _ _ P))
      as Lf.
    rewrite F1l in Lf. rewrite <- Lf, Ell in Hc.
    exact (Nat.lt_irrefl _ Hc). }
  assert (Ex : x1 = x2).
  { apply (NoDup_map_same _ coords (lo1 ++ x1 :: hi1)).
    - exact Hd1.
    - apply in_or_app. right. now left.
    - apply (Permutation_in _ (Permutation_sym P)).
      apply in_or_app. right. now left.
    - apply coords_agree. intros a Ha.
      apply (kd_less_incomparable D (D - 1) I x1 x2 E12 E21).
      apply axes_all; lia. }
  subst x2.
  destruct (distinct_parts lo1 x1 hi1 Hd1) as (Dlo & Dhi & _).
  assert (HJ : detail.next_dim D I < D) by (apply next_dim_lt; lia).
  assert (Plo : Permutation lo1 lo2).
  { rewrite <- F1l, <- F2l. now apply filter_perm. }
  assert (Phi : Permutation hi1 hi2).
  { rewrite <- F1h, <- F2h. now apply filter_perm. }
  rewrite (IHlo lo2 Blo2 HJ Plo Dlo), (IHhi hi2 Bhi2 HJ Phi Dhi).
  reflexivity.
Qed.

End DistinctFacts.

(** On distinct points every conforming [nth_element] and [partition]
    make [kd_sort] return what it returns on the reference ones. *)
Lemma kd_sort_as_ref (D : nat)
    (nth_element : (point -> point -> bool) -> list point -> nat -> list point)
    (partition : (point -> bool) -> list point -> list point * nat)
    (A : list point) :
  0 < D -> nth_element_ok D nth_element -> partition_ok partition ->
  distinct_points D A ->
  kd_sort D nth_element partition A = kd_sort_ref D A.
Proof.
  intros HD Hn Hp Hd. unfold kd_sort_ref, kd_sort.
  destruct (kd_sort_built D nth_element partition Hn Hp (length A) 0 A)
    as (l1 & E1 & P1 & B1); [lia|].
  destruct (kd_sort_built D nth_element_ref partition_ref
              (nth_element_ref_ok D) partition_ref_ok (length A) 0 A)
    as (l2 & E2 & P2 & B2); [lia|].
  rewrite E1, E2. f_equal.
  apply (kd_built_unique_distinct D 0 l1 B1 l2 B2 HD).
  - now rewrite <- P1, P2.
  - unfold distinct_points in *.
    exact (Permutation_NoDup (Permutation_map _ P1) Hd).
Qed.

(** ** Where the queries go wrong on what [kd_sort] returns *)

(** C2 fails on the code.  Whatever conforming [nth_element] and
    [partition] are used, [kd_sort] arranges the four distinct points
    below as [(0,0), (0,1), (0,2), (1,0)]; probed at [(1,0)], an element
    of the array, [kd_nearest_neighbor] returns iterator 0, the point
    [(0,0)] at distance 1: [find_pivot<0>] bisects on axis 0 alone and
    returns iterator 0, not the builder's pivot, and the search leaves
    [(1,0)] out. *)
Theorem kd_nearest_neighbor_not_nearest
    (nth_element : (point -> point -> bool) -> list point -> nat -> list point)
    (partition : (point -> bool) -> list point -> list point * nat) :
  nth_element_ok 2 nth_element -> partition_ok partition ->
  kd_sort 2 nth_element partition [[1;0];[0;0];[0;2];[0;1]]%Z
    = Done [[0;0];[0;1];[0;2];[1;0]]%Z /\
  detail.find_pivot trap [[0;0];[0;1];[0;2];[1;0]]%Z 0 0 4 = Done 0 /\
  kd_nearest_neighbor 2 trap [[0;0];[0;1];[0;2];[1;0]]%Z 0 4 [1;0]%Z
    = Done 0 /\
  detail.l2dist 2 (elt [[0;0];[0;1];[0;2];[1;0]]%Z 0) [1;0]%Z = Sqrt 1 /\
  detail.l2dist 2 (elt [[0;0];[0;1];[0;2];[1;0]]%Z 3) [1;0]%Z = Sqrt 0 /\
  dbl_leb (detail.l2dist 2 (elt [[0;0];[0;1];[0;2];[1;0]]%Z 0) [1;0]%Z)
          (detail.l2dist 2 (elt [[0;0];[0;1];[0;2];[1;0]]%Z 3) [1;0]%Z)
    = false.
Proof.
  intros Hn Hp. split; [|repeat split; reflexivity].
  rewrite (kd_sort_as_ref 2 nth_element partition _ ltac:(lia) Hn Hp).
  - reflexivity.
  - apply NoDup_by_nodup. reflexivity.
Qed.

Lemma kd_nearest_neighbor_not_nearest_witness :
  kd_sort 2 nth_element_ref partition_ref [[1;0];[0;0];[0;2];[0;1]]%Z
    = Done [[0;0];[0;1];[0;2];[1;0]]%Z /\
  detail.find_pivot trap [[0;0];[0;1];[0;2];[1;0]]%Z 0 0 4 = Done 0 /\
  kd_nearest_neighbor 2 trap [[0;0];[0;1];[0;2];[1;0]]%Z 0 4 [1;0]%Z
    = Done 0 /\
  detail.l2dist 2 (elt [[0;0];[0;1];[0;2];[1;0]]%Z 0) [1;0]%Z = Sqrt 1 /\
  detail.l2dist 2 (elt [[0;0];[0;1];[0;2];[1;0]]%Z 3) [1;0]%Z = Sqrt 0 /\
  dbl_leb (detail.l2dist 2 (elt [[0;0];[0;1];[0;2];[1;0]]%Z 0) [1;0]%Z)
          (detail.l2dist 2 (elt [[0;0];[0;1];[0;2];[1;0]]%Z 3) [1;0]%Z)
    = false.
Proof.
  apply (kd_nearest_neighbor_not_nearest nth_element_ref partition_ref).
  - apply nth_element_ref_ok.
  - apply partition_ref_ok.
Defined.

(** C4 fails on the code.  On the same array and probe, asked for one
    neighbour, [kd_nearest_neighbors] emits [(0,0)], at distance 1, and
    not [(1,0)], at distance 0: [knn] prunes the side that holds it. *)
Theorem kd_nearest_neighbors_not_nearest
    (nth_element : (point -> point -> bool) -> list point -> nat -> list point)
    (partition : (point -> bool) -> list point -> list point * nat) :
  nth_element_ok 2 nth_element -> partition_ok partition ->
  kd_sort 2 nth_element partition [[1;0];[0;0];[0;2];[0;1]]%Z
    = Done [[0;0];[0;1];[0;2];[1;0]]%Z /\
  kd_nearest_neighbors 2 trap [[0;0];[0;1];[0;2];[1;0]]%Z 0 4 [1;0]%Z 1 []
    = Done [[0;0]%Z] /\
  In [1;0]%Z [[0;0];[0;1];[0;2];[1;0]]%Z /\
  detail.l2dist 2 [0;0]%Z [1;0]%Z = Sqrt 1 /\
  detail.l2dist 2 [1;0]%Z [1;0]%Z = Sqrt 0 /\
  dbl_leb (detail.l2dist 2 [0;0]%Z [1;0]%Z)
          (detail.l2dist 2 [1;0]%Z [1;0]%Z) = false.
Proof.
  intros Hn Hp. split; [|repeat split; try reflexivity].
  - rewrite (kd_sort_as_ref 2 nth_element partition _ ltac:(lia) Hn Hp).
    + reflexivity.
    + apply NoDup_by_nodup. reflexivity.
  - cbn. tauto.
Qed.

Lemma kd_nearest_neighbors_not_nearest_witness :
  kd_sort 2 nth_element_ref partition_ref [[1;0];[0;0];[0;2];[0;1]]%Z
    = Done [[0;0];[0;1];[0;2];[1;0]]%Z /\
  kd_nearest_neighbors 2 trap [[0;0];[0;1];[0;2];[1;0]]%Z 0 4 [1;0]%Z 1 []
    = Done [[0;0]%Z] /\
  In [1;0]%Z [[0;0];[0;1];[0;2];[1;0]]%Z /\
  detail.l2dist 2 [0;0]%Z [1;0]%Z = Sqrt 1 /\
  detail.l2dist 2 [1;0]%Z [1;0]%Z = Sqrt 0 /\
  dbl_leb (detail.l2dist 2 [0;0]%Z [1;0]%Z)
          (detail.l2dist 2 [1;0]%Z [1;0]%Z) = false.
Proof.
  apply (kd_nearest_neighbors_not_nearest nth_element_ref partition_ref).
  - apply nth_element_ref_ok.
  - apply partition_ref_ok.
Defined.

(** C3 fails on the code.  Whatever conforming [nth_element] and
    [partition] are used, on what [kd_sort] returns for the forty-one
    distinct points [(i mod 3, 7i mod 41)] the query for the box from
    [(0,0)] to [(1,100)] appends seven elements, while fourteen elements
    of the array lie in the box; [(0,21)] is one of those left out. *)
Theorem kd_range_query_misses_elements
    (nth_element : (point -> point -> bool) -> list point -> nat -> list point)
    (partition : (point -> bool) -> list point -> list point * nat) :
  nth_element_ok 2 nth_element -> partition_ok partition ->
  exists l',
    kd_sort 2 nth_element partition ties41 = Done l' /\
    length l' = 41 /\
    kd_range_query 2 trap l' 0 (length l') [0;0]%Z [1;100]%Z []
      = Done [[0;0];[0;1];[0;2];[0;3];[0;4];[0;5];[0;6]]%Z /\
    length (filter (fun x => detail.within 2 x [0;0]%Z [1;100]%Z) l') = 14 /\
    In [0;21]%Z l' /\
    detail.within 2 [0;21]%Z [0;0]%Z [1;100]%Z = true.
Proof.
  intros Hn Hp.
  rewrite (kd_sort_as_ref 2 nth_element partition _ ltac:(lia) Hn Hp)
    by (apply NoDup_by_nodup; vm_compute; reflexivity).
  eexists. split; [vm_compute; reflexivity|].
  split; [reflexivity|]. split; [vm_compute; reflexivity|].
  split; [vm_compute; reflexivity|]. split; [|reflexivity].
  cbn. tauto.
Qed.

Lemma kd_range_query_misses_elements_witness :
  exists l',
    kd_sort 2 nth_element_ref partition_ref ties41 = Done l' /\
    length l' = 41 /\
    kd_range_query 2 trap l' 0 (length l') [0;0]%Z [1;100]%Z []
      = Done [[0;0];[0;1];[0;2];[0;3];[0;4];[0;5];[0;6]]%Z /\
    length (filter (fun x => detail.within 2 x [0;0]%Z [1;100]%Z) l') = 14 /\
    In [0;21]%Z l' /\
    detail.within 2 [0;21]%Z [0;0]%Z [1;100]%Z = true.
Proof.
  apply (kd_range_query_misses_elements nth_element_ref partition_ref).
  - apply nth_element_ref_ok.
  - apply partition_ref_ok.
Defined.
